(** * CircuitMatter: SPAKE2+ engine, RFC 6979 nonces and field arithmetic

    A shallow embedding of [circuitmatter/pase.py], [cm_ecdsa/rfc6979.py]
    and [cm_ecdsa/numbertheory.py].  Python integers are [Z], byte strings
    are sequences of [byte], a raised exception is the [Raise] branch of
    [result].  Library code outside the repository (hashlib, struct, hmac,
    the elliptic-curve package, the AEAD) enters as section variables. *)

From Stdlib Require Import ZArith Lia Znumtheory.
From Stdlib Require Import Strings.Byte Strings.String.
From HB Require Import structures.
From mathcomp Require Import boot algebra field.
Close Scope Z_scope.
Delimit Scope Z_scope with Z.

Set Implicit Arguments.
Unset Strict Implicit.
Unset Printing Implicit Defensive.

(** Linear arithmetic over [nat] written with ssrnat's operators. *)
Ltac nat_lia :=
  repeat match goal with
  | H : is_true (leq _ _) |- _ => move/leP: H => H
  | H : is_true (_ == _ :> nat) |- _ => move/eqP: H => H
  | H : (leq _ _) = false |- _ => move/negbT: H; rewrite -ltnNge => /leP H
  | H : context [addn _ _] |- _ => rewrite -plusE in H
  | H : context [muln _ _] |- _ => rewrite -multE in H
  | H : context [subn _ _] |- _ => rewrite -minusE in H
  end;
  try match goal with
  | |- is_true (leq _ _) => apply/leP
  | |- is_true (_ == _ :> nat) => apply/eqP
  end;
  rewrite -?plusE -?multE -?minusE;
  lia.

Lemma Zlt_true (a b : Z) : (a <? b)%Z = true -> (a < b)%Z.
Proof. by move/Z.ltb_lt. Qed.

Lemma Zle_true (a b : Z) : (a <=? b)%Z = true -> (a <= b)%Z.
Proof. by move/Z.leb_le. Qed.

Lemma Zrange_true (a b c : Z) :
  ((a <=? b) && (b <? c))%Z = true -> (a <= b < c)%Z.
Proof. by case/andP=> /Z.leb_le H1 /Z.ltb_lt H2. Qed.

Lemma Zrange_true_lt (a b c : Z) :
  ((a <? b) && (b <? c))%Z = true -> (a < b < c)%Z.
Proof. by case/andP=> /Z.ltb_lt H1 /Z.ltb_lt H2. Qed.

(** ** Exceptions and results *)

(** The two messages [square_root_mod_prime] attaches to [SquareRootError]. *)
Inductive sqrt_msg : Type :=
| NoSquareRoot   (* "%d has no square root modulo %d" *)
| NotPrime.      (* "p is not prime" *)

Inductive exn : Type :=
| AssertionError
| NameError
| StructError
| OverflowError
| ValueError
| MalformedPointError
| JacobiError
| SquareRootError of sqrt_msg
| RuntimeError
| ZeroDivisionError
| IndexError.

Inductive result (A : Type) : Type :=
| Ok of A
| Raise of exn.

Arguments Ok {A} _.
Arguments Raise {A} _.

Definition bind {A B : Type} (r : result A) (k : A -> result B) : result B :=
  match r with
  | Ok a => k a
  | Raise e => Raise e
  end.

Notation "x <- r ;; k" := (bind r (fun x => k))
  (at level 100, r at next level, right associativity).
Notation "' pat <- r ;; k" := (bind r (fun x => match x with pat => k end))
  (at level 100, pat pattern, r at next level, right associativity).

Lemma bind_Ok (A B : Type) (a : A) (k : A -> result B) : bind (Ok a) k = k a.
Proof. by []. Qed.

Lemma bind_Raise (A B : Type) (e : exn) (k : A -> result B) :
  bind (Raise e) k = Raise e.
Proof. by []. Qed.

(** [assert c] *)
Definition assert (c : bool) : result unit :=
  if c then Ok tt else Raise AssertionError.

(** ** Byte strings and the integer conversions of Python *)

Definition bytes := seq byte.

Definition byte_of_Z (z : Z) : byte :=
  odflt x00 (of_N (Z.to_N (z mod 256))).

Definition Z_of_byte (b : byte) : Z := Z.of_N (to_N b).

(** The [k] low bytes of [n], least significant first. *)
Fixpoint le_bytes (k : nat) (n : Z) : bytes :=
  if k is k'.+1 then byte_of_Z (n mod 256) :: le_bytes k' (n / 256)%Z
  else [::].

(** The integer a little-endian byte string denotes. *)
Fixpoint le_int (bs : bytes) : Z :=
  if bs is b :: bs' then (Z_of_byte b + 256 * le_int bs')%Z else 0%Z.

(** [int.from_bytes(bs, byteorder="big")] *)
Definition int_from_bytes_big (bs : bytes) : Z :=
  foldl (fun acc b => (256 * acc + Z_of_byte b)%Z) 0%Z bs.

(** [n.to_bytes(len, byteorder="big")]: OverflowError outside [0, 256^len). *)
Definition int_to_bytes_big (n : Z) (len : nat) : result bytes :=
  if ((0 <=? n) && (n <? 256 ^ Z.of_nat len))%Z
  then Ok (rev (le_bytes len n))
  else Raise OverflowError.

(** [struct.pack("<Q", n)] and [struct.pack("<I", n)] *)
Definition struct_pack_Q (n : Z) : result bytes :=
  if ((0 <=? n) && (n <? 2 ^ 64))%Z then Ok (le_bytes 8 n)
  else Raise StructError.

Definition struct_pack_I (n : Z) : result bytes :=
  if ((0 <=? n) && (n <? 2 ^ 32))%Z then Ok (le_bytes 4 n)
  else Raise StructError.

(** [tt[lo:hi] = e] on a bytearray, for [lo <= hi]. *)
Definition slice_assign (tt : bytes) (lo hi : nat) (e : bytes) : bytes :=
  take lo tt ++ e ++ drop hi tt.

(** [struct.pack_into("<Q", tt, offset, n)]: the buffer must hold the eight
    bytes at [offset]. *)
Definition struct_pack_into_Q (tt : bytes) (offset : nat) (n : Z) : result bytes :=
  if offset + 8 <= size tt then
    b <- struct_pack_Q n ;;
    Ok (take offset tt ++ b ++ drop (offset + 8) tt)
  else Raise StructError.

Arguments le_bytes : simpl never.

Lemma Z_of_byteK (z : Z) : (0 <= z < 256)%Z -> Z_of_byte (byte_of_Z z) = z.
Proof.
move=> Hz; rewrite /Z_of_byte /byte_of_Z Z.mod_small //.
case E: (of_N (Z.to_N z)) => [b|] /=.
  by rewrite (@to_of_N _ _ E) Z2N.id; lia.
by move/of_N_None_iff: E; lia.
Qed.

Lemma size_le_bytes (k : nat) (n : Z) : size (le_bytes k n) = k.
Proof. by elim: k n => [|k IH] n //=; rewrite IH. Qed.

Lemma le_int_cons (b : byte) (bs : bytes) :
  le_int (b :: bs) = (Z_of_byte b + 256 * le_int bs)%Z.
Proof. by []. Qed.

Lemma le_bytesS (k : nat) (n : Z) :
  le_bytes k.+1 n = byte_of_Z (n mod 256) :: le_bytes k (n / 256)%Z.
Proof. by []. Qed.

Lemma le_bytesK (k : nat) (n : Z) :
  (0 <= n < 256 ^ Z.of_nat k)%Z -> le_int (le_bytes k n) = n.
Proof.
elim: k n => [|k IH] n Hn.
  by move: Hn; rewrite Z.pow_0_r /=; lia.
have Hk : (256 ^ Z.of_nat k.+1 = 256 * 256 ^ Z.of_nat k)%Z.
  by rewrite Nat2Z.inj_succ Z.pow_succ_r; lia.
have Hm := Z.mod_pos_bound n 256.
have Hd := Z.div_mod n 256.
rewrite le_bytesS le_int_cons Z_of_byteK; first by lia.
rewrite IH; last by lia.
split; first by apply: Z.div_pos; lia.
by apply: Z.div_lt_upper_bound; lia.
Qed.

(** [s[lo:hi]] for [lo <= hi] (the result is empty otherwise, as in Python). *)
Definition slice (T : Type) (s : seq T) (lo hi : nat) : seq T :=
  take (hi - lo) (drop lo s).

Lemma int_from_bytes_big_rcons (bs : bytes) (b : byte) :
  int_from_bytes_big (rcons bs b) = (256 * int_from_bytes_big bs + Z_of_byte b)%Z.
Proof. by rewrite /int_from_bytes_big -cats1 foldl_cat. Qed.

Lemma Z_of_byte_bound (b : byte) : (0 <= Z_of_byte b < 256)%Z.
Proof. by rewrite /Z_of_byte; have := to_N_bounded b; lia. Qed.

Lemma int_from_bytes_big_bound (bs : bytes) :
  (0 <= int_from_bytes_big bs < 256 ^ Z.of_nat (size bs))%Z.
Proof.
elim/last_ind: bs => [|bs b IH]; first by rewrite /int_from_bytes_big /=; lia.
rewrite int_from_bytes_big_rcons size_rcons Nat2Z.inj_succ Z.pow_succ_r; first by lia.
by have := Z_of_byte_bound b; lia.
Qed.

(** ** pase.py: the SPAKE2+ engine *)

Section Pase.

Local Open Scope Z_scope.
Local Open Scope nat_scope.

(** *** What pase.py imports

    [crypto] is a module of the package that is not among the sources: its
    constants and its [Hash], [HMAC] and [KDF(key, salt, info, bits)] are
    taken as given.  A salt of [None] is [None] here. *)
Variables HASH_LEN_BYTES HASH_LEN_BITS : nat.
Variables SYMMETRIC_KEY_LENGTH_BYTES SYMMETRIC_KEY_LENGTH_BITS : nat.
Variables GROUP_SIZE_BYTES AEAD_MIC_LENGTH_BYTES : nat.
Variable Crypto_Hash : bytes -> bytes.
Variable Crypto_HMAC : bytes -> bytes -> bytes.
Variable Crypto_KDF : bytes -> option bytes -> bytes -> nat -> bytes.

(** [hashlib.pbkdf2_hmac("sha256", password, salt, iterations, dklen)] *)
Variable pbkdf2_hmac_sha256 : bytes -> bytes -> Z -> nat -> result bytes.

(** [AESCCM(key, tag_length=...)] *)
Variable aead : Type.
Variable AESCCM : bytes -> nat -> result aead.

(** The elliptic-curve package: the curve NIST256p with its generator,
    order, cofactor and [baselen], points with [+], unary [-] and the
    product with an integer, [to_bytes("uncompressed")] and [from_bytes]. *)
Variable point : Type.
Variable generator : point.
Variables order cofactor : Z.
Variable baselen : nat.
Variable point_add : point -> point -> point.
Variable point_neg : point -> point.
Variable point_mul : Z -> point -> point.
Variable to_bytes_uncompressed : point -> bytes.
Variable from_bytes : bytes -> result point.

(** The two constants [M] and [N], decoded when the module is loaded. *)
Variables M N : point.

(** The caller's random source: [random_source.randbelow(n)]. *)
Variable random_source : Type.
Variable randbelow : random_source -> Z -> Z * random_source.

Definition W_SIZE_BYTES : nat := GROUP_SIZE_BYTES + 8.

Definition _pbkdf2 (passcode : Z) (salt : bytes) (iterations : Z) : result (Z * Z) :=
  packed <- struct_pack_I passcode ;;
  ws <- pbkdf2_hmac_sha256 packed salt iterations (W_SIZE_BYTES * 2) ;;
  let w0 := (int_from_bytes_big (take W_SIZE_BYTES ws) mod order)%Z in
  let w1 := (int_from_bytes_big (drop W_SIZE_BYTES ws) mod order)%Z in
  Ok (w0, w1).

Definition initiator_values (passcode : Z) (salt : bytes) (iterations : Z)
  : result (bytes * bytes) :=
  ws <- _pbkdf2 passcode salt iterations ;;
  w0 <- int_to_bytes_big ws.1 baselen ;;
  w1 <- int_to_bytes_big ws.2 baselen ;;
  Ok (w0, w1).

Definition verifier_values (passcode : Z) (salt : bytes) (iterations : Z)
  : result (bytes * bytes) :=
  ws <- _pbkdf2 passcode salt iterations ;;
  let L := point_mul ws.2 generator in
  w0 <- int_to_bytes_big ws.1 baselen ;;
  Ok (w0, to_bytes_uncompressed L).

Definition Crypto_pA (w0 w1 : bytes) : bytes := [::].

Definition Crypto_pB (rs : random_source) (w0 : Z) (L : point)
  : Z * point * random_source :=
  let: (y, rs) := randbelow rs order in
  let Y := point_add (point_mul y generator) (point_mul w0 N) in
  (y, Y, rs).

Definition transcript_elements (context pA pB Z V w0 : bytes) : seq bytes :=
  [:: context; [::]; [::]; to_bytes_uncompressed M; to_bytes_uncompressed N;
      pA; pB; Z; V; w0].

(** The second loop of [Crypto_Transcript]. *)
Fixpoint transcript_fill (elements : seq bytes) (tt : bytes) (offset : nat)
  : result bytes :=
  if elements is e :: rest then
    tt <- struct_pack_into_Q tt offset (Z.of_nat (size e)) ;;
    let offset := offset + 8 in
    let tt := slice_assign tt offset (offset + size e) e in
    let offset := offset + size e in
    transcript_fill rest tt offset
  else Ok tt.

Definition Crypto_Transcript (context pA pB Z V w0 : bytes) : result bytes :=
  let elements := transcript_elements context pA pB Z V w0 in
  let total_length := foldl (fun total e => total + (size e + 8)) 0 elements in
  let tt := nseq total_length x00 in
  transcript_fill elements tt 0.

(** What the transcript is said to be: every element behind its own length
    as eight little-endian bytes. *)
Definition frame (e : bytes) : bytes := le_bytes 8 (Z.of_nat (size e)) ++ e.

Definition fits_Q (e : bytes) : bool := (Z.of_nat (size e) <? 2 ^ 64)%Z.

Arguments frame : simpl never.

Lemma size_frame (e : bytes) : size (frame e) = 8 + size e.
Proof. by rewrite /frame size_cat size_le_bytes. Qed.

Lemma foldl_total (es : seq bytes) (t0 : nat) :
  foldl (fun total e => total + (size e + 8)) t0 es =
  t0 + sumn [seq 8 + size e | e <- es].
Proof.
elim: es t0 => [|e es IH] t0 /=; first by rewrite addn0.
by rewrite IH -!plusE; lia.
Qed.

Lemma struct_pack_into_Q_cat (done rest : bytes) (n : Z) :
  (0 <= n < 2 ^ 64)%Z -> 8 <= size rest ->
  struct_pack_into_Q (done ++ rest) (size done) n =
  Ok (done ++ le_bytes 8 n ++ drop 8 rest).
Proof.
move=> Hn Hrest.
rewrite /struct_pack_into_Q size_cat leq_add2l Hrest /struct_pack_Q.
have -> : ((0 <=? n) && (n <? 2 ^ 64))%Z = true.
  by apply/andP; split; [apply/Z.leb_le | apply/Z.ltb_lt]; lia.
rewrite bind_Ok take_size_cat // drop_cat ltnNge leq_addr.
by rewrite [~~ true]/= addnC addnK.
Qed.

Lemma slice_assign_cat (done rest e : bytes) :
  slice_assign (done ++ rest) (size done) (size done + size e) e =
  done ++ e ++ drop (size e) rest.
Proof.
rewrite /slice_assign take_size_cat // drop_cat ltnNge leq_addr.
by rewrite [~~ true]/= addnC addnK.
Qed.

Lemma transcript_fill_cons (e : bytes) (es : seq bytes) (tt : bytes) (offset : nat) :
  transcript_fill (e :: es) tt offset =
  (tt1 <- struct_pack_into_Q tt offset (Z.of_nat (size e)) ;;
   transcript_fill es
     (slice_assign tt1 (offset + 8) (offset + 8 + size e) e)
     (offset + 8 + size e)).
Proof. by []. Qed.

Lemma transcript_fill_frames (es : seq bytes) (done rest : bytes) :
  all fits_Q es ->
  size rest = sumn [seq 8 + size e | e <- es] ->
  transcript_fill es (done ++ rest) (size done) =
  Ok (done ++ flatten [seq frame e | e <- es]).
Proof.
elim: es done rest => [|e es IH] done rest.
  by move=> _ /size0nil ->.
have -> : flatten [seq frame e0 | e0 <- e :: es] =
          frame e ++ flatten [seq frame e0 | e0 <- es] by [].
rewrite [all _ _]/= [sumn _]/= => /andP [He Hes] Hrest.
have Hn : (0 <= Z.of_nat (size e) < 2 ^ 64)%Z.
  by move/Z.ltb_lt: He; have := Nat2Z.is_nonneg (size e); lia.
rewrite transcript_fill_cons struct_pack_into_Q_cat //; first by rewrite Hrest -addnA leq_addr.
rewrite bind_Ok.
set hdr := le_bytes 8 _.
have Hd : size (done ++ hdr) = size done + 8.
  by rewrite size_cat size_le_bytes.
rewrite catA -Hd slice_assign_cat -size_cat.
rewrite drop_drop [(done ++ hdr) ++ e ++ _]catA IH //.
  by rewrite size_drop Hrest -!plusE -minusE; lia.
by rewrite /frame -/hdr -!catA.
Qed.

(** [KDF(salt, key, info)] of pase.py, which swaps the first two arguments
    on the way to [crypto.KDF]. *)
Definition KDF (salt : option bytes) (key info : bytes) : bytes :=
  Crypto_KDF key salt info HASH_LEN_BITS.

Definition ConfirmationKeys : bytes := list_byte_of_string "ConfirmationKeys".
Definition SessionKeys : bytes := list_byte_of_string "SessionKeys".

Definition Crypto_P2 (tt pA pB : bytes) : bytes * bytes * bytes :=
  let KaKe := Crypto_Hash tt in
  let Ka := take (HASH_LEN_BYTES %/ 2) KaKe in
  let Ke := drop (HASH_LEN_BYTES %/ 2) KaKe in
  let KcAKcB := KDF None Ka ConfirmationKeys in
  let KcA := take (HASH_LEN_BYTES %/ 2) KcAKcB in
  let KcB := drop (HASH_LEN_BYTES %/ 2) KcAKcB in
  let cA := Crypto_HMAC KcA pB in
  let cB := Crypto_HMAC KcB pA in
  (cA, cB, Ke).

(** The attributes [compute_session_keys] sets on the session context. *)
Record SecureSessionContext : Type := {
  i2r_key : bytes;
  i2r : option aead;
  r2i_key : bytes;
  r2i : option aead;
  attestation_challenge : bytes
}.

Definition compute_session_keys (Ke : bytes) (ctx : SecureSessionContext)
  : result SecureSessionContext :=
  let keys := Crypto_KDF Ke (Some [::]) SessionKeys (3 * SYMMETRIC_KEY_LENGTH_BITS) in
  let k1 := take SYMMETRIC_KEY_LENGTH_BYTES keys in
  c1 <- AESCCM k1 AEAD_MIC_LENGTH_BYTES ;;
  let k2 := slice keys SYMMETRIC_KEY_LENGTH_BYTES (2 * SYMMETRIC_KEY_LENGTH_BYTES) in
  c2 <- AESCCM k2 AEAD_MIC_LENGTH_BYTES ;;
  let k3 := slice keys (2 * SYMMETRIC_KEY_LENGTH_BYTES)
                       (3 * SYMMETRIC_KEY_LENGTH_BYTES) in
  Ok {| i2r_key := k1; i2r := Some c1; r2i_key := k2; r2i := Some c2;
        attestation_challenge := k3 |}.

(** The two fields of the PAKE2 message that [compute_verification] sets. *)
Record PAKE2 : Type := { pB : bytes; cB : bytes }.

Definition compute_verification (rs : random_source) (pake1_pA : bytes)
    (pake2 : PAKE2) (context verifier : bytes)
  : result (bytes * bytes * PAKE2 * random_source) :=
  let w0 := take GROUP_SIZE_BYTES verifier in
  let L := drop GROUP_SIZE_BYTES verifier in
  L <- from_bytes L ;;
  let w0 := int_from_bytes_big w0 in
  let: (y, Y, rs) := Crypto_pB rs w0 L in
  let pake2 := {| pB := to_bytes_uncompressed Y; cB := cB pake2 |} in
  let h := cofactor in
  X <- from_bytes pake1_pA ;;
  let Z := point_mul (h * y)%Z (point_add X (point_neg (point_mul w0 M))) in
  let V := point_mul (h * y)%Z L in
  w0b <- int_to_bytes_big w0 baselen ;;
  tt <- Crypto_Transcript context pake1_pA (pB pake2)
          (to_bytes_uncompressed Z) (to_bytes_uncompressed V) w0b ;;
  let: (cA, cB, Ke) := Crypto_P2 tt pake1_pA (pB pake2) in
  let pake2 := {| pB := pB pake2; cB := cB |} in
  Ok (cA, Ke, pake2, rs).

(** *** The claims on pase.py *)

(** The transcript as the concatenation of its framed elements. *)
Lemma Crypto_Transcript_flatten (context pA pB Z V w0 : bytes) :
  let elements :=
    [:: context; [::]; [::]; to_bytes_uncompressed M; to_bytes_uncompressed N;
        pA; pB; Z; V; w0] in
  all fits_Q elements ->
  Crypto_Transcript context pA pB Z V w0 =
    Ok (flatten [seq le_bytes 8 (Z.of_nat (size e)) ++ e | e <- elements]) /\
  size (flatten [seq le_bytes 8 (Z.of_nat (size e)) ++ e | e <- elements]) =
    sumn [seq 8 + size e | e <- elements].
Proof.
move=> elements Hfit; split.
  rewrite /Crypto_Transcript -/elements foldl_total add0n.
  by rewrite -[nseq _ _]cat0s (@transcript_fill_frames elements [::]) // size_nseq.
by rewrite size_flatten /shape -map_comp; congr sumn.
Qed.

(** C1.  The transcript is the concatenation, in this order, of the frames of
    [context], two empty strings, the uncompressed [M] and [N], [pA], [pB],
    [Z], [V] and [w0]: each element behind its own length as eight
    little-endian bytes ([frame], decoded again by [le_bytesK]), and nothing
    else; its length is the sum of [8 + size e] over the elements.  The
    lengths fit the [Q] format, as the lengths of Python byte strings do. *)
Theorem Crypto_Transcript_frames (context pA pB Z V w0 : bytes) :
  let elements :=
    [:: context; [::]; [::]; to_bytes_uncompressed M; to_bytes_uncompressed N;
        pA; pB; Z; V; w0] in
  all fits_Q elements ->
  Crypto_Transcript context pA pB Z V w0 =
    Ok (flatten [seq le_bytes 8 (Z.of_nat (size e)) ++ e | e <- elements]) /\
  size (flatten [seq le_bytes 8 (Z.of_nat (size e)) ++ e | e <- elements]) =
    sumn [seq 8 + size e | e <- elements].
Proof. exact: Crypto_Transcript_flatten. Qed.

(** C3.  [Crypto_P2] hashes the transcript and splits the digest at its
    midpoint into [Ka] and [Ke]; it derives [KcA || KcB] from [Ka] with no
    salt, the info string "ConfirmationKeys" and the hash length in bits,
    splits that at its midpoint, and returns [HMAC(KcA, pB)], [HMAC(KcB, pA)]
    and [Ke]. *)
Theorem Crypto_P2_keys (tt pA pB : bytes) :
  size (Crypto_Hash tt) = HASH_LEN_BYTES ->
  (forall key salt info bits, size (Crypto_KDF key salt info bits) = bits %/ 8) ->
  HASH_LEN_BITS = 8 * HASH_LEN_BYTES ->
  let KaKe := Crypto_Hash tt in
  let Ka := take (size KaKe)./2 KaKe in
  let Ke := drop (size KaKe)./2 KaKe in
  let KcAKcB := Crypto_KDF Ka None ConfirmationKeys HASH_LEN_BITS in
  let KcA := take (size KcAKcB)./2 KcAKcB in
  let KcB := drop (size KcAKcB)./2 KcAKcB in
  [/\ Ka ++ Ke = KaKe, KcA ++ KcB = KcAKcB, size KcAKcB = HASH_LEN_BYTES &
      Crypto_P2 tt pA pB = (Crypto_HMAC KcA pB, Crypto_HMAC KcB pA, Ke)].
Proof.
move=> Hh Hkdf Hbits; cbv zeta.
rewrite !cat_take_drop Hkdf Hbits mulKn // Hh.
by split; rewrite // /Crypto_P2 /KDF Hbits divn2.
Qed.

(** C4.  [_pbkdf2] packs the passcode as four little-endian bytes, asks
    PBKDF2-HMAC-SHA256 for [2 * (GROUP_SIZE_BYTES + 8)] bytes, and reduces the
    big-endian value of each half modulo the order: these are [w0] and [w1].
    [verifier_values] returns [w0] on [baselen] bytes and the encoding of
    [L = w1 * generator]. *)
Theorem verifier_values_derivation (passcode : Z) (salt : bytes)
    (iterations : Z) (ws : bytes) :
  (0 <= passcode < 2 ^ 32)%Z ->
  (0 < order < 256 ^ Z.of_nat baselen)%Z ->
  pbkdf2_hmac_sha256 (le_bytes 4 passcode) salt iterations
    ((GROUP_SIZE_BYTES + 8) * 2) = Ok ws ->
  size ws = 2 * (GROUP_SIZE_BYTES + 8) ->
  let h0 := take (size ws)./2 ws in
  let h1 := drop (size ws)./2 ws in
  let w0 := (int_from_bytes_big h0 mod order)%Z in
  let w1 := (int_from_bytes_big h1 mod order)%Z in
  let L := point_mul w1 generator in
  [/\ h0 ++ h1 = ws, size h0 = size h1,
      _pbkdf2 passcode salt iterations = Ok (w0, w1) &
      verifier_values passcode salt iterations =
        Ok (rev (le_bytes baselen w0), to_bytes_uncompressed L)].
Proof.
move=> Hp Ho Hws Hsz h0 h1 w0 w1 L.
have Hhalf : (size ws)./2 = W_SIZE_BYTES by rewrite Hsz -divn2 mulKn.
have Hpb : _pbkdf2 passcode salt iterations = Ok (w0, w1).
  rewrite /_pbkdf2 /struct_pack_I.
  have -> : ((0 <=? passcode) && (passcode <? 2 ^ 32))%Z = true.
    by apply/andP; split; [apply/Z.leb_le | apply/Z.ltb_lt]; lia.
  by rewrite bind_Ok /W_SIZE_BYTES Hws bind_Ok -/W_SIZE_BYTES -Hhalf.
split; rewrite ?cat_take_drop //.
  rewrite size_take size_drop Hhalf Hsz /W_SIZE_BYTES.
  by case: ltnP => H; nat_lia.
rewrite /verifier_values Hpb bind_Ok /int_to_bytes_big.
have Hw0 := Z.mod_pos_bound (int_from_bytes_big h0) order.
have -> : ((0 <=? (w0, w1).1) && ((w0, w1).1 <? 256 ^ Z.of_nat baselen))%Z = true.
  by apply/andP; split; [apply/Z.leb_le | apply/Z.ltb_lt]; rewrite /w0 /=; lia.
by rewrite bind_Ok.
Qed.

(** C5.  [compute_session_keys] expands [Ke] with an empty salt, the info
    string "SessionKeys" and three key lengths in bits; the output is, in
    order, the initiator-to-responder key, the responder-to-initiator key and
    the attestation challenge, three consecutive slices of one key length
    each. *)
Theorem compute_session_keys_slices (Ke : bytes) (ctx : SecureSessionContext) :
  (forall key salt info bits, size (Crypto_KDF key salt info bits) = bits %/ 8) ->
  SYMMETRIC_KEY_LENGTH_BITS = 8 * SYMMETRIC_KEY_LENGTH_BYTES ->
  (forall key, size key = SYMMETRIC_KEY_LENGTH_BYTES ->
     exists c, AESCCM key AEAD_MIC_LENGTH_BYTES = Ok c) ->
  let keys :=
    Crypto_KDF Ke (Some [::]) SessionKeys (3 * SYMMETRIC_KEY_LENGTH_BITS) in
  exists ctx' c1 c2,
    [/\ compute_session_keys Ke ctx = Ok ctx',
        i2r_key ctx' ++ r2i_key ctx' ++ attestation_challenge ctx' = keys,
        [/\ size (i2r_key ctx') = SYMMETRIC_KEY_LENGTH_BYTES,
            size (r2i_key ctx') = SYMMETRIC_KEY_LENGTH_BYTES &
            size (attestation_challenge ctx') = SYMMETRIC_KEY_LENGTH_BYTES],
        i2r ctx' = Some c1 /\ AESCCM (i2r_key ctx') AEAD_MIC_LENGTH_BYTES = Ok c1 &
        r2i ctx' = Some c2 /\ AESCCM (r2i_key ctx') AEAD_MIC_LENGTH_BYTES = Ok c2].
Proof.
move=> Hkdf Hbits Haes keys.
set n := SYMMETRIC_KEY_LENGTH_BYTES.
have Hsz : size keys = 3 * n by rewrite Hkdf Hbits mulnCA mulKn.
have H1 : size (take n keys) = n.
  by rewrite size_take Hsz; case: ltnP => H //; nat_lia.
have H2 : size (slice keys n (2 * n)) = n.
  by rewrite /slice size_take size_drop Hsz; case: ltnP => H; nat_lia.
have H3 : size (slice keys (2 * n) (3 * n)) = n.
  by rewrite /slice size_take size_drop Hsz; case: ltnP => H; nat_lia.
have [c1 Hc1] := Haes _ H1.
have [c2 Hc2] := Haes _ H2.
exists {| i2r_key := take n keys; i2r := Some c1;
          r2i_key := slice keys n (2 * n); r2i := Some c2;
          attestation_challenge := slice keys (2 * n) (3 * n) |}, c1, c2.
split=> //=; first by rewrite /compute_session_keys -/keys -/n Hc1 bind_Ok Hc2 bind_Ok.
rewrite /slice.
have -> : 2 * n - n = n by nat_lia.
have -> : 3 * n - 2 * n = n by nat_lia.
have -> : 2 * n = n + n by nat_lia.
rewrite -drop_drop [take n (drop n (drop n keys))]take_oversize.
  by rewrite !size_drop Hsz; nat_lia.
by rewrite !cat_take_drop.
Qed.

(** C2.  On the verifier side, with the stored pair [(w0, L)] and the
    prover's share [pA] decoding to [X]: the scalar [y] is what
    [randbelow(order)] returns, a value of [[0, order)]; the share put into
    the PAKE2 message is the uncompressed encoding of
    [Y = y * generator + w0 * N]; and the two points that enter the
    transcript are [Z = (cofactor * y) * (X + (-(w0 * M)))] and
    [V = (cofactor * y) * L].  (That the draw is uniform is the random
    source's business.) *)
Theorem compute_verification_shares (rs : random_source) (pA : bytes)
    (pake2 : PAKE2) (context verifier : bytes) (L X : point) :
  (0 < order)%Z ->
  (forall r n, (0 < n)%Z -> (0 <= (randbelow r n).1 < n)%Z) ->
  GROUP_SIZE_BYTES <= baselen ->
  (Z.of_nat baselen < 2 ^ 64)%Z ->
  from_bytes (drop GROUP_SIZE_BYTES verifier) = Ok L ->
  from_bytes pA = Ok X ->
  fits_Q context -> fits_Q pA ->
  (forall P, fits_Q (to_bytes_uncompressed P)) ->
  let w0 := int_from_bytes_big (take GROUP_SIZE_BYTES verifier) in
  let y := (randbelow rs order).1 in
  let Y := point_add (point_mul y generator) (point_mul w0 N) in
  let Z := point_mul (cofactor * y)%Z
             (point_add X (point_neg (point_mul w0 M))) in
  let V := point_mul (cofactor * y)%Z L in
  exists tt w0b,
    [/\ (0 <= y < order)%Z,
        int_to_bytes_big w0 baselen = Ok w0b,
        Crypto_Transcript context pA (to_bytes_uncompressed Y)
          (to_bytes_uncompressed Z) (to_bytes_uncompressed V) w0b = Ok tt &
        let keys := Crypto_P2 tt pA (to_bytes_uncompressed Y) in
        compute_verification rs pA pake2 context verifier =
          Ok (keys.1.1, keys.2,
              {| pB := to_bytes_uncompressed Y; cB := keys.1.2 |},
              (randbelow rs order).2)].
Proof.
move=> Hord Hrand Hlen Hbase HL HX Hctx HpA Hpt w0 y Y Z V.
have Hw0 : (0 <= w0 < 256 ^ Z.of_nat baselen)%Z.
  have := int_from_bytes_big_bound (take GROUP_SIZE_BYTES verifier).
  rewrite -/w0 => - [H0 H1]; split=> //.
  apply: Z.lt_le_trans H1 _; apply: Z.pow_le_mono_r; first by [].
  have Hs : size (take GROUP_SIZE_BYTES verifier) <= GROUP_SIZE_BYTES.
    by rewrite size_take; case: ltnP => // /ltnW.
  by move: (leq_trans Hs Hlen) => /leP; lia.
have Hw0b : int_to_bytes_big w0 baselen = Ok (rev (le_bytes baselen w0)).
  rewrite /int_to_bytes_big.
  have -> // : ((0 <=? w0) && (w0 <? 256 ^ Z.of_nat baselen))%Z = true.
  by apply/andP; split; [apply/Z.leb_le | apply/Z.ltb_lt]; lia.
have [|Htt _] := Crypto_Transcript_flatten (context := context) (pA := pA)
    (pB := to_bytes_uncompressed Y) (Z := to_bytes_uncompressed Z)
    (V := to_bytes_uncompressed V) (w0 := rev (le_bytes baselen w0)).
  rewrite /= Hctx HpA !Hpt /= andbT.
  by rewrite /fits_Q size_rev size_le_bytes; apply/Z.ltb_lt.
eexists; exists (rev (le_bytes baselen w0)); split; [exact: Hrand | by [] | exact: Htt |].
rewrite /compute_verification HL bind_Ok /Crypto_pB.
rewrite [randbelow rs order]surjective_pairing -/w0 -/y -/Y HX bind_Ok -/Z -/V.
rewrite Hw0b bind_Ok [pB _]/= Htt bind_Ok.
by case: (Crypto_P2 _ _ _) => [[cA cB'] Ke].
Qed.

(** *** Further properties of pase.py *)

Lemma Ok_inj (A : Type) (a b : A) : Ok a = Ok b -> a = b.
Proof. by case. Qed.

Lemma cat_same_size_inj (T : Type) (s1 s2 r1 r2 : seq T) :
  size s1 = size s2 -> s1 ++ r1 = s2 ++ r2 -> s1 = s2 /\ r1 = r2.
Proof.
elim: s1 s2 => [|x s1 IH] [|y s2] //= [Hs] [-> H].
by have [-> ->] := IH _ Hs H.
Qed.

Lemma frame_cat_inj (e e' r r' : bytes) :
  fits_Q e -> fits_Q e' -> frame e ++ r = frame e' ++ r' -> e = e' /\ r = r'.
Proof.
rewrite /frame /fits_Q -!catA => /Z.ltb_lt He /Z.ltb_lt He' H.
have [Hh Ht] : le_bytes 8 (Z.of_nat (size e)) = le_bytes 8 (Z.of_nat (size e')) /\
               e ++ r = e' ++ r'.
  by apply: cat_same_size_inj H; rewrite !size_le_bytes.
have Hsz : size e = size e'.
  have K (x : nat) : (Z.of_nat x < 2 ^ 64)%Z ->
      le_int (le_bytes 8 (Z.of_nat x)) = Z.of_nat x.
    by move=> Hx; apply: le_bytesK; split; [exact: Nat2Z.is_nonneg | exact: Hx].
  by apply: Nat2Z.inj; rewrite -(K _ He) Hh K.
exact: cat_same_size_inj Hsz Ht.
Qed.

(** A concatenation of frames is read back in one way only. *)
Lemma frames_inj (es es' : seq bytes) :
  all fits_Q es -> all fits_Q es' ->
  flatten [seq frame e | e <- es] = flatten [seq frame e | e <- es'] ->
  es = es'.
Proof.
have Hcons (x : bytes) (xs : seq bytes) :
    flatten [seq frame e0 | e0 <- x :: xs] =
    frame x ++ flatten [seq frame e0 | e0 <- xs] by [].
elim: es es' => [|e es IH] [|e' es'] //; rewrite ?Hcons.
rewrite ![all _ (_ :: _)]/= => /andP [He Hes] /andP [He' Hes'] H.
have [-> Hr] := frame_cat_inj He He' H.
by rewrite (IH _ Hes Hes' Hr).
Qed.

Lemma struct_pack_into_Q_Ok (tt : bytes) (offset : nat) (n : Z) (tt' : bytes) :
  struct_pack_into_Q tt offset n = Ok tt' -> (0 <= n < 2 ^ 64)%Z.
Proof.
rewrite /struct_pack_into_Q /struct_pack_Q; case: ifP => // _.
by case E: (_ && _) => // _; apply: Zrange_true.
Qed.

(** The loop of [Crypto_Transcript] fails on an element whose length does not
    fit eight bytes. *)
Lemma transcript_fill_fits (es : seq bytes) (done rest tt : bytes) :
  size rest = sumn [seq 8 + size e | e <- es] ->
  transcript_fill es (done ++ rest) (size done) = Ok tt -> all fits_Q es.
Proof.
elim: es done rest => [|e es IH] done rest //.
rewrite [sumn _]/= transcript_fill_cons => Hrest.
case E: (struct_pack_into_Q _ _ _) => [tt1|] //.
have Hn := struct_pack_into_Q_Ok E.
have He : fits_Q e by apply/Z.ltb_lt; lia.
have H8 : 8 <= size rest by rewrite Hrest leq_addr.
set hdr := le_bytes 8 (Z.of_nat (size e)).
have -> : tt1 = done ++ hdr ++ drop 8 rest.
  by move: E; rewrite struct_pack_into_Q_cat // => - [].
rewrite bind_Ok.
have Hd : size (done ++ hdr) = size done + 8.
  by rewrite size_cat size_le_bytes.
rewrite catA -Hd slice_assign_cat -size_cat.
rewrite drop_drop [(done ++ hdr) ++ e ++ _]catA => /IH H.
rewrite [all _ _]/= He H // size_drop Hrest -!plusE -minusE.
by lia.
Qed.

(** The framing is unambiguous: two calls of [Crypto_Transcript] that return
    the same transcript were given the same six byte strings. *)
Theorem Crypto_Transcript_injective
    (context pA pB Z V w0 context' pA' pB' Z' V' w0' tt : bytes) :
  Crypto_Transcript context pA pB Z V w0 = Ok tt ->
  Crypto_Transcript context' pA' pB' Z' V' w0' = Ok tt ->
  [/\ context = context', pA = pA' & pB = pB'] /\
  [/\ Z = Z', V = V' & w0 = w0'].
Proof.
rewrite /Crypto_Transcript !foldl_total !add0n.
set es := transcript_elements context pA pB Z V w0.
set es' := transcript_elements context' pA' pB' Z' V' w0'.
rewrite -[nseq _ _]cat0s -[nseq (sumn [seq _ | e <- es']) _]cat0s => H H'.
have Hfit := transcript_fill_fits (size_nseq _ _) H.
have Hfit' := transcript_fill_fits (size_nseq _ _) H'.
move: H H'; rewrite !transcript_fill_frames ?size_nseq // cat0s => <- H'.
have Hf := Ok_inj H'.
by have [] := frames_inj Hfit' Hfit Hf; do 6![move=> ->].
Qed.

Lemma int_from_bytes_big_rev (bs : bytes) : int_from_bytes_big (rev bs) = le_int bs.
Proof.
elim: bs => [|b bs IH] //.
by rewrite rev_cons int_from_bytes_big_rcons IH le_int_cons; lia.
Qed.

(** [int.from_bytes] reads back what [to_bytes] wrote. *)
Lemma int_to_bytes_bigK (n : Z) (len : nat) (bs : bytes) :
  int_to_bytes_big n len = Ok bs -> int_from_bytes_big bs = n /\ size bs = len.
Proof.
rewrite /int_to_bytes_big; case E: (_ && _) => // - [<-].
by rewrite int_from_bytes_big_rev size_rev size_le_bytes le_bytesK //; apply: Zrange_true.
Qed.

(** The two sides derive matching values: when the prover's
    [initiator_values] returns [(w0, w1)], each on [baselen] bytes, the
    verifier's [verifier_values] for the same passcode, salt and iteration
    count returns the same [w0], and the encoding of [L = w1 * generator]
    for the number the prover's [w1] denotes. *)
Theorem verifier_values_of_initiator_values (passcode : Z) (salt : bytes)
    (iterations : Z) (w0 w1 : bytes) :
  initiator_values passcode salt iterations = Ok (w0, w1) ->
  [/\ verifier_values passcode salt iterations =
        Ok (w0, to_bytes_uncompressed
                  (point_mul (int_from_bytes_big w1) generator)),
      size w0 = baselen & size w1 = baselen].
Proof.
rewrite /initiator_values /verifier_values.
case: (_pbkdf2 _ _ _) => [[a b]|] //=.
case E0: (int_to_bytes_big a baselen) => [b0|] //=.
case E1: (int_to_bytes_big b baselen) => [b1|] //= [<- <-].
have [-> ->] := int_to_bytes_bigK E1.
by have [_ ->] := int_to_bytes_bigK E0.
Qed.

End Pase.

(** *** A small instance to run pase.py on

    Integers stand for points (one byte each on the wire), the hash keeps
    two bytes, the key derivation and PBKDF2 return constant bytes of the
    length asked for. *)
Module Toy.

Definition to_bytes (P : Z) : bytes := [:: byte_of_Z P].
Definition from_bytes (bs : bytes) : result Z := Ok (int_from_bytes_big bs).
Definition Hash (m : bytes) : bytes := take 2 (m ++ [:: x00; x00]).
Definition HMAC (k m : bytes) : bytes := k ++ m.
Definition KDF (key : bytes) (salt : option bytes) (info : bytes) (bits : nat)
  : bytes := nseq (bits %/ 8) x2a.
Definition pbkdf2 (password salt : bytes) (iterations : Z) (dklen : nat)
  : result bytes := Ok (nseq dklen x01).
Definition AESCCM (key : bytes) (tag_length : nat) : result bytes := Ok key.
Definition randbelow (r : unit) (n : Z) : Z * unit := ((5 mod n)%Z, tt).

End Toy.

Lemma Crypto_Transcript_frames_witness :
  exists tt, Crypto_Transcript Toy.to_bytes 2%Z 3%Z
               [:: x01] [:: x02; x03] [:: x04] [:: x05] [:: x06] [:: x07] = Ok tt /\
             size tt = 89.
Proof.
have [H1 H2] := @Crypto_Transcript_frames Z Toy.to_bytes 2%Z 3%Z
  [:: x01] [:: x02; x03] [:: x04] [:: x05] [:: x06] [:: x07] (erefl true).
by eexists; split; [exact: H1 | rewrite H2].
Defined.

Lemma Crypto_P2_keys_witness :
  Crypto_P2 2 16 Toy.Hash Toy.HMAC Toy.KDF [:: x01; x02; x03] [:: x0a] [:: x0b] =
  ([:: x2a; x0b], [:: x2a; x0a], [:: x02]).
Proof.
have [_ _ _ ->] := @Crypto_P2_keys 2 16 Toy.Hash Toy.HMAC Toy.KDF
  [:: x01; x02; x03] [:: x0a] [:: x0b] (erefl 2)
  (fun _ _ _ bits => size_nseq (bits %/ 8) x2a) (erefl 16).
by [].
Defined.

Lemma verifier_values_derivation_witness :
  verifier_values 0 Toy.pbkdf2 1%Z 7%Z 1 Z.mul Toy.to_bytes 20202021%Z [:: x00] 1000%Z =
  Ok ([:: x05], [:: x05]).
Proof.
have [_ _ _ ->] := @verifier_values_derivation 0 Toy.pbkdf2 Z 1%Z 7%Z 1 Z.mul
  Toy.to_bytes 20202021%Z [:: x00] 1000%Z (nseq 16 x01)
  (@Zrange_true 0 20202021 (2 ^ 32) (erefl true))
  (@Zrange_true_lt 0 7 (256 ^ 1) (erefl true))
  (erefl _) (erefl _).
by vm_compute.
Defined.

Lemma compute_session_keys_slices_witness :
  compute_session_keys 2 16 4 Toy.KDF Toy.AESCCM [:: x09]
    {| i2r_key := [::]; i2r := None; r2i_key := [::]; r2i := None;
       attestation_challenge := [::] |} =
  Ok {| i2r_key := [:: x2a; x2a]; i2r := Some [:: x2a; x2a];
        r2i_key := [:: x2a; x2a]; r2i := Some [:: x2a; x2a];
        attestation_challenge := [:: x2a; x2a] |}.
Proof.
have [ctx' [c1 [c2 [H _ _ _ _]]]] :=
  @compute_session_keys_slices 2 16 4 Toy.KDF bytes Toy.AESCCM [:: x09]
    {| i2r_key := [::]; i2r := None; r2i_key := [::]; r2i := None;
       attestation_challenge := [::] |}
    (fun _ _ _ bits => size_nseq (bits %/ 8) x2a) (erefl 16)
    (fun key _ => ex_intro _ key (erefl (Ok key))).
by [].
Defined.

Lemma compute_verification_shares_witness :
  exists cA Ke pake2,
    compute_verification 2 16 1 Toy.Hash Toy.HMAC Toy.KDF 1%Z 7%Z 1%Z 1
      Z.add Z.opp Z.mul Toy.to_bytes Toy.from_bytes 2%Z 3%Z Toy.randbelow
      tt [:: x04] {| pB := [::]; cB := [::] |} [:: x01] [:: x03; x05] =
    Ok (cA, Ke, pake2, tt) /\ pB pake2 = [:: x0e].
Proof.
have [t [w0b [_ _ _ /= H]]] :=
  @compute_verification_shares 2 16 1 Toy.Hash Toy.HMAC Toy.KDF Z 1%Z 7%Z 1%Z 1
    Z.add Z.opp Z.mul Toy.to_bytes Toy.from_bytes 2%Z 3%Z unit Toy.randbelow
    tt [:: x04] {| pB := [::]; cB := [::] |} [:: x01] [:: x03; x05] 5%Z 4%Z
    (@Zlt_true 0 7 (erefl true))
    (fun _ n Hn => Z.mod_pos_bound 5 n Hn)
    (erefl true) (@Zlt_true 1 (2 ^ 64) (erefl true)) (erefl _) (erefl _)
    (erefl true) (erefl true) (fun _ => erefl true).
by eexists; eexists; eexists; split; [exact: H | vm_compute].
Defined.

Lemma Crypto_Transcript_injective_witness :
  [/\ [:: x01] = [:: x01] :> bytes, [:: x02; x03] = [:: x02; x03] :> bytes &
      [:: x04] = [:: x04] :> bytes].
Proof.
have [tt Htt] : exists tt, Crypto_Transcript Toy.to_bytes 2%Z 3%Z
    [:: x01] [:: x02; x03] [:: x04] [:: x05] [:: x06] [:: x07] = Ok tt.
  by eexists; vm_compute.
by have [] := Crypto_Transcript_injective Htt Htt.
Defined.

Lemma verifier_values_of_initiator_values_witness :
  verifier_values 0 Toy.pbkdf2 1%Z 7%Z 1 Z.mul Toy.to_bytes 20202021%Z [:: x00] 1000%Z =
  Ok ([:: x05], [:: x05]).
Proof.
have [-> _ _] := @verifier_values_of_initiator_values 0 Toy.pbkdf2 Z 1%Z 7%Z 1 Z.mul
  Toy.to_bytes 20202021%Z [:: x00] 1000%Z [:: x05] [:: x05] (erefl _).
by vm_compute.
Defined.

(** ** rfc6979.py: the deterministic nonce generator *)

(** [n.bit_length()] *)
Definition bit_length (n : Z) : Z :=
  if (n =? 0)%Z then 0%Z else (Z.log2 (Z.abs n) + 1)%Z.

(** [bits2int]: [int(hexlify(data), 16)] is a ValueError on the empty
    string. *)
Definition bits2int (data : bytes) (qlen : Z) : result Z :=
  if data is [::] then Raise ValueError else
  let x := int_from_bytes_big data in
  let l := (Z.of_nat (size data) * 8)%Z in
  if (l >? qlen)%Z then Ok (Z.shiftr x (l - qlen)) else Ok x.

(** [generate_k] uses its [hash_func] through [hash_func().digest_size] and
    through [hmac.new(key, msg, hash_func).digest()]; feeding an HMAC object
    by [update] is feeding it the concatenation. *)
Record hash_func : Type := {
  digest_size : nat;
  hmac_digest : bytes -> bytes -> bytes
}.

Section Rfc6979.

(** [number_to_string] and [number_to_string_crop] of [cm_ecdsa/util.py],
    which is not among the sources. *)
Variables number_to_string number_to_string_crop : Z -> Z -> result bytes.

Definition bits2octets (data : bytes) (order : Z) : result bytes :=
  z1 <- bits2int data (bit_length order) ;;
  let z2 := (z1 - order)%Z in
  let z2 := if (z2 <? 0)%Z then z1 else z2 in
  number_to_string_crop z2 order.

Variable H : hash_func.
Variable order : Z.

Definition qlen : Z := bit_length order.
Definition rolen : nat := Z.to_nat ((qlen + 7) / 8).

(** Step H2: [while len(t) < rolen: v = hmac(k, v); t += v].  [None] when
    the loop is still running after [fuel] rounds. *)
Fixpoint step_H2 (fuel : nat) (k v t : bytes) : option (bytes * bytes) :=
  if size t < rolen then
    if fuel is fuel'.+1 then
      let v := hmac_digest H k v in
      step_H2 fuel' k v (t ++ v)
    else None
  else Some (v, t).

(** The last two lines of the loop of step H. *)
Definition reseed (k v : bytes) : bytes * bytes :=
  let k := hmac_digest H k (v ++ [:: x00]) in
  let v := hmac_digest H k v in
  (k, v).

Definition valid (secret : Z) : bool := ((1 <=? secret) && (secret <? order))%Z.

(** Step H: [while True: ...]. *)
Fixpoint step_H (fuel inner : nat) (k v : bytes) (retry_gen : Z)
  : option (result Z) :=
  if fuel is fuel'.+1 then
    if step_H2 inner k v [::] is Some (v, t) then
      match bits2int t qlen with
      | Raise e => Some (Raise e)
      | Ok secret =>
        if valid secret then
          if (retry_gen <=? 0)%Z then Some (Ok secret)
          else
            let retry_gen := (retry_gen - 1)%Z in
            let: (k, v) := reseed k v in
            step_H fuel' inner k v retry_gen
        else
          let: (k, v) := reseed k v in
          step_H fuel' inner k v retry_gen
      end
    else None
  else None.

(** Steps B to G: the state [(k, v)] the loop of step H starts from. *)
Definition seed (bx : bytes) : bytes * bytes :=
  let holen := digest_size H in
  let v := nseq holen x01 in
  let k := nseq holen x00 in
  let k := hmac_digest H k (v ++ [:: x00] ++ bx) in
  let v := hmac_digest H k v in
  let k := hmac_digest H k (v ++ [:: x01] ++ bx) in
  let v := hmac_digest H k v in
  (k, v).

(** [generate_k(order, secexp, hash_func, data, retry_gen, extra_entropy)];
    [None] when a loop is still running after [fuel] rounds. *)
Definition generate_k (fuel : nat) (secexp : Z) (data : bytes) (retry_gen : Z)
    (extra_entropy : bytes) : option (result Z) :=
  match number_to_string secexp order with
  | Raise e => Some (Raise e)
  | Ok bx0 =>
    match bits2octets data order with
    | Raise e => Some (Raise e)
    | Ok bx1 =>
      let bx := bx0 ++ bx1 ++ extra_entropy in
      let: (k, v) := seed bx in
      step_H fuel fuel k v retry_gen
    end
  end.

(** *** The candidate sequence

    [candidate inner i k v]: the [i]-th value of [secret] the loop of step H
    computes when it is entered with [(k, v)] and never returns. *)
Fixpoint candidate (inner : nat) (i : nat) (k v : bytes) : option (result Z) :=
  if step_H2 inner k v [::] is Some (v, t) then
    if i is j.+1 then
      let: (k, v) := reseed k v in candidate inner j k v
    else Some (bits2int t qlen)
  else None.

Definition is_valid (c : option (result Z)) : bool :=
  if c is Some (Ok secret) then valid secret else false.

(** The candidates before the [i]-th are computed without error, and [r] of
    them are valid. *)
Definition valid_before (inner : nat) (k v : bytes) (i r : nat) : Prop :=
  (forall j, j < i -> exists c, candidate inner j k v = Some (Ok c)) /\
  count (fun j => is_valid (candidate inner j k v)) (iota 0 i) = r.

Arguments candidate : simpl never.
Arguments reseed : simpl never.

(** More fuel does not change what a loop returns. *)
Lemma step_H2_fuel (f f' : nat) (k v t : bytes) (r : bytes * bytes) :
  step_H2 f k v t = Some r -> f <= f' -> step_H2 f' k v t = Some r.
Proof.
elim: f f' k v t => [|f IH] [|f'] k v t //=; case: ifP => //.
by move=> _ Hs Hf; apply: IH.
Qed.

Lemma step_H_fuel (f f' i i' : nat) (k v : bytes) (retry_gen : Z) (r : result Z) :
  step_H f i k v retry_gen = Some r -> f <= f' -> i <= i' ->
  step_H f' i' k v retry_gen = Some r.
Proof.
elim: f f' k v retry_gen => [|f IH] [|f'] k v retry_gen //=.
case E2: (step_H2 i k v [::]) => [[v1 t]|] // Hs Hf Hi.
rewrite (step_H2_fuel E2 Hi); move: Hs.
case: (bits2int t qlen) => [secret|e] //.
case: (valid secret); last by case: (reseed k v1) => k2 v2 /IH; apply.
case: (retry_gen <=? 0)%Z => //.
by case: (reseed k v1) => k2 v2 /IH; apply.
Qed.

Lemma candidateS (inner j : nat) (k v v1 t : bytes) :
  step_H2 inner k v [::] = Some (v1, t) ->
  candidate inner j.+1 k v = candidate inner j (reseed k v1).1 (reseed k v1).2.
Proof. by rewrite /candidate => ->; case: (reseed k v1). Qed.

Lemma candidate0 (inner : nat) (k v v1 t : bytes) :
  step_H2 inner k v [::] = Some (v1, t) ->
  candidate inner 0 k v = Some (bits2int t qlen).
Proof. by rewrite /candidate => ->. Qed.

Lemma candidate_None (inner i : nat) (k v : bytes) :
  step_H2 inner k v [::] = None -> candidate inner i k v = None.
Proof. by rewrite /candidate; case: i => [|i] ->. Qed.

Lemma valid_beforeS (inner i r : nat) (k v v1 t : bytes) :
  step_H2 inner k v [::] = Some (v1, t) ->
  valid_before inner k v i.+1 r <->
  exists c, [/\ bits2int t qlen = Ok c, valid c <= r &
                valid_before inner (reseed k v1).1 (reseed k v1).2 i (r - valid c)].
Proof.
move=> E2; rewrite /valid_before.
have Hc : count (fun j => is_valid (candidate inner j k v)) (iota 0 i.+1) =
          is_valid (Some (bits2int t qlen)) +
          count (fun j => is_valid (candidate inner j (reseed k v1).1 (reseed k v1).2))
                (iota 0 i).
  rewrite /= (candidate0 E2) -[1]addn0 iotaDl count_map.
  by congr (_ + _); apply: eq_count => j /=; rewrite add1n (candidateS _ E2).
rewrite Hc; split.
  case=> Hall Hcount; have [c] := Hall 0 (ltn0Sn i).
  rewrite (candidate0 E2) => - [Ec]; exists c; rewrite Ec /= in Hcount *.
  split=> //; first by rewrite -Hcount leq_addr.
  split; last by rewrite -Hcount addKn.
  by move=> j Hj; have := Hall j.+1 Hj; rewrite (candidateS _ E2).
case=> c [Ec Hle [Hall Hcount]]; split; last by rewrite Ec /= Hcount subnKC.
case=> [_|j Hj]; first by exists c; rewrite (candidate0 E2) Ec.
by rewrite (candidateS _ E2); apply: Hall.
Qed.

(** What the loop of step H returns: the candidate that has exactly
    [retry_gen] valid candidates before it and is valid itself. *)
Lemma step_H_candidate (fuel inner : nat) (k v : bytes) (r : nat) (s : Z) :
  step_H fuel inner k v (Z.of_nat r) = Some (Ok s) <->
  exists i, [/\ i < fuel, candidate inner i k v = Some (Ok s), valid s &
                valid_before inner k v i r].
Proof.
elim: fuel k v r => [|fuel IH] k v r.
  by split=> // - [i []].
rewrite [step_H _ _ _ _ _]/=.
case E2: (step_H2 inner k v [::]) => [[v1 t]|]; last first.
  by split=> // - [i []]; rewrite candidate_None.
case Ec: (bits2int t qlen) => [c|e]; last first.
  split=> // - [[|i] [_]]; first by rewrite (candidate0 E2) Ec.
  by move=> _ _ /(valid_beforeS _ _ E2) [c []]; rewrite Ec.
case Hv: (valid c).
  case: r => [|r].
    have -> : (Z.of_nat 0 <=? 0)%Z = true by [].
    split.
      case=> <-; exists 0; split=> //; first by rewrite (candidate0 E2) Ec.
    case=> - [|i] [_]; first by rewrite (candidate0 E2) Ec => - [->].
    by move=> _ _ /(valid_beforeS _ _ E2) [c' []]; rewrite Ec => - [<-]; rewrite Hv.
  have -> : (Z.of_nat r.+1 <=? 0)%Z = false by apply/Z.leb_gt; lia.
  have -> : (Z.of_nat r.+1 - 1 = Z.of_nat r)%Z by lia.
  rewrite -[hmac_digest H (hmac_digest _ _ _) v1]/((reseed k v1).2).
  rewrite -[hmac_digest H k _]/((reseed k v1).1) IH; split.
    case=> i [Hi Hci Hs Hvb]; exists i.+1; split=> //.
      by rewrite (candidateS _ E2).
    by apply/(valid_beforeS _ _ E2); exists c; rewrite Hv subn1.
  case=> - [|i] [Hi Hci Hs Hvb].
    by case: Hvb => _.
  exists i; split=> //; first by rewrite -(candidateS _ E2).
  by move/(valid_beforeS _ _ E2): Hvb => [c' []]; rewrite Ec => - [<-]; rewrite Hv subn1.
rewrite -[hmac_digest H (hmac_digest _ _ _) v1]/((reseed k v1).2).
rewrite -[hmac_digest H k _]/((reseed k v1).1) IH; split.
  case=> i [Hi Hci Hs Hvb]; exists i.+1; split=> //.
    by rewrite (candidateS _ E2).
  by apply/(valid_beforeS _ _ E2); exists c; rewrite Hv subn0.
case=> - [|i] [Hi Hci Hs Hvb].
  by move: Hci; rewrite (candidate0 E2) Ec => - [Hcs]; rewrite Hcs Hs in Hv.
exists i; split=> //; first by rewrite -(candidateS _ E2).
by move/(valid_beforeS _ _ E2): Hvb => [c' []]; rewrite Ec => - [<-]; rewrite Hv subn0.
Qed.

Lemma step_H_valid (fuel inner : nat) (k v : bytes) (retry_gen s : Z) :
  step_H fuel inner k v retry_gen = Some (Ok s) -> valid s.
Proof.
elim: fuel k v retry_gen => [|fuel IH] k v retry_gen //=.
case: (step_H2 inner k v [::]) => [[v1 t]|] //.
case: (bits2int t qlen) => [c|e] //.
case Hv: (valid c); last by case: (reseed k v1) => k2 v2 /IH.
case: (retry_gen <=? 0)%Z; first by case=> <-.
by case: (reseed k v1) => k2 v2 /IH.
Qed.

Lemma generate_k_fuel (f f' : nat) (secexp : Z) (data : bytes) (retry_gen : Z)
    (extra_entropy : bytes) (r : result Z) :
  generate_k f secexp data retry_gen extra_entropy = Some r -> f <= f' ->
  generate_k f' secexp data retry_gen extra_entropy = Some r.
Proof.
rewrite /generate_k; case: (number_to_string _ _) => [bx0|e] //.
case: (bits2octets _ _) => [bx1|e] //.
by case: (seed _) => k v Hs Hf; apply: (step_H_fuel Hs).
Qed.

(** C6, as amended.  [generate_k] is deterministic: whatever number of
    rounds the loops are given, two runs on the same arguments that return
    return the same result.  A returned scalar lies in [[1, order - 1]].  With
    [retry_gen = r] the call returns exactly the candidate of the sequence
    that is valid and has [r] valid candidates before it: the second valid
    candidate for [retry_gen = 1].  (That this differs from the scalar for
    [retry_gen = 0] is not a property of the code.) *)
Theorem generate_k_candidates (secexp : Z) (data extra_entropy : bytes) :
  (forall f1 f2 retry_gen r1 r2,
     generate_k f1 secexp data retry_gen extra_entropy = Some r1 ->
     generate_k f2 secexp data retry_gen extra_entropy = Some r2 -> r1 = r2) /\
  (forall fuel retry_gen s,
     generate_k fuel secexp data retry_gen extra_entropy = Some (Ok s) ->
     (1 <= s <= order - 1)%Z) /\
  (forall fuel r s,
     generate_k fuel secexp data (Z.of_nat r) extra_entropy = Some (Ok s) <->
     exists bx0 bx1 i,
       [/\ number_to_string secexp order = Ok bx0,
           bits2octets data order = Ok bx1,
           i < fuel &
           let kv := seed (bx0 ++ bx1 ++ extra_entropy) in
           [/\ candidate fuel i kv.1 kv.2 = Some (Ok s), valid s &
               valid_before fuel kv.1 kv.2 i r]]).
Proof.
split; [|split].
- move=> f1 f2 rg r1 r2 H1 H2.
  have := generate_k_fuel H1 (leq_maxl f1 f2).
  by rewrite (generate_k_fuel H2 (leq_maxr f1 f2)) => - [].
- move=> fuel rg s; rewrite /generate_k.
  case: (number_to_string _ _) => [bx0|e] //.
  case: (bits2octets _ _) => [bx1|e] //.
  case: (seed _) => k v /step_H_valid /andP [/Z.leb_le H1 /Z.ltb_lt H2].
  by lia.
- move=> fuel r s; rewrite /generate_k.
  case: (number_to_string _ _) => [bx0|e]; last first.
    by split=> // - [bx0 [bx1 [i []]]].
  case: (bits2octets _ _) => [bx1|e]; last first.
    by split=> // - [bx0' [bx1 [i []]]].
  rewrite [seed _]surjective_pairing step_H_candidate; split.
    by case=> i [Hi Hc Hv Hb]; exists bx0, bx1, i; split.
  by case=> bx0' [bx1' [i [[<-] [<-] Hi [Hc Hv Hb]]]]; exists i; split.
Qed.

End Rfc6979.

(** Modelled from the spec: [number_to_string] and [number_to_string_crop] of
    [cm_ecdsa/util.py], which is not among the sources ("big-endian private
    scalar (fixed width)"): the number on as many bytes as the order has. *)
Definition orderlen (order : Z) : nat := Z.to_nat ((bit_length order + 7) / 8).

Definition number_to_string (num order : Z) : result bytes :=
  int_to_bytes_big num (orderlen order).

(** A hash function whose HMAC is constant: every candidate is the same. *)
Definition constant_hash : hash_func :=
  {| digest_size := 1; hmac_digest := fun _ _ => [:: x20] |}.

(** C6, as stated, fails: with order 5 and a hash function of constant
    digest, [retry_gen = 0] and [retry_gen = 1] return the same scalar. *)
Lemma generate_k_retry_same_scalar :
  generate_k number_to_string number_to_string constant_hash 5 10 2 [:: x01] 0 [::]
    = Some (Ok 1%Z) /\
  generate_k number_to_string number_to_string constant_hash 5 10 2 [:: x01] 1 [::]
    = Some (Ok 1%Z).
Proof. by split; vm_compute. Qed.

(** *** Further properties of rfc6979.py *)

Lemma bit_length_spec (n : Z) :
  (0 < n)%Z -> (0 < bit_length n)%Z /\ (n < 2 ^ bit_length n <= 2 * n)%Z.
Proof.
move=> Hn; rewrite /bit_length.
have -> : (n =? 0)%Z = false by apply/Z.eqb_neq; lia.
have Hl := Z.log2_nonneg n.
have -> : Z.abs n = n by lia.
have [H1 H2] := Z.log2_spec n Hn.
move: H2; rewrite -Z.add_1_r Z.pow_add_r; [|by lia|by lia].
by lia.
Qed.

(** The bound on what [bits2int] returns. *)
Lemma bits2int_bound (data : bytes) (qlen x : Z) :
  (0 <= qlen)%Z -> bits2int data qlen = Ok x -> (0 <= x < 2 ^ qlen)%Z.
Proof.
move=> Hq; rewrite /bits2int.
case: data => [|b bs] //; set data := b :: bs.
have := int_from_bytes_big_bound data.
have -> : (256 ^ Z.of_nat (size data) = 2 ^ (Z.of_nat (size data) * 8))%Z.
  by rewrite Z.mul_comm Z.pow_mul_r //; lia.
have : (0 <= Z.of_nat (size data) * 8)%Z by lia.
move: (int_from_bytes_big data) (Z.of_nat (size data) * 8)%Z => x0 l Hl0 Hx0.
case: (Z.gtb_spec l qlen) => Hl [<-].
  rewrite Z.shiftr_div_pow2; first by lia.
  have Hp : (0 < 2 ^ (l - qlen))%Z by apply: Z.pow_pos_nonneg; lia.
  split; first by apply: Z.div_pos; lia.
  apply: Z.div_lt_upper_bound => //.
  have <- : (2 ^ (l - qlen + qlen) = 2 ^ (l - qlen) * 2 ^ qlen)%Z.
    by apply: Z.pow_add_r; lia.
  have -> : (l - qlen + qlen = l)%Z by lia.
  by lia.
have : (2 ^ l <= 2 ^ qlen)%Z by apply: Z.pow_le_mono_r; lia.
by lia.
Qed.

(** [bits2int] keeps at most [qlen] bits: its result is a number of
    [[0, 2^qlen)], whatever the length of the data. *)
Theorem bits2int_range (data : bytes) (qlen x : Z) :
  (0 <= qlen)%Z -> bits2int data qlen = Ok x -> (0 <= x < 2 ^ qlen)%Z.
Proof. exact: bits2int_bound. Qed.

Section Rfc6979Properties.

Variables number_to_string number_to_string_crop : Z -> Z -> result bytes.
Variable H : hash_func.

(** [bits2octets] hands [number_to_string_crop] a number below the order:
    the [qlen]-bit value of the data, less the order when it is not below
    it.  One subtraction is enough, the value being below twice the order. *)
Theorem bits2octets_reduces (data : bytes) (order : Z) :
  (0 < order)%Z -> data <> [::] ->
  exists z1 z2 : Z,
    [/\ bits2int data (bit_length order) = Ok z1,
        z2 = (if (z1 <? order)%Z then z1 else z1 - order)%Z,
        (0 <= z2 < order)%Z &
        bits2octets number_to_string_crop data order =
          number_to_string_crop z2 order].
Proof.
move=> Ho Hd; have [Hq [_ Hb]] := bit_length_spec Ho.
case E: (bits2int data (bit_length order)) => [z1|e]; last first.
  by move: E; rewrite /bits2int; case: (data) Hd => // b bs _; case: ifP.
have Hz1 : (0 <= z1 < 2 ^ bit_length order)%Z by apply: bits2int_bound E; lia.
exists z1, (if (z1 <? order)%Z then z1 else z1 - order)%Z; split=> //.
  by case: (Z.ltb_spec z1 order) => H1; lia.
rewrite /bits2octets E bind_Ok.
by case: (Z.ltb_spec z1 order) => H1; case: (Z.ltb_spec (z1 - order) 0) => H2 //; lia.
Qed.

Variable order : Z.

Lemma step_H2_size (fuel : nat) (k v t v' t' : bytes) :
  step_H2 H order fuel k v t = Some (v', t') -> rolen order <= size t'.
Proof.
elim: fuel v t => [|fuel IH] v t /=; case: ltnP => // Ht.
- by case=> _ <-.
- exact: IH.
- by case=> _ <-.
Qed.

Lemma rolen_gt0 : order <> 0%Z -> 0 < rolen order.
Proof.
move=> Ho; rewrite /rolen /qlen /bit_length.
have -> : (order =? 0)%Z = false by apply/Z.eqb_neq.
have Hl := Z.log2_nonneg (Z.abs order).
have : (1 <= (Z.log2 (Z.abs order) + 1 + 7) / 8)%Z.
  by apply: Z.div_le_lower_bound; lia.
by move=> H1; apply/ltP; lia.
Qed.

(** With a digest of at least one byte, step H2 ends within [rolen] rounds
    and leaves at least [rolen] bytes in [t]. *)
Lemma step_H2_fills (fuel : nat) (k v t : bytes) :
  (forall k v, 0 < size (hmac_digest H k v)) ->
  rolen order <= fuel + size t ->
  exists v' t', step_H2 H order fuel k v t = Some (v', t') /\
                rolen order <= size t'.
Proof.
move=> Hd; elim: fuel v t => [|fuel IH] v t /=; case: ltnP => Ht Hf.
- by [].
- by exists v, t.
- apply: IH; rewrite size_cat.
  have := Hd k v; move: Hf; rewrite -!plusE => /leP Hf /ltP Hv; apply/leP.
  by lia.
- by exists v, t.
Qed.

(** Step H2 ends: with a hash function whose HMAC digests are not empty,
    the loop that fills [t] returns within [rolen] rounds, and [t] then
    holds at least [rolen] bytes. *)
Theorem step_H2_terminates (k v : bytes) :
  (forall k v, 0 < size (hmac_digest H k v)) ->
  exists v' t',
    (forall fuel, rolen order <= fuel ->
       step_H2 H order fuel k v [::] = Some (v', t')) /\
    rolen order <= size t'.
Proof.
move=> Hd.
have [|v' [t' [E Ht]]] := @step_H2_fills (rolen order) k v [::] Hd.
  by rewrite addn0.
by exists v', t'; split=> // fuel Hf; apply: step_H2_fuel E Hf.
Qed.

Lemma step_H_no_raise (fuel inner : nat) (k v : bytes) (retry_gen : Z) (e : exn) :
  order <> 0%Z -> step_H H order fuel inner k v retry_gen <> Some (Raise e).
Proof.
move=> Ho; elim: fuel k v retry_gen => [|fuel IH] k v retry_gen //=.
case E: (step_H2 H order inner k v [::]) => [[v' t]|] //.
have Ht : 0 < size t := leq_trans (rolen_gt0 Ho) (step_H2_size E).
rewrite /bits2int; case: t Ht {E} => // b bs _.
case: ifP => _; case: ifP => _; rewrite ?[reseed _ _ _]surjective_pairing //;
  by case: ifP => // _; exact: IH.
Qed.

(** Where the errors of [generate_k] come from.  With an order other than
    zero, the loop of step H raises nothing: an exception out of
    [generate_k] is one that [number_to_string] or [bits2octets] raised.
    With the order zero, [rolen] is zero, step H2 leaves [t] empty and
    [bits2int] raises ValueError on it. *)
Theorem generate_k_errors (fuel : nat) (secexp : Z) (data : bytes)
    (retry_gen : Z) (extra_entropy : bytes) :
  (forall e, order <> 0%Z ->
     generate_k number_to_string number_to_string_crop H order fuel secexp data
       retry_gen extra_entropy = Some (Raise e) ->
     number_to_string secexp order = Raise e \/
     bits2octets number_to_string_crop data order = Raise e) /\
  (forall bx0 bx1, order = 0%Z ->
     number_to_string secexp order = Ok bx0 ->
     bits2octets number_to_string_crop data order = Ok bx1 ->
     generate_k number_to_string number_to_string_crop H order fuel.+1 secexp
       data retry_gen extra_entropy = Some (Raise ValueError)).
Proof.
split.
  move=> e Ho; rewrite /generate_k.
  case: (number_to_string _ _) => [bx0|e0]; last by case=> ->; left.
  case: (bits2octets _ _ _) => [bx1|e1]; last by case=> ->; right.
  by rewrite [seed _ _]surjective_pairing => /step_H_no_raise.
move=> bx0 bx1 Ho H0 H1; rewrite /generate_k H0 H1.
rewrite [seed _ _]surjective_pairing /=.
have -> : rolen order = 0%N by rewrite Ho.
by [].
Qed.

End Rfc6979Properties.

Lemma bits2int_range_witness : (0 <= 2 < 2 ^ 3)%Z.
Proof.
by apply: (@bits2int_range [:: x55] 3 2 (@Zle_true 0 3 (erefl true)) (erefl _)).
Defined.

Lemma bits2octets_reduces_witness :
  exists z2 : Z, (0 <= z2 < 5)%Z /\
    bits2octets number_to_string [:: xff] 5 = number_to_string z2 5.
Proof.
have Hd : [:: xff] <> [::] :> bytes by [].
have [z1 [z2 [_ _ Hz ->]]] :=
  @bits2octets_reduces number_to_string [:: xff] 5 (@Zlt_true 0 5 (erefl true)) Hd.
by exists z2.
Defined.

Lemma step_H2_terminates_witness :
  exists v' t', step_H2 constant_hash 5 1 [:: x00] [:: x01] [::] = Some (v', t').
Proof.
have [v' [t' [E _]]] :=
  @step_H2_terminates constant_hash 5 [:: x00] [:: x01] (fun _ _ => isT).
by exists v', t'; apply: E.
Defined.

Lemma generate_k_errors_witness :
  number_to_string 300 5 = Raise OverflowError \/
  bits2octets number_to_string [:: x01] 5 = Raise OverflowError.
Proof.
have Ho : 5%Z <> 0%Z by [].
have [H1 _] := @generate_k_errors number_to_string number_to_string constant_hash
  5 10 300 [:: x01] 0 [::].
exact: (H1 OverflowError Ho (erefl _)).
Defined.

(** ** numbertheory.py *)

HB.instance Definition _ := hasDecEq.Build Z Z.eqb_spec.

Section NumberTheoryCode.

Local Open Scope Z_scope.

(** [a % p] *)
Definition py_mod (a p : Z) : result Z :=
  if p =? 0 then Raise ZeroDivisionError else Ok (a mod p).

(** [s[i]] *)
Definition py_index (s : seq Z) (i : nat) : result Z :=
  if (i < size s)%N then Ok (nth 0 s i) else Raise IndexError.

(** *** Polynomials: lists of coefficients of increasing powers of x *)

(** [for i in range(2, len(polymod) + 1):
       poly[-i] = (poly[-i] - poly[-1] * polymod[-i]) % p] *)
Definition reduce_inner (poly polymod : seq Z) (p : Z) : result (seq Z) :=
  foldl (fun acc i =>
           poly <- acc ;;
           v <- py_mod (nth 0 poly (size poly - i)
                        - last 0 poly * nth 0 polymod (size polymod - i)) p ;;
           Ok (set_nth 0 poly (size poly - i) v))
        (Ok poly) (iota 2 (size polymod - 1)).

(** [while len(poly) >= len(polymod): ...; poly = poly[0:-1]], at most
    [len(poly)] times. *)
Fixpoint reduce_loop (n : nat) (poly polymod : seq Z) (p : Z) : result (seq Z) :=
  if n is n'.+1 then
    if (size polymod <= size poly)%N then
      poly <- (if last 0 poly != 0 then reduce_inner poly polymod p else Ok poly) ;;
      reduce_loop n' (take (size poly - 1) poly) polymod p
    else Ok poly
  else Ok poly.

Definition polynomial_reduce_mod (poly polymod : seq Z) (p : Z) : result (seq Z) :=
  _ <- (if polymod is [::] then Raise IndexError
        else assert (last 0 polymod == 1)) ;;
  _ <- assert (1 < size polymod)%N ;;
  reduce_loop (size poly) poly polymod p.

Definition polynomial_multiply_mod (m1 m2 polymod : seq Z) (p : Z)
  : result (seq Z) :=
  let prod := nseq (size m1 + size m2 - 1) 0 in
  prod <- foldl (fun acc i =>
            foldl (fun acc j =>
                     prod <- acc ;;
                     v <- py_mod (nth 0 prod (i + j) + nth 0 m1 i * nth 0 m2 j) p ;;
                     Ok (set_nth 0 prod (i + j) v))
                  acc (iota 0 (size m2)))
          (Ok prod) (iota 0 (size m1)) ;;
  polynomial_reduce_mod prod polymod p.

(** [while k > 1: k = k // 2; G = G * G; if k % 2 == 1: s = G * s], by
    recursion on the binary digits of [k]. *)
Fixpoint exp_loop (k : positive) (G s polymod : seq Z) (p : Z) : result (seq Z) :=
  match k with
  | xH => Ok s
  | xO k' | xI k' =>
    G <- polynomial_multiply_mod G G polymod p ;;
    s <- (if Z.pos k' mod 2 =? 1 then polynomial_multiply_mod G s polymod p
          else Ok s) ;;
    exp_loop k' G s polymod p
  end.

Definition polynomial_exp_mod (base : seq Z) (exponent : Z) (polymod : seq Z)
    (p : Z) : result (seq Z) :=
  _ <- assert (exponent <? p) ;;
  if exponent =? 0 then Ok [:: 1] else
  let G := base in
  let k := exponent in
  let s := if k mod 2 =? 1 then G else [:: 1] in
  if k is Z.pos k' then exp_loop k' G s polymod p else Ok s.

(** *** The Jacobi symbol *)

(** [while a1 % 2 == 0: a1, e = a1 // 2, e + 1], by recursion on the binary
    digits of [a1]; from 0 the loop never ends. *)
Fixpoint strip_twos_pos (q : positive) (e : Z) : positive * Z :=
  match q with
  | xO q' => strip_twos_pos q' (e + 1)
  | _ => (q, e)
  end.

Definition strip_twos (a1 e : Z) : option (Z * Z) :=
  match a1 with
  | Z0 => None
  | Z.pos q => let: (q', e') := strip_twos_pos q e in Some (Z.pos q', e')
  | Z.neg q => let: (q', e') := strip_twos_pos q e in Some (Z.neg q', e')
  end.

(** One activation of [jacobi]: it returns, or it returns [s] times the
    result of a recursive call. *)
Inductive jacobi_step : Type :=
| Return of Z
| Recurse of Z & Z & Z.

Definition jacobi_body (a n : Z) : option (result jacobi_step) :=
  if ~~ (n >=? 3) then Some (Raise JacobiError) else
  if ~~ (n mod 2 =? 1) then Some (Raise JacobiError) else
  let a := a mod n in
  if a =? 0 then Some (Ok (Return 0)) else
  if a =? 1 then Some (Ok (Return 1)) else
  if strip_twos a 0 is Some (a1, e) then
    let s := if (e mod 2 =? 0) || (n mod 8 =? 1) || (n mod 8 =? 7)
             then 1 else -1 in
    if a1 =? 1 then Some (Ok (Return s)) else
    let s := if (n mod 4 =? 3) && (a1 mod 4 =? 3) then - s else s in
    Some (Ok (Recurse s (n mod a1) a1))
  else None.

(** [jacobi(a, n)]; [None] when the recursion is deeper than [fuel]. *)
Fixpoint jacobi (fuel : nat) (a n : Z) : option (result Z) :=
  if fuel is fuel'.+1 then
    match jacobi_body a n with
    | Some (Ok (Return r)) => Some (Ok r)
    | Some (Ok (Recurse s a' n')) =>
      match jacobi fuel' a' n' with
      | Some (Ok j) => Some (Ok (s * j))
      | r => r
      end
    | Some (Raise e) => Some (Raise e)
    | None => None
    end
  else None.

(** *** Modular square roots *)

(** [pow(a, e, p)] for [e >= 0] *)
Definition pow_mod (a e p : Z) : Z := a ^ e mod p.

(** [for b in range(2, range_top): ...] of [square_root_mod_prime], over
    the list of the values of [b]. *)
Fixpoint sqrt_search (fuel : nat) (bs : seq Z) (a p : Z) : option (result Z) :=
  if bs is b :: bs' then
    match jacobi fuel (b * b - 4 * a) p with
    | Some (Ok j) =>
      if j == -1 then
        let f := [:: a; - b; 1] in
        Some (ff <- polynomial_exp_mod [:: 0; 1] ((p + 1) / 2) f p ;;
              ff1 <- py_index ff 1 ;;
              if ff1 != 0 then Raise (SquareRootError NotPrime)
              else py_index ff 0)
      else sqrt_search fuel bs' a p
    | Some (Raise e) => Some (Raise e)
    | None => None
    end
  else Some (Raise RuntimeError).

(** [range(lo, hi)] *)
Definition py_range (lo hi : Z) : seq Z :=
  [seq lo + Z.of_nat i | i <- iota 0 (Z.to_nat (hi - lo))].

Definition square_root_mod_prime (fuel : nat) (a p : Z) : option (result Z) :=
  if ~~ ((0 <=? a) && (a <? p)) then Some (Raise AssertionError) else
  if ~~ (1 <? p) then Some (Raise AssertionError) else
  if a == 0 then Some (Ok 0) else
  if p == 2 then Some (Ok a) else
  match jacobi fuel a p with
  | None => None
  | Some (Raise e) => Some (Raise e)
  | Some (Ok jac) =>
    if jac == -1 then Some (Raise (SquareRootError NoSquareRoot)) else
    if p mod 4 == 3 then Some (Ok (pow_mod a ((p + 1) / 4) p)) else
    if p mod 8 == 5 then
      let d := pow_mod a ((p - 1) / 4) p in
      if d == 1 then Some (Ok (pow_mod a ((p + 3) / 8) p)) else
      if d != p - 1 then Some (Raise AssertionError) else
      Some (Ok ((2 * a * pow_mod (4 * a) ((p - 5) / 8) p) mod p))
    else
    let range_top := p in
    sqrt_search fuel (py_range 2 range_top) a p
  end.

(** *** The modular inverse *)

(** [while low > 1: r = high // low; lm, low, hm, high = ...]; the value of
    [lm] at the exit. *)
Fixpoint inverse_mod_loop (fuel : nat) (lm low hm high : Z) : option Z :=
  if low >? 1 then
    if fuel is fuel'.+1 then
      let r := high / low in
      inverse_mod_loop fuel' (hm - lm * r) (high - low * r) lm low
    else None
  else Some lm.

Definition inverse_mod (fuel : nat) (a m : Z) : option (result Z) :=
  if a == 0 then Some (Ok 0) else
  if m == 0 then Some (Raise ZeroDivisionError) else
  let: (lm, hm) := (1, 0) in
  let: (low, high) := (a mod m, m) in
  if inverse_mod_loop fuel lm low hm high is Some lm then Some (Ok (lm mod m))
  else None.

(** *** Primality *)

Definition smallprimes : seq Z :=
  [:: 2; 3; 5; 7; 11; 13; 17; 19; 23; 29; 31; 37; 41; 43; 47; 53; 59; 61;
      67; 71; 73; 79; 83; 89; 97; 101; 103; 107; 109; 113; 127; 131; 137;
      139; 149; 151; 157; 163; 167; 173; 179; 181; 191; 193; 197; 199; 211;
      223; 227; 229; 233; 239; 241; 251; 257; 263; 269; 271; 277; 281; 283;
      293; 307; 311; 313; 317; 331; 337; 347; 349; 353; 359; 367; 373; 379;
      383; 389; 397; 401; 409; 419; 421; 431; 433; 439; 443; 449; 457; 461;
      463; 467; 479; 487; 491; 499; 503; 509; 521; 523; 541; 547; 557; 563;
      569; 571; 577; 587; 593; 599; 601; 607; 613; 617; 619; 631; 641; 643;
      647; 653; 659; 661; 673; 677; 683; 691; 701; 709; 719; 727; 733; 739;
      743; 751; 757; 761; 769; 773; 787; 797; 809; 811; 821; 823; 827; 829;
      839; 853; 857; 859; 863; 877; 881; 883; 887; 907; 911; 919; 929; 937;
      941; 947; 953; 967; 971; 977; 983; 991; 997; 1009; 1013; 1019; 1021;
      1031; 1033; 1039; 1049; 1051; 1061; 1063; 1069; 1087; 1091; 1093;
      1097; 1103; 1109; 1117; 1123; 1129; 1151; 1153; 1163; 1171; 1181;
      1187; 1193; 1201; 1213; 1217; 1223; 1229].

(** The schedule of [is_prime]: from [k] bits on, [tt] rounds. *)
Definition mr_schedule : seq (Z * nat) :=
  [:: (100, 27%N); (150, 18%N); (200, 15%N); (250, 12%N); (300, 9%N);
      (350, 8%N); (400, 7%N); (450, 6%N); (550, 5%N); (650, 4%N);
      (850, 3%N); (1300, 2%N)].

(** [for k, tt in (...): if n_bits < k: break; t = tt], with [t'] for [tt] *)
Fixpoint mr_rounds (n_bits : Z) (schedule : seq (Z * nat)) (t : nat) : nat :=
  if schedule is (k, t') :: rest then
    if n_bits <? k then t else mr_rounds n_bits rest t'
  else t.

(** [while j <= s - 1 and y != n - 1: y = pow(y, 2, n); if y == 1: return
    False; j = j + 1], with [cnt] values of [j] left: [None] for the return
    from inside the loop, the last [y] otherwise. *)
Fixpoint mr_squarings (cnt : nat) (y n : Z) : option Z :=
  if cnt is cnt'.+1 then
    if y != n - 1 then
      let y := pow_mod y 2 n in
      if y == 1 then None else mr_squarings cnt' y n
    else Some y
  else Some y.

(** One round of the test on the base [a]: [false] where the code returns
    [False]. *)
Definition mr_round (a s r n : Z) : bool :=
  let y := pow_mod a r n in
  if (y != 1) && (y != n - 1) then
    if mr_squarings (Z.to_nat (s - 1)) y n is Some y then y == n - 1
    else false
  else true.

Section IsPrime.

(** What the global name [gcd] is bound to when [is_prime] runs: the module
    neither defines nor imports it. *)
Variable gcd : option (Z -> Z -> Z).

(** [draws i] is the index [random.choice] picks at its [i]-th call. *)
Variable draws : nat -> nat.

(** [for i in range(t): ...] from round [i] on: the answer and the value
    left in [miller_rabin_test_count]. *)
Fixpoint mr_loop (t i : nat) (s r n : Z) : bool * nat :=
  if t is t'.+1 then
    let a := nth 0 smallprimes (draws i) in
    if mr_round a s r n then mr_loop t' i.+1 s r n else (false, i.+1)
  else (true, 0%N).

Definition is_prime (n : Z) : option (result (bool * nat)) :=
  if n <=? last 0 smallprimes then
    if n \in smallprimes then Some (Ok (true, 0%N)) else Some (Ok (false, 0%N))
  else
  match gcd with
  | None => Some (Raise NameError)
  | Some gcd =>
    if gcd n 2310 != 1 then Some (Ok (false, 0%N)) else
    let t := 40%N in
    let n_bits := 1 + bit_length n in
    if ~~ ((11 <=? n_bits) && (n_bits <=? 16384)) then Some (Raise AssertionError)
    else
    let t := mr_rounds n_bits mr_schedule t in
    if strip_twos (n - 1) 0 is Some (r, s) then Some (Ok (mr_loop t 0 s r n))
    else None
  end.

End IsPrime.

(** *** The next prime and the factorization *)

Section Factorization.

Variable gcd : option (Z -> Z -> Z).

(** [draws c i] is the index [random.choice] picks at its [i]-th call
    during the [c]-th call of [is_prime]. *)
Variable draws : nat -> nat -> nat.

(** [while not is_prime(result): result = result + 2], at the [c]-th call
    of [is_prime]. *)
Fixpoint next_prime_loop (fuel c : nat) (res : Z) : option (result Z) :=
  if fuel is fuel'.+1 then
    match is_prime gcd (draws c) res with
    | Some (Ok (true, _)) => Some (Ok res)
    | Some (Ok (false, _)) => next_prime_loop fuel' c.+1 (res + 2)
    | Some (Raise e) => Some (Raise e)
    | None => None
    end
  else None.

Definition next_prime (fuel : nat) (starting_value : Z) : option (result Z) :=
  if starting_value <? 2 then Some (Ok 2) else
  let res := Z.lor (starting_value + 1) 1 in
  next_prime_loop fuel 0 res.

(** The loop of [factorization] that divides a table prime [d] out of [n]:
    [while d <= n: n = q; q, r = divmod(n, d); if r != 0: break;
    count = count + 1]; the values of [n] and [count] at the exit. *)
Fixpoint table_count (fuel : nat) (d n q count : Z) : option (Z * Z) :=
  if d <=? n then
    if fuel is fuel'.+1 then
      let n := q in
      let: (q, r) := (n / d, n mod d) in
      if r != 0 then Some (n, count) else table_count fuel' d n q (count + 1)
    else None
  else Some (n, count).

(** [for d in smallprimes: if d > n: break; ...]: the values of [n] and
    [result] after the loop. *)
Fixpoint table_factors (fuel : nat) (ds : seq Z) (n : Z) (res : seq (Z * Z))
  : option (Z * seq (Z * Z)) :=
  if ds is d :: ds' then
    if d >? n then Some (n, res) else
    let: (q, r) := (n / d, n mod d) in
    if r == 0 then
      let count := 1 in
      if table_count fuel d n q count is Some (n, count) then
        table_factors fuel ds' n (rcons res (d, count))
      else None
    else table_factors fuel ds' n res
  else Some (n, res).

(** The loop of the search that divides [d] out of [n]:
    [while d <= n: q, r = divmod(n, d); if r != 0: break; n = q;
    count = count + 1]. *)
Fixpoint search_count (fuel : nat) (d n count : Z) : option (Z * Z) :=
  if d <=? n then
    if fuel is fuel'.+1 then
      let: (q, r) := (n / d, n mod d) in
      if r != 0 then Some (n, count) else search_count fuel' d q (count + 1)
    else None
  else Some (n, count).

(** [while 1: d = d + 2; q, r = divmod(n, d); if q < d: break; ...] *)
Fixpoint search_factors (fuel : nat) (d n : Z) (res : seq (Z * Z))
  : option (Z * seq (Z * Z)) :=
  if fuel is fuel'.+1 then
    let d := d + 2 in
    let: (q, r) := (n / d, n mod d) in
    if q <? d then Some (n, res) else
    if r == 0 then
      let count := 1 in
      let n := q in
      if search_count fuel d n count is Some (n, count) then
        search_factors fuel' d n (rcons res (d, count))
      else None
    else search_factors fuel' d n res
  else None.

Definition factorization (fuel : nat) (n : Z) : option (result (seq (Z * Z))) :=
  if n <? 2 then Some (Ok [::]) else
  let res := [::] in
  if table_factors fuel smallprimes n res is Some (n, res) then
    if n >? last 0 smallprimes then
      match is_prime gcd (draws 0) n with
      | Some (Ok (true, _)) => Some (Ok (rcons res (n, 1)))
      | Some (Ok (false, _)) =>
        let d := last 0 smallprimes in
        if search_factors fuel d n res is Some (n, res) then
          Some (Ok (if n >? 1 then rcons res (n, 1) else res))
        else None
      | Some (Raise e) => Some (Raise e)
      | None => None
      end
    else Some (Ok res)
  else None.

End Factorization.

End NumberTheoryCode.

(** ** The modular inverse (C8) *)

Section InverseMod.

Local Open Scope Z_scope.

Variables a m : Z.

(** What the loop of [inverse_mod] keeps true. *)
Definition inverse_inv (lm low hm high : Z) : Prop :=
  [/\ 0 <= low < high, 1 < high, Z.gcd low high = 1,
      (m | lm * a - low) & (m | hm * a - high)].

Lemma inverse_mod_loop_exit (fuel : nat) (lm low hm high : Z) :
  inverse_inv lm low hm high -> (Z.to_nat low <= fuel)%coq_nat ->
  exists2 lm', inverse_mod_loop fuel lm low hm high = Some lm' &
               (m | lm' * a - 1).
Proof.
elim: fuel lm low hm high => [|fuel IH] lm low hm high [Hlow Hhigh Hgcd Hlm Hhm] Hfuel.
  have Hl : low = 0 by lia.
  by move: Hgcd; rewrite Hl Z.gcd_0_l; lia.
rewrite /=; case: (Z.gtb_spec low 1) => Hl1; last first.
  exists lm => //; have Hl : low = 0 \/ low = 1 by lia.
  case: Hl => Hl; last by rewrite -Hl.
  by move: Hgcd; rewrite Hl Z.gcd_0_l; lia.
have Hmod : high - low * (high / low) = high mod low.
  by rewrite Z.mod_eq; lia.
apply: IH; last first.
  by rewrite Hmod; have := Z.mod_pos_bound high low; lia.
split=> //.
- by rewrite Hmod; have := Z.mod_pos_bound high low; lia.
- by rewrite Hmod Z.gcd_mod; lia.
have -> : (hm - lm * (high / low)) * a - (high - low * (high / low)) =
          (hm * a - high) - (high / low) * (lm * a - low) by lia.
by apply: Z.divide_sub_r => //; apply: Z.divide_mul_r.
Qed.

Lemma inverse_mod_loop_fuel (f f' : nat) (lm low hm high r : Z) :
  inverse_mod_loop f lm low hm high = Some r -> (f <= f')%N ->
  inverse_mod_loop f' lm low hm high = Some r.
Proof.
elim: f f' lm low hm high => [|f IH] [|f'] lm low hm high //=;
  case: (low >? 1) => //.
by move=> Hs Hf; apply: IH.
Qed.

End InverseMod.

(** C8.  For a modulus [m > 1] and [0 < a < m] coprime to [m],
    [inverse_mod(a, m)] returns (the loop ends within [m] rounds) a value
    [v] of [[0, m)] with [v * a = 1 (mod m)]; and [inverse_mod(0, m)] is 0. *)
Theorem inverse_mod_correct (a m : Z) :
  (1 < m)%Z -> (0 < a < m)%Z -> Z.gcd a m = 1%Z ->
  (exists v : Z,
     [/\ forall fuel, (Z.to_nat m <= fuel)%coq_nat ->
                      inverse_mod fuel a m = Some (Ok v),
         (0 <= v < m)%Z & ((v * a) mod m = 1)%Z]) /\
  (forall fuel, inverse_mod fuel 0%Z m = Some (Ok 0%Z)).
Proof.
move=> Hm Ha Hgcd; split; last by [].
have Hinv : inverse_inv a m 1 (a mod m) 0 m.
  rewrite Z.mod_small; first by lia.
  split=> //; first by lia.
    by rewrite Z.mul_1_l Z.sub_diag; apply: Z.divide_0_r.
  by rewrite Z.mul_0_l Z.sub_0_l; apply/Z.divide_opp_r/Z.divide_refl.
have Hfuel : (Z.to_nat (a mod m) <= Z.to_nat m)%coq_nat.
  by rewrite Z.mod_small; lia.
have [lm Hloop Hlm] := inverse_mod_loop_exit Hinv Hfuel.
exists (lm mod m)%Z; split.
- move=> fuel Hf; rewrite /inverse_mod.
  have -> : (a == 0%Z) = false by apply/eqP; lia.
  have -> : (m == 0%Z) = false by apply/eqP; lia.
  by rewrite (inverse_mod_loop_fuel Hloop (introT leP Hf)).
- by apply: Z.mod_pos_bound; lia.
rewrite Z.mul_mod_idemp_l; first by lia.
have -> : (lm * a = 1 + (lm * a - 1))%Z by lia.
case: Hlm => q ->.
by rewrite Z.mod_add ?Z.mod_small; lia.
Qed.

Lemma inverse_mod_correct_witness :
  exists v : Z, inverse_mod 7 3 7 = Some (Ok v) /\ ((v * 3) mod 7 = 1)%Z.
Proof.
have [[v [Hv _ Hinv]] _] :=
  @inverse_mod_correct 3 7 (@Zlt_true 1 7 (erefl true))
    (@Zrange_true_lt 0 3 7 (erefl true)) (erefl 1%Z).
by exists v; split; [exact: Hv | exact: Hinv].
Defined.

(** ** The Jacobi symbol: termination and range (C10) *)

Section JacobiTermination.

Local Open Scope Z_scope.

Lemma strip_twos_pos_spec (q : positive) (e : Z) :
  let: (q', e') := strip_twos_pos q e in
  [/\ Z.pos q = Z.pos q' * 2 ^ (e' - e), e <= e' & Z.pos q' mod 2 = 1].
Proof.
elim: q e => [q IH|q IH|] e; rewrite [strip_twos_pos _ _]/=.
- split; [by rewrite Z.sub_diag Z.pow_0_r Z.mul_1_r | by lia |].
  by rewrite Pos2Z.inj_xI Z.add_comm Z.mul_comm Z.mod_add.
- case: (strip_twos_pos q (e + 1)) (IH (e + 1)) => q' e' [H1 H2 H3].
  split=> //; last by lia.
  rewrite Pos2Z.inj_xO H1.
  have -> : e' - e = Z.succ (e' - (e + 1)) by lia.
  by rewrite Z.pow_succ_r; lia.
- by split; [rewrite Z.sub_diag | lia |].
Qed.

(** The loop removes the factors 2 of a positive [a]. *)
Lemma strip_twos_spec (a : Z) :
  0 < a ->
  exists a1 e, [/\ strip_twos a 0 = Some (a1, e), a = a1 * 2 ^ e, 0 <= e,
                   a1 mod 2 = 1 & 0 < a1 <= a].
Proof.
case: a => // q _; rewrite /strip_twos.
case: (strip_twos_pos q 0) (strip_twos_pos_spec q 0) => q' e'.
rewrite Z.sub_0_r => - [H1 H2 H3]; exists (Z.pos q'), e'; split=> //.
split=> //; rewrite H1.
have : 1 <= 2 ^ e' by have := Z.pow_pos_nonneg 2 e'; lia.
by have : 0 < Z.pos q' by []; nia.
Qed.

(** What one activation of [jacobi] does on an odd [n >= 3]. *)
Lemma jacobi_body_cases (a n : Z) :
  3 <= n -> n mod 2 = 1 ->
  (exists2 r, jacobi_body a n = Some (Ok (Return r)) &
              r \in [:: -1; 0; 1]) \/
  (exists s a' n', [/\ jacobi_body a n = Some (Ok (Recurse s a' n')),
                       s \in [:: -1; 1], 3 <= n' < n & n' mod 2 = 1]).
Proof.
move=> Hn Hodd; rewrite /jacobi_body.
have -> : (n >=? 3) = true by apply/Z.geb_le.
have -> /= : (n mod 2 =? 1) = true by apply/Z.eqb_eq.
have Ha := Z.mod_pos_bound a n.
case: (Z.eqb_spec (a mod n) 0) => Ha0; first by left; exists 0.
case: (Z.eqb_spec (a mod n) 1) => Ha1; first by left; exists 1.
have [|a1 [e [-> Hae He Ha1odd Ha1le]]] := @strip_twos_spec (a mod n); first by lia.
set s := if _ then 1 else -1.
have Hs : s \in [:: -1; 1] by rewrite /s; case: ifP.
case: (Z.eqb_spec a1 1) => Ha11.
  by left; exists s => //; move: Hs; rewrite !inE => /orP [] ->; rewrite ?orbT.
right; exists (if (n mod 4 =? 3) && (a1 mod 4 =? 3) then - s else s),
              (n mod a1), a1; split=> //.
- by move: Hs; rewrite !inE => /orP [] /eqP ->; case: ifP.
- have : a1 <> 2 by move=> H2; rewrite H2 in Ha1odd.
  by lia.
Qed.

Lemma jacobi_fuel (f f' : nat) (a n : Z) (r : result Z) :
  jacobi f a n = Some r -> (f <= f')%N -> jacobi f' a n = Some r.
Proof.
elim: f f' a n r => [|f IH] [|f'] a n r //=.
case: (jacobi_body a n) => [[[r0|s a' n']|e]|] //.
case E: (jacobi f a' n') => [r1|] // Hr Hf.
by rewrite (IH _ _ _ _ E Hf).
Qed.

Lemma jacobi_returns (fuel : nat) (a n : Z) :
  3 <= n -> n mod 2 = 1 -> (Z.to_nat n <= fuel)%coq_nat ->
  exists2 r, jacobi fuel a n = Some (Ok r) & r \in [:: -1; 0; 1].
Proof.
elim: fuel a n => [|fuel IH] a n Hn Hodd Hfuel; first by lia.
rewrite /=; case: (jacobi_body_cases a Hn Hodd).
  by case=> r -> Hr; exists r.
case=> s [a' [n' [-> Hs Hn' Hodd']]].
have Hn3 : 3 <= n' by lia.
have Hf' : (Z.to_nat n' <= fuel)%coq_nat by lia.
have [j -> Hj] := IH a' n' Hn3 Hodd' Hf'.
exists (s * j) => //; move: Hs Hj; rewrite !inE.
by case/orP=> /eqP ->; case/or3P=> /eqP ->.
Qed.

End JacobiTermination.

(** C10.  For every integer [a] and every odd [n >= 3]: the recursive call
    of [jacobi(a, n)], when there is one, is on a second argument that is
    odd, at least 3 and smaller than [n]; so the call returns (a recursion
    of depth [n] is enough), and what it returns is -1, 0 or 1. *)
Theorem jacobi_terminates (a n : Z) :
  (3 <= n)%Z -> (n mod 2 = 1)%Z ->
  (forall s a' n', jacobi_body a n = Some (Ok (Recurse s a' n')) ->
     (3 <= n' < n)%Z /\ (n' mod 2 = 1)%Z) /\
  (exists2 r : Z,
     forall fuel, (Z.to_nat n <= fuel)%coq_nat -> jacobi fuel a n = Some (Ok r) &
     r \in [:: (-1)%Z; 0%Z; 1%Z]).
Proof.
move=> Hn Hodd; split.
  move=> s a' n'; case: (jacobi_body_cases a Hn Hodd).
    by case=> r -> _.
  by case=> s1 [a1 [n1 [-> _ H1 H2]]] [_ _ <-].
have [r Hr Hin] := jacobi_returns a Hn Hodd (Nat.le_refl _).
exists r => // fuel Hf.
by apply: jacobi_fuel Hr _; apply/leP.
Qed.

Lemma jacobi_terminates_witness :
  jacobi 15 7 15 = Some (Ok (-1)%Z).
Proof.
have [_ [r Hr _]] := @jacobi_terminates 7 15 (@Zle_true 3 15 (erefl true)) (erefl 1%Z).
by move: (Hr 15%N (Nat.le_refl _)) => ->; have := Hr 15%N (Nat.le_refl _) => - [->].
Defined.

(** ** Primality testing (C9) *)

Section MillerRabin.

Local Open Scope Z_scope.

(** [n] passes the strong test to the base [a], where [n - 1 = r * 2^s]. *)
Definition strong_pass (s r a n : Z) : Prop :=
  a ^ r mod n = 1 \/
  exists j : nat, Z.of_nat j < s /\ a ^ (r * 2 ^ Z.of_nat j) mod n = n - 1.

(** The schedule gives fewer and fewer rounds. *)
Fixpoint decreasing_from (t : nat) (schedule : seq (Z * nat)) : bool :=
  if schedule is (k, t') :: rest then (t' <= t)%N && decreasing_from t' rest
  else true.

Lemma mr_rounds_le (n_bits : Z) (schedule : seq (Z * nat)) (t : nat) :
  decreasing_from t schedule -> (mr_rounds n_bits schedule t <= t)%N.
Proof.
elim: schedule t => [|[k t'] rest IH] t //= /andP [Ht Hrest].
by case: (n_bits <? k) => //; apply: leq_trans (IH _ Hrest) Ht.
Qed.

Lemma mr_rounds_antitone (n_bits n_bits' : Z) (schedule : seq (Z * nat)) (t : nat) :
  decreasing_from t schedule -> n_bits <= n_bits' ->
  (mr_rounds n_bits' schedule t <= mr_rounds n_bits schedule t)%N.
Proof.
elim: schedule t => [|[k t'] rest IH] t //= /andP [Ht Hrest] Hle.
case: (Z.ltb_spec n_bits k) => Hk; last first.
  have /Z.ltb_ge -> : k <= n_bits' by lia.
  exact: IH.
case: (n_bits' <? k) => //.
by apply: leq_trans (mr_rounds_le _ Hrest) Ht.
Qed.

Lemma pow_two_pow0 (y n : Z) :
  0 <= y < n -> y ^ (2 ^ Z.of_nat 0) mod n = y.
Proof.
move=> Hy; have -> : 2 ^ Z.of_nat 0 = 1 by [].
by rewrite (Z.pow_1_r y) Z.mod_small.
Qed.

Lemma mr_squarings_pass (cnt : nat) (y n : Z) :
  2 < n -> 0 <= y < n ->
  is_true (if mr_squarings cnt y n is Some y' then y' == n - 1 else false) <->
  exists2 j : nat, (j <= cnt)%N & y ^ (2 ^ Z.of_nat j) mod n = n - 1.
Proof.
move=> Hn; elim: cnt y => [|cnt IH] y Hy.
  rewrite [mr_squarings _ _ _]/=; split.
    by move/eqP=> Hy1; exists 0%N => //; rewrite pow_two_pow0.
  case=> j; rewrite leqn0 => /eqP ->.
  by rewrite pow_two_pow0 // => ->.
rewrite [mr_squarings _ _ _]/=; case: eqP => [Hy1|Hy1] /=.
  split=> [_|_]; last by apply/eqP.
  by exists 0%N => //; rewrite pow_two_pow0.
have Hsq (j : nat) : y ^ (2 ^ Z.of_nat j.+1) mod n =
                     pow_mod y 2 n ^ (2 ^ Z.of_nat j) mod n.
  rewrite /pow_mod Z.mod_pow_l -Z.pow_mul_r; try lia.
  by rewrite Nat2Z.inj_succ Z.pow_succ_r; lia.
have Hy2 := Z.mod_pos_bound (y ^ 2) n.
case: eqP => [Hone|Hone].
  split=> // - [[|j] Hj]; first by rewrite pow_two_pow0.
  have H2j : 0 <= 2 ^ Z.of_nat j by apply: Z.pow_nonneg.
  by rewrite Hsq Hone (Z.pow_1_l _ H2j) Z.mod_small; lia.
have Hy3 : 0 <= pow_mod y 2 n < n by rewrite /pow_mod; lia.
rewrite (IH _ Hy3).
split=> [[j Hj Hp]|[[|j] Hj]].
- by exists j.+1 => //; rewrite Hsq.
- by rewrite pow_two_pow0.
- by rewrite Hsq; exists j.
Qed.

Lemma mr_round_pass (a s r n : Z) :
  2 < n -> 1 <= s -> 0 <= r ->
  mr_round a s r n <-> strong_pass s r a n.
Proof.
move=> Hn Hs Hr; rewrite /mr_round /strong_pass.
have Hy := Z.mod_pos_bound (a ^ r) n.
have Hpow (j : nat) : pow_mod a r n ^ (2 ^ Z.of_nat j) mod n =
                      a ^ (r * 2 ^ Z.of_nat j) mod n.
  by rewrite /pow_mod Z.mod_pow_l -Z.pow_mul_r; lia.
case: eqP => [Hone|Hone] /=; first by split=> // _; left.
case: eqP => [Hm1|Hm1] /=.
  split=> // _; right; exists 0%N; split; first by lia.
  by have -> : 2 ^ Z.of_nat 0 = 1 by []; rewrite (Z.mul_1_r r).
have Hy3 : 0 <= pow_mod a r n < n by rewrite /pow_mod; lia.
rewrite (mr_squarings_pass _ Hn Hy3).
split=> [[j Hj Hp]|[//|[j [Hj Hp]]]].
  right; exists j; split; last by rewrite -Hpow.
  by move/leP: Hj; lia.
exists j; last by rewrite Hpow.
by apply/leP; lia.
Qed.

Variable draws : nat -> nat.

Lemma mr_loop_all (t i : nat) (s r n : Z) :
  (mr_loop draws t i s r n).1 =
  all (fun k => mr_round (nth 0 smallprimes (draws k)) s r n) (iota i t).
Proof.
elim: t i => [|t IH] i //=.
by case: (mr_round _ s r n) => //=; rewrite IH.
Qed.

Lemma prime_5 : Znumtheory.prime 5.
Proof.
apply: prime_intro => // k Hk; apply/Zgcd_1_rel_prime.
have : k = 1 \/ k = 2 \/ k = 3 \/ k = 4 by lia.
by case=> [|[|[|]]] ->.
Qed.

Lemma prime_7 : Znumtheory.prime 7.
Proof.
apply: prime_intro => // k Hk; apply/Zgcd_1_rel_prime.
have : k = 1 \/ k = 2 \/ k = 3 \/ k = 4 \/ k = 5 \/ k = 6 by lia.
by case=> [|[|[|[|[|]]]]] ->.
Qed.

Lemma prime_11 : Znumtheory.prime 11.
Proof.
apply: prime_intro => // k Hk; apply/Zgcd_1_rel_prime.
have : k = 1 \/ k = 2 \/ k = 3 \/ k = 4 \/ k = 5 \/ k = 6 \/ k = 7 \/
       k = 8 \/ k = 9 \/ k = 10 by lia.
by case=> [|[|[|[|[|[|[|[|[|]]]]]]]]] ->.
Qed.

(** The test against 2310 = 2 * 3 * 5 * 7 * 11 is trial division by these
    five primes. *)
Lemma gcd_2310 (n : Z) :
  (Z.gcd n 2310 != 1) = has (fun q => n mod q == 0) [:: 2; 3; 5; 7; 11].
Proof.
apply/idP/hasP.
  move=> Hg; apply/hasP; apply: contraR Hg => /hasPn Hq; apply/eqP.
  have Hrel (q : Z) : Znumtheory.prime q -> q \in [:: 2; 3; 5; 7; 11] -> rel_prime n q.
    move=> Hp /Hq /eqP Hmod; apply: rel_prime_sym; apply: prime_rel_prime => //.
    have Hq0 : q <> 0 by case: Hp; lia.
    by move/(Z.mod_divide _ _ Hq0).
  apply/Zgcd_1_rel_prime.
  have -> : 2310 = 2 * (3 * (5 * (7 * 11))) by [].
  do 4![apply: rel_prime_mult; first by apply: Hrel; rewrite ?inE //;
        first [exact: prime_2 | exact: prime_3 | exact: prime_5 | exact: prime_7]].
  by apply: Hrel; rewrite ?inE //; exact: prime_11.
case=> q Hq /eqP Hmod; apply/eqP=> Hg.
have Hq0 : 1 < q by move: Hq; rewrite !inE => /or4P [/eqP ->|/eqP ->|/eqP ->|/orP [] /eqP ->].
have Hqn : (q | n) by apply/Z.mod_divide => //; lia.
have Hq2310 : (q | 2310).
  by move: Hq; rewrite !inE => /or4P [/eqP ->|/eqP ->|/eqP ->|/orP [] /eqP ->];
     apply/Z.mod_divide.
have := Z.gcd_greatest _ _ _ Hqn Hq2310; rewrite Hg => /Z.divide_1_r_nonneg.
by lia.
Qed.

End MillerRabin.

(** The body of [is_prime] past the call of [gcd], were the name [gcd]
    bound to the greatest common divisor.  For [n] above the table and short
    enough for the assertion on its bit length: [is_prime(n)] first divides by
    2, 3, 5, 7 and 11 only (one
    gcd with 2310) and answers False when one of them divides [n]; otherwise
    it answers True exactly when [n] passes the strong test of Miller and
    Rabin to each of the [t] bases drawn, where [n - 1 = r * 2^s] with [r]
    odd; the bases are entries of the table of small primes; and the number
    of rounds [t] is read from the fixed schedule by the bit length of [n],
    never more for a longer number. *)
Theorem is_prime_miller_rabin (draws : nat -> nat) (n : Z) :
  (last 0 smallprimes < n)%Z -> (1 + bit_length n <= 16384)%Z ->
  (forall i, draws i < size smallprimes) ->
  let t := mr_rounds (1 + bit_length n) mr_schedule 40 in
  let base := fun i => nth 0%Z smallprimes (draws i) in
  [/\ if has (fun q => (n mod q)%Z == 0%Z) [:: 2; 3; 5; 7; 11]%Z
      then is_prime (Some Z.gcd) draws n = Some (Ok (false, 0))
      else exists s r b count,
             [/\ (n - 1 = r * 2 ^ s)%Z, (r mod 2 = 1)%Z,
                 is_prime (Some Z.gcd) draws n = Some (Ok (b, count)) &
                 b <-> forall i, i < t -> strong_pass s r (base i) n],
      forall i, base i \in smallprimes &
      forall n', (bit_length n <= bit_length n')%Z ->
        mr_rounds (1 + bit_length n') mr_schedule 40 <= t].
Proof.
move=> Hn Hbits Hdraws t base.
have Hlast : last 0%Z smallprimes = 1229%Z by [].
rewrite Hlast in Hn.
split; last 2 first.
- by move=> i; apply: mem_nth.
- by move=> n' Hn'; apply: mr_rounds_antitone => //; lia.
rewrite /is_prime Hlast.
have -> : (n <=? 1229)%Z = false by apply/Z.leb_gt.
rewrite gcd_2310; case Hscreen: (has _ _) => //.
have Hlog : (10 <= Z.log2 n)%Z.
  by have := Z.log2_le_mono 1230 n; rewrite [Z.log2 1230]/=; lia.
have Hbl : bit_length n = (Z.log2 n + 1)%Z.
  rewrite /bit_length; have -> : (n =? 0)%Z = false by apply/Z.eqb_neq; lia.
  by rewrite Z.abs_eq; lia.
have -> : ((11 <=? 1 + bit_length n) && (1 + bit_length n <=? 16384))%Z = true.
  by apply/andP; split; [apply/Z.leb_le | apply/Z.leb_le]; lia.
have [|r [s [-> Hrs Hs Hr Hrle]]] := @strip_twos_spec (n - 1)%Z; first by lia.
have Hs1 : (1 <= s)%Z.
  have Hs0 : (s = 0 \/ 1 <= s)%Z by lia.
  case: Hs0 => // Hs0; move: Hrs; rewrite Hs0 Z.mul_1_r => Hrs.
  move: (negbT Hscreen) => /hasPn /(_ 2%Z); rewrite inE eqxx => /(_ isT) /eqP.
  have -> : n = (r + 1)%Z by lia.
  by rewrite -Zplus_mod_idemp_l Hr.
exists s, r, (mr_loop draws (mr_rounds (1 + bit_length n) mr_schedule 40) 0 s r n).1,
  (mr_loop draws (mr_rounds (1 + bit_length n) mr_schedule 40) 0 s r n).2.
split=> //; first by rewrite -surjective_pairing.
rewrite mr_loop_all -/t; split.
  move/allP=> Hall i Hi; apply/mr_round_pass; try lia.
  by apply: Hall; rewrite mem_iota.
move=> Hall; apply/allP=> i; rewrite mem_iota add0n => /andP [_ Hi].
by apply/mr_round_pass; try lia; apply: Hall.
Qed.

(** C9.  The module neither defines nor imports [gcd], so as it stands
    [is_prime(n)] raises NameError for every [n] above the last entry of the
    table, at the call [gcd(n, 2310)]: no trial division is made and no round
    of Miller and Rabin is run. *)
Theorem is_prime_gcd_unbound (draws : nat -> nat) (n : Z) :
  (last 0 smallprimes < n)%Z -> is_prime None draws n = Some (Raise NameError).
Proof.
move=> Hn; rewrite /is_prime.
by have -> : (n <=? last 0 smallprimes)%Z = false by apply/Z.leb_gt.
Qed.

(** At 2047 = 23 * 89, above the table and divisible by its entry 23. *)
Lemma is_prime_gcd_unbound_witness :
  [/\ 23%Z \in smallprimes, (2047 mod 23 = 0)%Z &
      is_prime None (fun=> 0) 2047 = Some (Raise NameError)].
Proof.
split; [by vm_compute | by vm_compute |].
exact: (@is_prime_gcd_unbound (fun=> 0) 2047 (@Zlt_true 1229 2047 (erefl true))).
Defined.

Lemma is_prime_miller_rabin_witness :
  is_prime (Some Z.gcd) (fun=> 0) 2047 = Some (Ok (true, 0)) /\
  is_prime (Some Z.gcd) (fun=> 0) 2045 = Some (Ok (false, 0)).
Proof.
have [H1 _ _] := @is_prime_miller_rabin (fun=> 0) 2045
  (@Zlt_true 1229 2045 (erefl true)) (@Zle_true 12 16384 (erefl true))
  (fun=> isT).
have [H2 _ _] := @is_prime_miller_rabin (fun=> 0) 2047
  (@Zlt_true 1229 2047 (erefl true)) (@Zle_true 12 16384 (erefl true))
  (fun=> isT).
by split; [vm_compute | exact: H1].
Defined.

(** ** Further properties of numbertheory.py *)

(** *** The modular inverse on any argument *)

Section InverseModAny.

Local Open Scope Z_scope.

Variables a m g : Z.

(** What the loop of [inverse_mod] keeps true when [a] and [m] have the
    greatest common divisor [g]. *)
Definition inverse_inv_gcd (lm low hm high : Z) : Prop :=
  [/\ 0 <= low < high, 1 < high, Z.gcd low high = g,
      (m | lm * a - low) & (m | hm * a - high)].

Lemma inverse_mod_loop_exit_gcd (fuel : nat) (lm low hm high : Z) :
  inverse_inv_gcd lm low hm high -> (Z.to_nat low <= fuel)%coq_nat ->
  exists2 lm', inverse_mod_loop fuel lm low hm high = Some lm' &
               (m | lm' * a - (if g =? 1 then 1 else 0)).
Proof.
elim: fuel lm low hm high => [|fuel IH] lm low hm high [Hlow Hhigh Hgcd Hlm Hhm] Hfuel.
  have Hl : low = 0 by lia.
  move: Hgcd Hlm; rewrite Hl Z.gcd_0_l => <- Hlm; exists lm => //.
  by have -> : (Z.abs high =? 1) = false by apply/Z.eqb_neq; lia.
rewrite /=; case: (Z.gtb_spec low 1) => Hl1; last first.
  exists lm => //; have Hl : low = 0 \/ low = 1 by lia.
  case: Hl => Hl; move: Hgcd Hlm; rewrite Hl.
    rewrite Z.gcd_0_l => <-.
    by have -> : (Z.abs high =? 1) = false by apply/Z.eqb_neq; lia.
  by rewrite Z.gcd_1_l => <-.
have Hmod : high - low * (high / low) = high mod low.
  by rewrite Z.mod_eq; lia.
apply: IH; last first.
  by rewrite Hmod; have := Z.mod_pos_bound high low; lia.
split=> //.
- by rewrite Hmod; have := Z.mod_pos_bound high low; lia.
- by rewrite Hmod Z.gcd_mod; lia.
have -> : (hm - lm * (high / low)) * a - (high - low * (high / low)) =
          (hm * a - high) - (high / low) * (lm * a - low) by lia.
by apply: Z.divide_sub_r => //; apply: Z.divide_mul_r.
Qed.

End InverseModAny.

(** [inverse_mod(a, m)] returns for every integer [a] and every modulus
    [m > 0], within [m] rounds of its loop, and raises nothing.  The value
    [v] it returns lies in [[0, m)]; it is the inverse of [a] when [a] and
    [m] are coprime, and a number with [v * a = 0 (mod m)] when they are
    not: a missing inverse is not reported. *)
Theorem inverse_mod_any (a m : Z) :
  (0 < m)%Z ->
  exists v : Z,
    [/\ forall fuel, (Z.to_nat m <= fuel)%coq_nat ->
                     inverse_mod fuel a m = Some (Ok v),
        (0 <= v < m)%Z &
        ((v * a) mod m = if (Z.gcd a m =? 1)%Z then 1 mod m else 0)%Z].
Proof.
move=> Hm.
case: (Z.eq_dec a 0) => [->|Ha].
  exists 0%Z; split=> //.
  rewrite Z.mul_0_l Z.mod_0_l; first by lia.
  rewrite Z.gcd_0_l; case: (Z.eqb_spec (Z.abs m) 1) => // H1.
  by have -> : m = 1%Z by lia.
case: (Z.eq_dec m 1) => [->|Hm1].
  exists 0%Z; split=> //; last by rewrite Z.mod_1_r; case: ifP.
  move=> fuel _; rewrite /inverse_mod.
  have -> : (a == 0%Z) = false by apply/eqP.
  by rewrite Z.mod_1_r; case: fuel.
have Hb := Z.mod_pos_bound a m Hm.
have Hinv : inverse_inv_gcd a m (Z.gcd a m) 1 (a mod m) 0 m.
  split=> //; first by lia.
  - by rewrite Z.gcd_mod_l.
  - rewrite Z.mul_1_l Z.mod_eq; first by lia.
    have -> : (a - (a - m * (a / m)) = m * (a / m))%Z by lia.
    exact: Z.divide_factor_l.
  by rewrite Z.mul_0_l Z.sub_0_l; apply/Z.divide_opp_r/Z.divide_refl.
have Hfuel : (Z.to_nat (a mod m) <= Z.to_nat m)%coq_nat by lia.
have [lm Hloop Hlm] := inverse_mod_loop_exit_gcd Hinv Hfuel.
exists (lm mod m)%Z; split.
- move=> fuel Hf; rewrite /inverse_mod.
  have -> : (a == 0%Z) = false by apply/eqP.
  have -> : (m == 0%Z) = false by apply/eqP; lia.
  by rewrite (inverse_mod_loop_fuel Hloop (introT leP Hf)).
- by apply: Z.mod_pos_bound; lia.
rewrite Z.mul_mod_idemp_l; first by lia.
set c := (if _ then 1 else 0)%Z in Hlm *.
have -> : (lm * a = c + (lm * a - c))%Z by lia.
case: Hlm => q ->.
rewrite Z.mod_add; first by lia.
by rewrite /c; case: ifP => // _; rewrite Z.mod_0_l; lia.
Qed.

Lemma inverse_mod_any_witness :
  exists v : Z, inverse_mod 12 8 12 = Some (Ok v) /\ ((v * 8) mod 12 = 0)%Z.
Proof.
have [v [Hv _ Hinv]] := @inverse_mod_any 8 12 (@Zlt_true 0 12 (erefl true)).
by exists v; split; [exact: Hv | exact: Hinv].
Defined.

(** *** The Jacobi symbol and common factors *)

Section JacobiGcd.

Local Open Scope Z_scope.

Lemma odd_rel_prime_pow2 (e n : Z) :
  0 <= e -> n mod 2 = 1 -> rel_prime (2 ^ e) n.
Proof.
move=> He Hn.
have H2 : rel_prime n 2.
  apply/rel_prime_sym/Zgcd_1_rel_prime.
  have Hg := Z.gcd_nonneg 2 n.
  have Hle : Z.gcd 2 n <= 2 by apply: Z.divide_pos_le => //; apply: Z.gcd_divide_l.
  have H0 : Z.gcd 2 n <> 0 by move/Z.gcd_eq_0_l.
  suff : Z.gcd 2 n <> 2 by lia.
  move=> H; have [q Hq] := Z.gcd_divide_r 2 n.
  by move: Hn; rewrite Hq H Z.mod_mul.
apply: rel_prime_sym; move: e He; apply: natlike_ind.
  by rewrite Z.pow_0_r; apply/rel_prime_sym/rel_prime_1.
move=> e He IH; rewrite Z.pow_succ_r //.
exact: rel_prime_mult.
Qed.

(** One activation of [jacobi] keeps coprimality: an answer is 0 exactly
    when [a] and [n] have a common factor, and the recursive call is on a
    pair that is coprime exactly when [a] and [n] are. *)
Lemma jacobi_body_gcd (a n : Z) :
  match jacobi_body a n with
  | Some (Ok (Return r)) => r = 0 <-> Z.gcd a n <> 1
  | Some (Ok (Recurse s a' n')) =>
    s <> 0 /\ (Z.gcd a' n' = 1 <-> Z.gcd a n = 1)
  | _ => True
  end.
Proof.
rewrite /jacobi_body.
case E3: (n >=? 3) => //=; move/Z.geb_le: E3 => Hn.
case: (Z.eqb_spec (n mod 2) 1) => //= Hodd.
rewrite -(Z.gcd_mod_l a n).
have : 0 < n by lia.
move/(Z.mod_pos_bound a n); move: (a mod n) => b Hb.
case: (Z.eqb_spec b 0) => [->|Hb0].
  by rewrite Z.gcd_0_l; split=> // _; lia.
case: (Z.eqb_spec b 1) => [->|Hb1].
  by rewrite Z.gcd_1_l; split.
have [|a1 [e [-> Hbe He Ha1odd Ha1]]] := @strip_twos_spec b; first by lia.
set s := if _ then 1 else -1.
have Hs : s <> 0 by rewrite /s; case: ifP.
have H2e : rel_prime (2 ^ e) n by apply: odd_rel_prime_pow2.
case: (Z.eqb_spec a1 1) => Ha11.
  split=> // Hg; case: Hg; rewrite Hbe Ha11 Z.mul_1_l.
  exact/Zgcd_1_rel_prime.
split; first by case: ifP => _; lia.
rewrite Z.gcd_mod_l (Z.gcd_comm n a1) Hbe; split=> /Zgcd_1_rel_prime H1;
  apply/Zgcd_1_rel_prime.
  by apply/rel_prime_sym/rel_prime_mult; apply: rel_prime_sym.
by apply: rel_prime_div H1 _; exists (2 ^ e); lia.
Qed.

End JacobiGcd.

(** The symbol vanishes on the arguments with a common factor. *)
Lemma jacobi_zero_gcd (fuel : nat) (a n r : Z) :
  jacobi fuel a n = Some (Ok r) -> (r = 0%Z <-> Z.gcd a n <> 1%Z).
Proof.
elim: fuel a n r => [|fuel IH] a n r //=.
have := jacobi_body_gcd a n.
case: (jacobi_body a n) => [[[r0|s a' n']|e]|] //; first by move=> H [<-].
case=> Hs Hg; case E: (jacobi fuel a' n') => [[j|]|] // [<-].
have := IH _ _ _ E; rewrite -Hg => Hj.
split=> [H0|/Hj ->]; last by lia.
by apply/Hj; nia.
Qed.

(** [jacobi(a, n)] is 0 exactly when [a] and [n] have a common factor:
    whenever the call returns [r], [r = 0] if and only if [gcd(a, n)] is not
    1. *)
Theorem jacobi_zero_iff (fuel : nat) (a n r : Z) :
  jacobi fuel a n = Some (Ok r) -> (r = 0%Z <-> Z.gcd a n <> 1%Z).
Proof. exact: jacobi_zero_gcd. Qed.

Lemma jacobi_zero_iff_witness : Z.gcd 6 15 <> 1%Z.
Proof.
have H : jacobi 15 6 15 = Some (Ok 0%Z) by vm_compute.
by have [H1 _] := jacobi_zero_iff H; apply: H1.
Defined.

(** *** The table of small primes, [is_prime] on it and [next_prime] *)

Section SmallPrimes.

Local Open Scope Z_scope.

Lemma mem_py_range (lo hi d : Z) : (d \in py_range lo hi) = (lo <=? d) && (d <? hi).
Proof.
apply/mapP/andP => [[i]|[/Z.leb_le Hlo /Z.ltb_lt Hhi]].
  rewrite mem_iota add0n => /andP [_ /ltP Hi] ->.
  by split; [apply/Z.leb_le | apply/Z.ltb_lt]; lia.
exists (Z.to_nat (d - lo)); last by lia.
by rewrite mem_iota add0n; apply/andP; split=> //; apply/ltP; lia.
Qed.

(** Trial division of [n] by every number of [[2, n)]. *)
Definition trial_division (n : Z) : bool :=
  (1 <? n) && all (fun d => n mod d != 0) (py_range 2 n).

Lemma trial_divisionP (n : Z) : reflect (Znumtheory.prime n) (trial_division n).
Proof.
apply: (iffP idP) => [/andP [/Z.ltb_lt H1 /allP Hall]|/prime_alt [H1 Hd]].
  apply/prime_alt; split=> // d Hd Hdiv.
  have : d \in py_range 2 n.
    by rewrite mem_py_range; apply/andP; split; [apply/Z.leb_le | apply/Z.ltb_lt]; lia.
  by move/Hall/eqP; apply; apply/Z.mod_divide => //; lia.
apply/andP; split; first by apply/Z.ltb_lt.
apply/allP=> d; rewrite mem_py_range => /andP [/Z.leb_le H2 /Z.ltb_lt Hn].
apply/eqP=> /Z.mod_divide H0; apply: (Hd d); first by lia.
by apply: H0; lia.
Qed.

Lemma smallprimes_range : all (fun p => (2 <=? p) && (p <? 1230)) smallprimes.
Proof. by vm_compute. Qed.

Lemma smallprimes_table :
  all (fun n => (n \in smallprimes) == trial_division n) (py_range 0 1230).
Proof. by vm_compute. Qed.

End SmallPrimes.

(** The table holds the primes up to 1229, all of them and nothing else. *)
Lemma smallprimesP (n : Z) :
  reflect (Znumtheory.prime n /\ (n <= 1229)%Z) (n \in smallprimes).
Proof.
have Hin : (0 <= n < 1230)%Z -> (n \in smallprimes) = trial_division n.
  move=> H; apply/eqP/(allP smallprimes_table).
  by rewrite mem_py_range; apply/andP; split; [apply/Z.leb_le | apply/Z.ltb_lt]; lia.
apply: (iffP idP) => [Hn|[Hp Hn]].
  have /andP [/Z.leb_le H2 /Z.ltb_lt H3] := allP smallprimes_range _ Hn.
  split; last by lia.
  by apply/trial_divisionP; rewrite -Hin //; lia.
have H1 : (1 < n)%Z by case: Hp.
by rewrite Hin; [lia | apply/trial_divisionP].
Qed.

(** Up to the last entry of the table [is_prime] is exact: for [n <= 1229]
    it answers by looking [n] up, and the answer is [True] exactly when [n]
    is prime; no base is drawn and [gcd] is not called. *)
Theorem is_prime_table (gcd : option (Z -> Z -> Z)) (draws : nat -> nat) (n : Z) :
  (n <= 1229)%Z ->
  is_prime gcd draws n = Some (Ok (n \in smallprimes, 0)) /\
  (n \in smallprimes <-> Znumtheory.prime n).
Proof.
move=> Hn; split.
  rewrite /is_prime.
  have -> : (n <=? last 0 smallprimes)%Z = true by apply/Z.leb_le.
  by case: ifP.
by split=> [/smallprimesP [] //|Hp]; apply/smallprimesP.
Qed.

Lemma is_prime_table_witness :
  is_prime None (fun=> 0) 1223 = Some (Ok (true, 0)) /\ Znumtheory.prime 1223.
Proof.
have [H1 [H2 _]] := @is_prime_table None (fun=> 0) 1223 (@Zle_true 1223 1229 (erefl true)).
split; first by rewrite H1; vm_compute.
by apply: H2; vm_compute.
Defined.

Section NextPrime.

Local Open Scope Z_scope.

Variable gcd : option (Z -> Z -> Z).
Variable draws : nat -> nat -> nat.

Lemma next_prime_loop_fuel (f f' c : nat) (res : Z) (r : result Z) :
  next_prime_loop gcd draws f c res = Some r -> (f <= f')%N ->
  next_prime_loop gcd draws f' c res = Some r.
Proof.
elim: f f' c res => [|f IH] [|f'] c res //=.
case: (is_prime gcd (draws c) res) => [[[[] cnt]|e]|] // Hr Hf.
exact: IH.
Qed.

Lemma lor_1_ge (x : Z) : x <= Z.lor x 1.
Proof.
have := Z.add_lor_land x 1.
have -> : Z.land x 1 = x mod 2 by rewrite (Z.land_ones x 1).
by have := Z.mod_pos_bound x 2; lia.
Qed.

(** What [next_prime] is to return from [sv]: the first entry of the table
    above [sv]. *)
Definition next_prime_ok (sv : Z) : bool :=
  if next_prime gcd draws 12 sv is Some (Ok p) then
    [&& p \in smallprimes, sv <? p & all (fun q => (q <=? sv) || (p <=? q)) smallprimes]
  else false.

Lemma next_prime_below_table : all next_prime_ok (py_range 2 1229).
Proof. by vm_compute. Qed.

End NextPrime.

(** Below the last entry of the table [next_prime] is exact: it returns the
    smallest prime above the starting value, within twelve calls of
    [is_prime].  From the last entry on, the first candidate is above the
    table, and the call raises NameError as the module stands, [gcd] being
    bound to nothing. *)
Theorem next_prime_as_shipped (gcd : option (Z -> Z -> Z))
    (draws : nat -> nat -> nat) (starting_value : Z) :
  ((starting_value < 1229)%Z ->
   exists p : Z,
     [/\ forall fuel, 12 <= fuel ->
           next_prime gcd draws fuel starting_value = Some (Ok p),
         Znumtheory.prime p, (starting_value < p)%Z &
         forall q, Znumtheory.prime q -> (starting_value < q)%Z -> (p <= q)%Z]) /\
  ((1229 <= starting_value)%Z ->
   forall fuel, next_prime None draws fuel.+1 starting_value = Some (Raise NameError)).
Proof.
split=> Hsv.
  case: (Z.ltb_spec starting_value 2) => H2.
    exists 2%Z; split=> //.
    - by move=> fuel _; rewrite /next_prime; have -> : (starting_value <? 2)%Z = true by apply/Z.ltb_lt.
    - by apply/trial_divisionP.
    by move=> q [Hq _] _; lia.
  have Hin : starting_value \in py_range 2 1229.
    by rewrite mem_py_range; apply/andP; split; [apply/Z.leb_le | apply/Z.ltb_lt].
  have := allP (next_prime_below_table gcd draws) _ Hin; rewrite /next_prime_ok.
  case E: (next_prime gcd draws 12 starting_value) => [[p|]|] //.
  case/and3P=> /smallprimesP [Hp Hp'] /Z.ltb_lt Hlt /allP Hmin.
  exists p; split=> //.
    move=> fuel Hf; move: E; rewrite /next_prime.
    have -> : (starting_value <? 2)%Z = false by apply/Z.ltb_ge.
    by move/next_prime_loop_fuel; apply.
  move=> q Hq Hsq; case: (Z.leb_spec q 1229) => Hq'; last by lia.
  have /Hmin /orP [/Z.leb_le|/Z.leb_le] // : q \in smallprimes by apply/smallprimesP.
  by lia.
move=> fuel; rewrite /next_prime.
have -> : (starting_value <? 2)%Z = false by apply/Z.ltb_ge; lia.
rewrite /= /is_prime.
have -> // : (Z.lor (starting_value + 1) 1 <=? last 0 smallprimes)%Z = false.
by apply/Z.leb_gt; have := @lor_1_ge (starting_value + 1)%Z; rewrite [last _ _]/=; lia.
Qed.

Lemma next_prime_as_shipped_witness :
  next_prime None (fun _ _ => 0) 12 1129%Z = Some (Ok 1151%Z) /\
  next_prime None (fun _ _ => 0) 1 1229%Z = Some (Raise NameError).
Proof.
have [H1 H2] := @next_prime_as_shipped None (fun _ _ => 0) 1129%Z.
have [H3 H4] := @next_prime_as_shipped None (fun _ _ => 0) 1229%Z.
have [p [Hp _ _ _]] := H1 (@Zlt_true 1129 1229 (erefl true)).
split; last exact: (H4 (@Zle_true 1229 1229 (erefl true)) 0).
by have := Hp 12 (leqnn _); vm_compute.
Defined.

(** *** The factorization *)

(** The number a list of (prime, exponent) pairs denotes. *)
Definition factors_product (fs : seq (Z * Z)) : Z :=
  foldr (fun f acc => (f.1 ^ f.2 * acc)%Z) 1%Z fs.

Section FactorizationLoops.

Local Open Scope Z_scope.

Lemma factors_product_cat (fs gs : seq (Z * Z)) :
  factors_product (fs ++ gs) = factors_product fs * factors_product gs.
Proof. by elim: fs => [|f fs IH] /=; [case: (factors_product gs) | rewrite IH; lia]. Qed.

(** The loop that divides a table prime out: it ends, and takes every factor
    [d] out of [n]. *)
Lemma table_count_spec (fuel : nat) (d n q count : Z) :
  2 <= d -> 1 <= q -> n = d * q -> 0 <= count ->
  (Z.to_nat n <= fuel)%coq_nat ->
  exists n' count',
    [/\ table_count fuel d n q count = Some (n', count'),
        q * d ^ count = n' * d ^ count', 1 <= n' <= q, count <= count' &
        n' mod d <> 0].
Proof.
move=> Hd; elim: fuel n q count => [|fuel IH] n q count Hq Hn Hc Hf.
  have H2 : 2 <= n by nia.
  by lia.
rewrite /=; have -> : (d <=? n) = true by apply/Z.leb_le; nia.
case: (q mod d =P 0) => [H0|H0] /=; last first.
  by exists q, count; split=> //; lia.
have Hqd : q = d * (q / d) by have := Z.div_mod q d; lia.
have [|||n' [c' [-> H1 H2 H3 H4]]] := IH q (q / d) (count + 1) _ Hqd.
- by nia.
- by lia.
- by nia.
exists n', c'; split=> //; [|nia|lia].
rewrite -H1 Z.pow_add_r // Z.pow_1_r.
by rewrite [in LHS]Hqd; lia.
Qed.

(** The same for the loop of the search. *)
Lemma search_count_spec (fuel : nat) (d n count : Z) :
  2 <= d -> 1 <= n -> 0 <= count ->
  (Z.to_nat n <= fuel)%coq_nat ->
  exists n' count',
    [/\ search_count fuel d n count = Some (n', count'),
        n * d ^ count = n' * d ^ count', 1 <= n' <= n & count <= count'].
Proof.
move=> Hd; elim: fuel n count => [|fuel IH] n count Hn Hc Hf; first by lia.
rewrite /=; case: (Z.leb_spec d n) => Hdn; last first.
  by exists n, count; split=> //; lia.
case: (n mod d =P 0) => [H0|H0] /=; last first.
  by exists n, count; split=> //; lia.
have Hnd : n = d * (n / d) by have := Z.div_mod n d; lia.
have [|||n' [c' [-> H1 H2 H3]]] := IH (n / d) (count + 1).
- by nia.
- by lia.
- by nia.
exists n', c'; split=> //; [|nia|lia].
rewrite -H1 Z.pow_add_r // Z.pow_1_r.
by rewrite [in LHS]Hnd; lia.
Qed.

End FactorizationLoops.

Section FactorizationSpec.

Local Open Scope Z_scope.

Lemma Zltb_trans : transitive Z.ltb.
Proof. by move=> y x z /Z.ltb_lt H1 /Z.ltb_lt H2; apply/Z.ltb_lt; lia. Qed.

Lemma divide_mul_mod0 (d a b : Z) : 0 < d -> (d | a) -> (a * b) mod d = 0.
Proof.
move=> Hd [k ->].
have -> : k * d * b = (k * b) * d by lia.
by apply: Z.mod_mul; lia.
Qed.

(** The loop over the table: it ends; the pairs it appends are table primes
    in the order of the table, each with the number of times it divides
    [n]; and no prime of the table divides what is left of [n]. *)
Lemma table_factors_spec (fuel : nat) (ds : seq Z) (n : Z) (res : seq (Z * Z)) :
  sorted Z.ltb ds -> all (fun d => 2 <=? d) ds -> 1 <= n ->
  (Z.to_nat n <= fuel)%coq_nat ->
  exists n' new,
    [/\ table_factors fuel ds n res = Some (n', res ++ new),
        n = n' * factors_product new, 1 <= n' <= n,
        subseq [seq f.1 | f <- new] ds /\ all (fun f => 1 <=? f.2) new &
        forall d, d \in ds -> ~ (d | n')].
Proof.
elim: ds n res => [|d ds IH] n res Hs Hall Hn Hf.
  by exists n, [::]; split; rewrite ?cats0 //=; lia.
move: Hall; rewrite [all _ _]/= => /andP [/Z.leb_le Hd Hall].
have Hs' : sorted Z.ltb ds by apply: path_sorted Hs.
have Hmin : forall d', d' \in ds -> d < d'.
  by move=> d' Hd'; apply/Z.ltb_lt; apply: (allP (order_path_min Zltb_trans Hs)).
rewrite [table_factors _ _ _ _]/=; case: (Z.gtb_spec d n) => Hdn.
  exists n, [::]; split; rewrite ?cats0 //=; [lia | lia |].
  move=> d'; rewrite inE => Hd' Hdiv.
  have Hle : d' <= n by apply: Z.divide_pos_le => //; lia.
  by case/orP: Hd' => [/eqP|/Hmin]; lia.
have Hdm := Z.div_mod n d.
case: (n mod d =P 0) => [H0|H0].
  have Hq : n = d * (n / d) by lia.
  have [|||n1 [c1 [-> H1 H2 H3 H4]]] := @table_count_spec fuel d n (n / d) 1 Hd _ Hq.
  - by nia.
  - by [].
  - by [].
  have [||n' [new [-> H5 H6 [H7 H8] H9]]] := IH n1 (rcons res (d, c1)) Hs' Hall.
  - by lia.
  - by nia.
  exists n', ((d, c1) :: new); split.
  - by rewrite cat_rcons.
  - by rewrite [factors_product _]/= -/(factors_product new); move: H1; rewrite Z.pow_1_r; nia.
  - by nia.
  - split; first by rewrite /= eqxx.
    by rewrite /= H8 andbT; apply/Z.leb_le.
  move=> d'; rewrite inE => /orP [/eqP ->|/H9 //] Hdiv.
  by apply: H4; rewrite H5; apply: divide_mul_mod0 => //; lia.
have [||n' [new [-> H5 H6 [H7 H8] H9]]] := IH n res Hs' Hall.
- by [].
- by [].
exists n', new; split=> //.
  by split=> //; apply: subseq_trans H7 (subseq_cons _ _).
move=> d'; rewrite inE => /orP [/eqP ->|/H9 //] Hdiv.
by apply: H0; rewrite H5; apply: divide_mul_mod0 => //; lia.
Qed.

Lemma search_factorsS (fuel : nat) (d n : Z) (res : seq (Z * Z)) :
  search_factors fuel.+1 d n res =
  if n / (d + 2) <? d + 2 then Some (n, res) else
  if n mod (d + 2) == 0 then
    if search_count fuel.+1 (d + 2) (n / (d + 2)) 1 is Some (n, count) then
      search_factors fuel (d + 2) n (rcons res (d + 2, count))
    else None
  else search_factors fuel (d + 2) n res.
Proof. by []. Qed.

(** The search above the table: it ends before [d] passes [n]. *)
Lemma search_factors_spec (fuel : nat) (d n : Z) (res : seq (Z * Z)) :
  1 <= d -> 1 <= n -> n - d < Z.of_nat fuel -> (0 < fuel)%N ->
  exists n' new,
    [/\ search_factors fuel d n res = Some (n', res ++ new),
        n = n' * factors_product new, 1 <= n' &
        all (fun f => (2 <=? f.1) && (1 <=? f.2)) new].
Proof.
elim: fuel d n res => [|fuel IH] // d n res Hd Hn Hf _.
rewrite search_factorsS.
case: (Z.ltb_spec (n / (d + 2)) (d + 2)) => Hq.
  by exists n, [::]; split; rewrite ?cats0 //=; lia.
have Hdm := Z.div_mod n (d + 2).
have Hmb := Z.mod_pos_bound n (d + 2).
have Hfuel : (0 < fuel)%N by apply/ltP; nia.
case: (n mod (d + 2) =P 0) => [H0|H0].
  have [||||n1 [c1 [-> H1 H2 H3]]] := @search_count_spec fuel.+1 (d + 2) (n / (d + 2)) 1.
  - by lia.
  - by lia.
  - by [].
  - by nia.
  have [||||n' [new [-> H5 H6 H7]]] := IH (d + 2) n1 (rcons res (d + 2, c1)).
  - by lia.
  - by lia.
  - by nia.
  - by [].
  exists n', ((d + 2, c1) :: new); split.
  - by rewrite cat_rcons.
  - by rewrite [factors_product _]/= -/(factors_product new); move: H1; rewrite Z.pow_1_r; nia.
  - by [].
  rewrite /= H7 andbT; apply/andP.
  by split; apply/Z.leb_le; lia.
have [||||n' [new [-> H5 H6 H7]]] := IH (d + 2) n res.
- by lia.
- by [].
- by lia.
- by [].
by exists n', new.
Qed.

Lemma table_cofactor :
  all (fun n => has (fun d => n mod d == 0) smallprimes) (py_range 2 1230).
Proof. by vm_compute. Qed.

Lemma smallprimes_sorted : sorted Z.ltb smallprimes.
Proof. by vm_compute. Qed.

Lemma smallprimes_ge2 : all (fun d => 2 <=? d) smallprimes.
Proof. by vm_compute. Qed.

(** The table takes everything out of a number whose cofactor is not above
    it. *)
Lemma table_factors_smallprimes (fuel : nat) (n : Z) :
  2 <= n -> (Z.to_nat n <= fuel)%coq_nat ->
  exists n' new,
    [/\ table_factors fuel smallprimes n [::] = Some (n', new),
        n = n' * factors_product new, n' = 1 \/ 1229 < n' <= n,
        subseq [seq f.1 | f <- new] smallprimes &
        all (fun f => 1 <=? f.2) new].
Proof.
move=> Hn Hf.
have [|n' [new [H1 H2 H3 [H4 H5] H6]]] :=
  @table_factors_spec fuel smallprimes n [::] smallprimes_sorted smallprimes_ge2 _ Hf.
  by lia.
exists n', new; split=> //.
case: (Z.leb_spec n' 1) => H1'; first by left; lia.
case: (Z.ltb_spec 1229 n') => H2'; first by right; lia.
have Hin : n' \in py_range 2 1230.
  by rewrite mem_py_range; apply/andP; split; [apply/Z.leb_le | apply/Z.ltb_lt]; lia.
have /hasP [d Hd /eqP Hdiv] := allP table_cofactor _ Hin.
case: (H6 d Hd); apply/Z.mod_divide => //.
by have /Z.leb_le := allP smallprimes_ge2 _ Hd; lia.
Qed.

End FactorizationSpec.

Lemma is_prime_returns (gcd : option (Z -> Z -> Z)) (draws : nat -> nat) (n : Z) :
  (1229 < n)%Z -> is_prime gcd draws n <> None.
Proof.
move=> Hn; rewrite /is_prime.
have -> : (n <=? last 0 smallprimes)%Z = false by apply/Z.leb_gt.
case: gcd => [g|] //; case: ifP => // _; case: ifP => // _.
by have [|a1 [e [-> _ _ _ _]]] := @strip_twos_spec (n - 1)%Z; first by lia.
Qed.

Lemma factors_product1 (d c : Z) : factors_product [:: (d, c)] = (d ^ c)%Z.
Proof. by rewrite /factors_product [foldr _ _ _]/= Z.mul_1_r. Qed.

Lemma subseq_smallprimes (fs : seq (Z * Z)) (f : Z * Z) :
  subseq [seq f.1 | f <- fs] smallprimes -> f \in fs -> f.1 \in smallprimes.
Proof. by move=> /mem_subseq Hs Hf; apply: Hs; apply: map_f. Qed.

(** Whenever [factorization(n)] returns a list, for [n >= 2] and whatever
    [gcd] is bound to and [is_prime] answers, the list multiplies back to
    [n]: the product of the [prime ** exponent] is [n], every first
    component is at least 2 and every exponent at least 1.  The loops end:
    [n] rounds are enough for each. *)
Theorem factorization_product (gcd : option (Z -> Z -> Z))
    (draws : nat -> nat -> nat) (fuel : nat) (n : Z) :
  (2 <= n)%Z -> (Z.to_nat n <= fuel)%coq_nat ->
  exists r,
    factorization gcd draws fuel n = Some r /\
    forall fs, r = Ok fs ->
      factors_product fs = n /\
      all (fun f => (2 <=? f.1)%Z && (1 <=? f.2)%Z) fs.
Proof.
move=> Hn Hf; rewrite /factorization.
have -> : (n <? 2)%Z = false by apply/Z.ltb_ge.
have [n' [new [-> H2 H3 H4 H5]]] := table_factors_smallprimes Hn Hf.
have Hlast : last 0%Z smallprimes = 1229%Z by [].
have Hnew : all (fun f => (2 <=? f.1)%Z && (1 <=? f.2)%Z) new.
  apply/allP=> f Hfin; rewrite (allP H5 _ Hfin) andbT.
  exact: (allP smallprimes_ge2 _ (subseq_smallprimes H4 Hfin)).
rewrite Hlast; case: H3 => [H1|H1].
  have -> : (n' >? 1229)%Z = false by rewrite H1.
  by eexists; split=> // fs [<-]; split=> //; lia.
have -> : (n' >? 1229)%Z = true by apply/Z.gtb_lt; lia.
case E: (is_prime gcd (draws 0) n') => [[[[] cnt]|e]|].
- eexists; split=> // fs [<-].
  rewrite -cats1 factors_product_cat all_cat all_seq1 factors_product1 Z.pow_1_r Hnew.
  split; first by lia.
  by rewrite [(_, _).1]/= [(_, _).2]/= andbT; apply/Z.leb_le; lia.
- have [||||n2 [new2 [-> H6 H7 H8]]] := @search_factors_spec fuel 1229 n' new.
  + by [].
  + by lia.
  + by lia.
  + by apply/ltP; lia.
  eexists; split=> // fs [<-].
  case: (Z.gtb_spec n2 1) => Hn2.
    rewrite -cats1 !factors_product_cat !all_cat all_seq1 factors_product1 Z.pow_1_r.
    rewrite Hnew H8; split; first by nia.
    by apply/and3P; split=> //; apply/Z.leb_le; rewrite [(_, _).1]/=; lia.
  rewrite factors_product_cat all_cat Hnew H8; split=> //.
  have Hn21 : n2 = 1%Z by lia.
  by nia.
- by eexists; split.
by case: (@is_prime_returns gcd (draws 0) n'); [lia | exact: E].
Qed.

Section FactorizationPrimes.

Local Open Scope Z_scope.

(** Every number from 2 on has a prime divisor. *)
Lemma prime_divisor (n : Z) : 2 <= n -> exists p, Znumtheory.prime p /\ (p | n).
Proof.
move=> Hn; have [k Hk] : exists k : nat, n <= Z.of_nat k by exists (Z.to_nat n); lia.
elim: k n Hn Hk => [|k IH] n Hn Hk; first by lia.
case: (prime_dec n) => [Hp|Hnp]; first by exists n; split=> //; exact: Z.divide_refl.
have [|d [Hd Hdiv]] := @not_prime_divide n _ Hnp; first by lia.
have [||p [Hp Hpd]] := IH d; [lia | lia |].
by exists p; split=> //; apply: Z.divide_trans Hdiv.
Qed.

(** A prime that divides a power of a prime is that prime. *)
Lemma prime_divide_pow (p d c : Z) :
  Znumtheory.prime p -> Znumtheory.prime d -> 0 <= c -> (p | d ^ c) -> p = d.
Proof.
move=> Hp Hd Hc; rewrite -(Z2Nat.id c Hc); elim: (Z.to_nat c) => [|k IH].
  rewrite Z.pow_0_r => /(Z.divide_pos_le _ _ Z.lt_0_1).
  by case: Hp; lia.
rewrite Nat2Z.inj_succ Z.pow_succ_r; first by lia.
case/(prime_mult _ Hp) => // Hpd.
by apply: prime_div_prime.
Qed.

(** A prime that divides the number a list of pairs denotes is the first
    component of one of its pairs, when these are primes. *)
Lemma prime_divide_factors (p : Z) (fs : seq (Z * Z)) :
  Znumtheory.prime p -> (p | factors_product fs) ->
  (forall f, f \in fs -> Znumtheory.prime f.1 /\ 0 <= f.2) ->
  exists2 f, f \in fs & p = f.1.
Proof.
move=> Hp; elim: fs => [|f fs IH] /=.
  move=> /(Z.divide_pos_le _ _ Z.lt_0_1) H _.
  by case: Hp; lia.
move=> /(prime_mult _ Hp) [Hd|Hd] Hfs.
  have [Hf1 Hf2] := Hfs f (mem_head _ _).
  by exists f; rewrite ?mem_head //; apply: (prime_divide_pow Hp Hf1 Hf2 Hd).
have [|g Hg ->] := IH Hd; first by move=> g Hg; apply: Hfs; rewrite inE Hg orbT.
by exists g; rewrite // inE Hg orbT.
Qed.

(** What the loop over the table leaves of [n]: 1 when no prime above the
    table divides [n], and otherwise a number above the table. *)
Lemma table_factors_cofactor (fuel : nat) (n : Z) :
  2 <= n -> (Z.to_nat n <= fuel)%coq_nat ->
  exists n' new,
    [/\ table_factors fuel smallprimes n [::] = Some (n', new),
        n = n' * factors_product new,
        sorted Z.ltb [seq f.1 | f <- new],
        forall f, f \in new -> f.1 \in smallprimes /\ 1 <= f.2 &
        n' = 1 \/ 1229 < n' /\ exists p, [/\ Znumtheory.prime p, 1229 < p & (p | n')]].
Proof.
move=> Hn Hf.
have [|n' [new [H1 H2 H3 [H4 H5] H6]]] :=
  @table_factors_spec fuel smallprimes n [::] smallprimes_sorted smallprimes_ge2 _ Hf.
  by lia.
exists n', new; split=> //.
- exact: (@subseq_sorted _ Z.ltb Zltb_trans _ _ H4 smallprimes_sorted).
- move=> f Hfin; split; first exact: (subseq_smallprimes H4 Hfin).
  by apply/Z.leb_le; apply: (allP H5).
case: (Z.leb_spec n' 1) => H1'; first by left; lia.
right; have [|p [Hp Hpd]] := @prime_divisor n'; first by lia.
have Hp' : 1229 < p.
  case: (Z.ltb_spec 1229 p) => // Hle.
  have Hin : p \in smallprimes by apply/smallprimesP.
  by case: (H6 p Hin).
split; last by exists p.
have := Z.divide_pos_le _ _ _ Hpd; lia.
Qed.

End FactorizationPrimes.

(** As the module stands, with [gcd] bound to nothing, [factorization(n)]
    raises NameError exactly when a prime above the table divides [n]; when
    none does, it returns the prime factorization of [n]: the primes that
    divide [n] in increasing order, each with its exponent. *)
Theorem factorization_as_shipped (draws : nat -> nat -> nat) (fuel : nat) (n : Z) :
  (2 <= n)%Z -> (Z.to_nat n <= fuel)%coq_nat ->
  (factorization None draws fuel n = Some (Raise NameError) <->
   exists p, [/\ Znumtheory.prime p, (1229 < p)%Z & (p | n)%Z]) /\
  ((forall p, Znumtheory.prime p -> (p | n)%Z -> (p <= 1229)%Z) ->
   exists fs,
     [/\ factorization None draws fuel n = Some (Ok fs),
         factors_product fs = n,
         sorted Z.ltb [seq f.1 | f <- fs] &
         forall f, f \in fs -> Znumtheory.prime f.1 /\ (1 <= f.2)%Z]).
Proof.
move=> Hn Hf; rewrite /factorization.
have -> : (n <? 2)%Z = false by apply/Z.ltb_ge.
have [n' [new [-> H2 H3 H4 H5]]] := table_factors_cofactor Hn Hf.
have Hlast : last 0%Z smallprimes = 1229%Z by [].
have Hprimes : forall f, f \in new -> Znumtheory.prime f.1 /\ (1 <= f.2)%Z.
  by move=> f /H4 [/smallprimesP [Hp _] He].
rewrite Hlast; case: H5 => [H1|[H1 [p [Hp Hp' Hpd]]]].
  have -> : (n' >? 1229)%Z = false by rewrite H1.
  have Hprod : factors_product new = n by lia.
  have Hsmall : forall p, Znumtheory.prime p -> (p | n)%Z -> (p <= 1229)%Z.
    move=> p Hp; rewrite -Hprod => Hpd.
    have [|f Hfin ->] := prime_divide_factors Hp Hpd.
      by move=> f /Hprimes [H H']; split=> //; lia.
    by have [/smallprimesP []] := H4 f Hfin.
  split; last by move=> _; exists new; split.
  split=> // -[p [Hp Hp' Hpd]].
  by have := Hsmall p Hp Hpd; lia.
have -> : (n' >? 1229)%Z = true by apply/Z.gtb_lt; lia.
have -> : is_prime None (draws 0) n' = Some (Raise NameError).
  by rewrite /is_prime Hlast; have -> : (n' <=? 1229)%Z = false by apply/Z.leb_gt; lia.
have Hpn : (p | n)%Z by rewrite H2; apply: Z.divide_mul_l.
split; first by split=> // _; exists p.
by move=> /(_ p Hp Hpn); lia.
Qed.

Lemma factorization_product_witness :
  exists fs, factorization (Some Z.gcd) (fun _ _ => 0) 360 360 = Some (Ok fs) /\
             factors_product fs = 360%Z.
Proof.
have H2 : (2 <= 360)%Z by [].
have Hf : (Z.to_nat 360 <= 360)%coq_nat by apply/leP.
have [r [Hr H]] := @factorization_product (Some Z.gcd) (fun _ _ => 0) _ _ H2 Hf.
have E : factorization (Some Z.gcd) (fun _ _ => 0) 360 360 =
         Some (Ok [:: (2%Z, 3%Z); (3%Z, 2%Z); (5%Z, 1%Z)]) by vm_compute.
exists [:: (2%Z, 3%Z); (3%Z, 2%Z); (5%Z, 1%Z)]; split; first exact: E.
have Hr' : r = Ok [:: (2%Z, 3%Z); (3%Z, 2%Z); (5%Z, 1%Z)].
  by move: Hr; rewrite E => /Some_inj.
by have [] := H _ Hr'.
Defined.

Lemma factorization_as_shipped_witness :
  factorization None (fun _ _ => 0) 2462 2462 = Some (Raise NameError) /\
  exists fs, factorization None (fun _ _ => 0) 360 360 = Some (Ok fs) /\
             factors_product fs = 360%Z.
Proof.
have Hf : (Z.to_nat 2462 <= 2462)%coq_nat by apply/leP.
have Hf' : (Z.to_nat 360 <= 360)%coq_nat by apply/leP.
have [[_ H] _] := @factorization_as_shipped (fun _ _ => 0) _ _
  (@Zle_true 2 2462 (erefl true)) Hf.
have [_ H'] := @factorization_as_shipped (fun _ _ => 0) _ _
  (@Zle_true 2 360 (erefl true)) Hf'.
split.
  apply: H; exists 1231%Z; split; [by apply/trial_divisionP; vm_compute | by [] |].
  by exists 2%Z.
have [|fs [E Hfs _ _]] := H'; last by exists fs.
move=> p Hp Hpd; apply: Z.le_trans (_ : (5 <= 1229)%Z) => //.
have Hd : (p | 2 ^ 3 * (3 ^ 2 * (5 ^ 1 * 1)))%Z by [].
have P2 : Znumtheory.prime 2 by exact: prime_2.
have P3 : Znumtheory.prime 3 by exact: prime_3.
have P5 : Znumtheory.prime 5 by exact: prime_5.
case/(prime_mult _ Hp): Hd => [/(prime_divide_pow Hp P2) ->|] //.
case/(prime_mult _ Hp) => [/(prime_divide_pow Hp P3) ->|] //.
case/(prime_mult _ Hp) => [/(prime_divide_pow Hp P5) ->|] //.
by move/(Z.divide_pos_le _ _ Z.lt_0_1); case: Hp; lia.
Defined.

Lemma odd_mod2 (m : nat) : odd m = (m %% 2 == 1).
Proof. by rewrite modn2; case: (odd m). Qed.

(** * Number theory behind [jacobi] and [square_root_mod_prime] *)

Section HalfSystem.

Import GRing.Theory.

Variable n : nat.
Hypothesis n_odd : odd n.
Hypothesis n_gt1 : 1 < n.

Let h := n./2.

Lemma odd_half : n = h + h + 1.
Proof. by rewrite -[LHS]odd_double_half n_odd addnn addnC. Qed.

(** [x] falls in the upper half of the residues modulo [n]. *)
Definition hi (x : nat) : bool := h < x %% n.

(** The absolute value of the residue of [x] nearest to 0. *)
Definition absr (x : nat) : nat := if hi x then n - x %% n else x %% n.

Lemma absr_range (x : nat) : ~~ (n %| x) -> 0 < absr x <= h.
Proof.
rewrite /absr /hi /dvdn; have := ltn_pmod x (ltnW n_gt1).
move: (x %% n) odd_half => r Hn Hr Hr0.
have {}Hr0 : 0 < r by rewrite lt0n.
by case: (ltnP h r) => Hh; apply/andP; split; nat_lia.
Qed.

Local Open Scope ring_scope.

(** In a ring where [n] is 0, [x] is its nearest residue up to the sign. *)
Lemma absr_sign (R : pzRingType) (x : nat) :
  n%:R = 0 :> R -> x%:R = (-1) ^+ hi x * (absr x)%:R :> R.
Proof.
move=> Hn0.
have Hx : x%:R = (x %% n)%:R :> R.
  by rewrite {1}(divn_eq x n) natrD natrM Hn0 mulr0 add0r.
rewrite Hx /absr; case: (hi x); last by rewrite expr0 mul1r.
have Hle : (x %% n <= n)%N := ltnW (ltn_pmod x (ltnW n_gt1)).
by rewrite expr1 mulN1r (natrB _ Hle) Hn0 sub0r opprK.
Qed.

End HalfSystem.

Section GaussSign.

Import GRing.Theory.

Variable n : nat.
Hypothesis n_odd : odd n.
Hypothesis n_gt1 : 1 < n.

Let h := n./2.

Let n_def : n = h + h + 1 := odd_half n_odd.

Lemma half_lt (k : nat) : k <= h -> k < n.
Proof. by move: n_def => Hn Hk; nat_lia. Qed.

Lemma half_ndvd (k : nat) : 0 < k <= h -> ~~ (n %| k).
Proof.
by case/andP=> Hk0 Hk; rewrite gtnNdvd // half_lt.
Qed.

Lemma mul_half_ndvd (a k : nat) : coprime n a -> 0 < k <= h -> ~~ (n %| a * k).
Proof. by move=> Ha Hk; rewrite Gauss_dvdr // half_ndvd. Qed.

Local Open Scope ring_scope.

Lemma Zp_nat_eq (x y : nat) : (x%:R == y%:R :> 'Z_n) = (x == y %[mod n])%N.
Proof. by rewrite -val_eqE /= !val_Zp_nat. Qed.

Lemma Zp_nat_eq0 (x : nat) : (x%:R == 0 :> 'Z_n) = (n %| x)%N.
Proof. by rewrite -[0]/(0%:R) Zp_nat_eq mod0n. Qed.

(** A residue has one representation [± b] with [b] in the lower half. *)
Lemma half_sign_inj (s s' : bool) (b b' : nat) :
  (0 < b <= h)%N -> (0 < b' <= h)%N ->
  (-1) ^+ s * b%:R = (-1) ^+ s' * b'%:R :> 'Z_n -> s = s' /\ b = b'.
Proof.
move=> /andP [Hb0 Hb] /andP [Hb'0 Hb'].
have Hsame : b%:R = b'%:R :> 'Z_n -> b = b'.
  by move/eqP; rewrite Zp_nat_eq !modn_small ?half_lt // => /eqP.
have Hopp (c c' : nat) : (0 < c <= h)%N -> (c' <= h)%N -> - c%:R = c'%:R :> 'Z_n -> False.
  move=> /andP [Hc0 Hc] Hc' /eqP; rewrite eq_sym -addr_eq0 -natrD Zp_nat_eq0.
  rewrite gtnNdvd //; first by rewrite addn_gt0 Hc0 orbT.
  by move: n_def => Hn; nat_lia.
case: s s'=> [] []; rewrite ?expr1 ?expr0 ?mul1r ?mulN1r.
- by move/oppr_inj/Hsame.
- by move/Hopp; case; rewrite ?Hb0.
- by move/esym/Hopp; case; rewrite ?Hb'0.
- by move/Hsame.
Qed.

Lemma absr_mulP (a k : nat) :
  coprime n a -> (0 < k <= h)%N ->
  (0 < absr n (a * k) <= h)%N /\
  (a * k)%:R = (-1) ^+ hi n (a * k) * (absr n (a * k))%:R :> 'Z_n.
Proof.
move=> Ha Hk; split; first exact: absr_range (mul_half_ndvd Ha Hk).
by apply: absr_sign => //; apply: pchar_Zp.
Qed.

(** Multiplying by [a] and taking the nearest residues permutes the lower
    half. *)
Lemma absr_perm (a : nat) :
  coprime n a -> perm_eq [seq absr n (a * k)%N | k <- iota 1 h] (iota 1 h).
Proof.
move=> Ha.
have Hin (k : nat) : (k \in iota 1 h) = (0 < k <= h)%N.
  by rewrite mem_iota add1n ltnS.
have Hinj : {in iota 1 h &, injective (fun k => absr n (a * k)%N)}.
  move=> k l; rewrite !Hin => Hk Hl /= Heq.
  have [Hrk Ek] := absr_mulP Ha Hk.
  have [Hrl El] := absr_mulP Ha Hl.
  have Hu : (a%:R : 'Z_n) \is a GRing.unit by rewrite unitZpE.
  have : (-1) ^+ false * k%:R =
         (-1) ^+ (hi n (a * k) (+) hi n (a * l)) * l%:R :> 'Z_n.
    apply: (mulrI Hu).
    have -> : a%:R * ((-1) ^+ false * k%:R) = (a * k)%:R :> 'Z_n.
      by rewrite expr0 mul1r natrM.
    have -> : a%:R * ((-1) ^+ (hi n (a * k) (+) hi n (a * l)) * l%:R) =
              (-1) ^+ (hi n (a * k) (+) hi n (a * l)) * (a * l)%:R :> 'Z_n.
      by rewrite mulrCA natrM.
    rewrite Ek El signr_addb -Heq -!mulrA; congr (_ * _).
    by rewrite mulrA -expr2 sqrr_sign mul1r.
  by case/(half_sign_inj Hk Hl).
apply: uniq_perm; rewrite ?iota_uniq ?map_inj_in_uniq ?iota_uniq //.
have [] // := @uniq_min_size _ [seq absr n (a * k)%N | k <- iota 1 h] (iota 1 h).
- by rewrite map_inj_in_uniq ?iota_uniq.
- by move=> x /mapP [k Hk ->]; rewrite Hin; case: (absr_mulP Ha (etrans (esym (Hin k)) Hk)).
- by rewrite size_map.
Qed.

(** The two signs of a product. *)
Lemma hi_mul (a b k : nat) :
  coprime n a -> coprime n b -> (0 < k <= h)%N ->
  hi n (a * b * k) = hi n (b * k) (+) hi n (a * absr n (b * k)).
Proof.
move=> Ha Hb Hk.
have [Hr1 E1] := absr_mulP Hb Hk.
have [Hr2 E2] := absr_mulP Ha Hr1.
have Hab : coprime n (a * b) by rewrite coprimeMr Ha.
have [Hr3 E3] := absr_mulP Hab Hk.
have : (-1) ^+ hi n (a * b * k) * (absr n (a * b * k))%:R =
       (-1) ^+ (hi n (b * k) (+) hi n (a * absr n (b * k))) *
       (absr n (a * absr n (b * k)))%:R :> 'Z_n.
  rewrite -E3 -mulnA natrM E1 signr_addb mulrCA -mulrA -E2.
  by rewrite natrM mulrCA.
by case/(half_sign_inj Hr3 Hr2).
Qed.

(** The sign of Gauss's lemma: the parity of the number of [k] in the lower
    half with [a * k] in the upper half. *)
Definition gsign (a : nat) : bool :=
  \big[addb/false]_(k <- iota 1 h) hi n (a * k).

Lemma gsignM (a b : nat) :
  coprime n a -> coprime n b -> gsign (a * b) = gsign a (+) gsign b.
Proof.
move=> Ha Hb; rewrite /gsign.
rewrite (eq_big_seq (fun k => hi n (b * k) (+) hi n (a * absr n (b * k)))).
  by move=> k; rewrite mem_iota add1n ltnS => Hk; apply: hi_mul.
rewrite big_split /= addbC; congr (_ (+) _).
by rewrite -[RHS](perm_big _ (absr_perm Hb)) /= big_map.
Qed.

Lemma gsign_mod (a : nat) : gsign (a %% n) = gsign a.
Proof.
by rewrite /gsign; apply: eq_bigr => k _; rewrite /hi modnMml.
Qed.

Lemma gsign1 : gsign 1 = false.
Proof.
rewrite /gsign big1_seq // => k; rewrite mem_iota add1n ltnS => /andP [_ /andP [Hk0 Hk]].
by rewrite /hi mul1n modn_small ?half_lt // ltnNge Hk.
Qed.

End GaussSign.

Section GaussSignTwo.

Variable n : nat.
Hypothesis n_odd : odd n.
Hypothesis n_gt1 : 1 < n.

Let h := n./2.

Lemma addb_big_nseq (r : seq nat) (b : bool) :
  \big[addb/false]_(k <- r) b = odd (size r) && b.
Proof.
elim: r => [|x r IH]; first by rewrite big_nil.
by rewrite big_cons IH /=; case: (b); case: (odd _).
Qed.

Lemma half_split (x : nat) : x = odd x + (x./2 + x./2).
Proof. by rewrite addnn odd_double_half. Qed.

(** The second supplementary law: 2 goes to the upper half for the [k]
    above [h / 2]. *)
Lemma gsign2 : gsign n 2 = (n %% 8 == 3) || (n %% 8 == 5).
Proof.
have Hn := odd_half n_odd; rewrite -/h in Hn.
have Hc := half_split h.
have Hu := half_split h./2.
have Hb : odd h <= 1 by case: (odd h).
have Hsplit : iota 1 h = iota 1 h./2 ++ iota (1 + h./2) (h - h./2).
  by rewrite -iotaD subnKC // -divn2 leq_div.
have H1 : \big[addb/false]_(k <- iota 1 h./2) hi n (2 * k) = false.
  rewrite big1_seq // => k; rewrite mem_iota add1n ltnS /hi -/h => /andP [_ /andP [Hk0 Hk]].
  rewrite modn_small; first by nat_lia.
  by apply/negbTE; rewrite -leqNgt; nat_lia.
have H2 : \big[addb/false]_(k <- iota (1 + h./2) (h - h./2)) hi n (2 * k) =
          odd (h - h./2).
  rewrite (eq_big_seq (fun=> true)); last by rewrite addb_big_nseq size_iota andbT.
  move=> k; rewrite mem_iota /hi -/h => /andP [Hk0 Hk].
  rewrite modn_small; first by nat_lia.
  suff H : h < 2 * k by rewrite H.
  by nat_lia.
rewrite /gsign -/h Hsplit big_cat /= H1 H2 /=.
have -> : h - h./2 = odd h + h./2 by nat_lia.
have -> : n = h./2./2 * 8 + (4 * odd h./2 + 2 * odd h + 1) by nat_lia.
rewrite modnMDl oddD oddb.
by case: (odd h); case: (odd h./2).
Qed.

End GaussSignTwo.

Section Eisenstein.

Variables m n : nat.
Hypothesis m_odd : odd m.
Hypothesis n_odd : odd n.
Hypothesis n_gt1 : 1 < n.
Hypothesis co_nm : coprime n m.

Let h := n./2.

Lemma odd_absr (x : nat) : odd (x %% n) = hi n x (+) odd (absr n x).
Proof.
rewrite /absr; case: (hi n x) => //.
have Hle : x %% n <= n by apply/ltnW/ltn_pmod/ltnW.
by rewrite oddB // n_odd /=; case: (odd _).
Qed.

(** Eisenstein's form of the sign: the parity of the sum of the quotients
    [m * k / n]. *)
Lemma gsign_quotients :
  gsign n m = odd (\sum_(k <- iota 1 h) (m * k) %/ n).
Proof.
have Hk (k : nat) :
    odd k = odd ((m * k) %/ n) (+) (hi n (m * k) (+) odd (absr n (m * k))).
  have -> : odd k = odd (m * k) by rewrite oddM m_odd.
  by rewrite -odd_absr [in LHS](divn_eq (m * k) n) oddD oddM n_odd andbT.
have : \big[addb/false]_(k <- iota 1 h) odd k =
       \big[addb/false]_(k <- iota 1 h)
          (odd ((m * k) %/ n) (+) (hi n (m * k) (+) odd (absr n (m * k)))).
  by apply: eq_bigr => k _; apply: Hk.
rewrite !big_split /= -/(gsign n m).
rewrite -[in X in _ = _ (+) (_ (+) X)](big_map (fun k => absr n (m * k)) predT odd).
rewrite (perm_big _ (absr_perm n_odd n_gt1 co_nm)) /=.
rewrite (big_morph odd oddD (erefl _)).
by case: (gsign n m); case: (\big[addb/false]_(i <- _) odd _);
   case: (\big[addb/false]_(i <- _) odd _).
Qed.

End Eisenstein.

Section Reciprocity.

Lemma sum_leq_iota (H q : nat) :
  q <= H -> \sum_(l <- iota 1 H) (l <= q) = q.
Proof.
elim: H q => [|H IH] q Hq; first by rewrite big_nil; move: Hq; rewrite leqn0 => /eqP.
rewrite -[H.+1]addn1 iotaD big_cat /= big_seq1 add1n.
move: Hq; rewrite leq_eqVlt => /orP [/eqP ->|Hq].
  rewrite leqnn (eq_big_seq (fun=> 1)).
    by move=> l; rewrite mem_iota add1n ltnS => /andP [_ Hl]; rewrite (leqW Hl).
  by rewrite big_const_seq count_predT size_iota iter_addn_0 mul1n addn1.
by rewrite IH // leqNgt Hq addn0.
Qed.

Variables m n : nat.
Hypothesis m_odd : odd m.
Hypothesis n_odd : odd n.
Hypothesis m_gt1 : 1 < m.
Hypothesis n_gt1 : 1 < n.
Hypothesis co_mn : coprime m n.

(** The quotient [m * k / n] counts the [l] with [n * l < m * k]. *)
Lemma quotient_count (k : nat) :
  0 < k <= n./2 ->
  (m * k) %/ n = \sum_(l <- iota 1 m./2) (n * l < m * k).
Proof.
move=> Hk.
have Hn := odd_half n_odd.
have Hm := odd_half m_odd.
have Hq : (m * k) %/ n <= m./2.
  rewrite -ltnS ltn_divLR; first by apply: ltnW.
  case/andP: Hk => _ Hk.
  have : m * k <= m * n./2 by rewrite leq_mul2l Hk orbT.
  move=> H; apply: leq_ltn_trans H _.
  by move: (m./2) (n./2) Hm Hn => a b -> ->; nat_lia.
rewrite -[LHS](sum_leq_iota Hq); apply: eq_big_seq => l.
rewrite mem_iota add1n ltnS => Hl.
rewrite leq_divRL; first by apply: ltnW.
rewrite mulnC leq_eqVlt.
have /negbTE -> // : n * l != m * k.
apply/eqP=> E.
have : ~~ (n %| m * k) by apply: mul_half_ndvd => //; rewrite coprime_sym.
by rewrite -E dvdn_mulr.
Qed.

End Reciprocity.

Section ReciprocityLaw.

Variables m n : nat.
Hypothesis m_odd : odd m.
Hypothesis n_odd : odd n.
Hypothesis m_gt1 : 1 < m.
Hypothesis n_gt1 : 1 < n.
Hypothesis co_mn : coprime m n.

Let co_nm : coprime n m. Proof. by rewrite coprime_sym. Qed.

(** The quotients on the two sides count the points of a rectangle below
    and above its diagonal. *)
Lemma lattice_count :
  \sum_(k <- iota 1 n./2) (m * k) %/ n + \sum_(l <- iota 1 m./2) (n * l) %/ m =
  m./2 * n./2.
Proof.
have Hin (H k : nat) : (k \in iota 1 H) = (0 < k <= H) by rewrite mem_iota add1n ltnS.
rewrite (eq_big_seq (fun k => \sum_(l <- iota 1 m./2) (n * l < m * k))).
  by move=> k; rewrite Hin => Hk; apply: quotient_count.
rewrite [X in _ + X](eq_big_seq (fun l => \sum_(k <- iota 1 n./2) (m * k < n * l))).
  by move=> l; rewrite Hin => Hl; apply: quotient_count.
rewrite [X in _ + X]exchange_big /= -big_split /=.
rewrite (eq_big_seq (fun=> m./2)).
  move=> k; rewrite Hin => Hk; rewrite -big_split /=.
  rewrite (eq_big_seq (fun=> 1)).
    move=> l; rewrite Hin => Hl.
    have : n * l != m * k.
      apply/eqP=> E.
      have : ~~ (n %| m * k) by apply: mul_half_ndvd.
      by rewrite -E dvdn_mulr.
    by case: ltngtP.
  by rewrite big_const_seq count_predT size_iota iter_addn_0 mul1n.
by rewrite big_const_seq count_predT size_iota iter_addn_0.
Qed.

(** The law of quadratic reciprocity for the sign of Gauss's lemma. *)
Lemma gsign_reciprocity :
  gsign n m (+) gsign m n = odd m./2 && odd n./2.
Proof.
rewrite (gsign_quotients m_odd n_odd n_gt1 co_nm).
rewrite (gsign_quotients n_odd m_odd m_gt1 co_mn).
by rewrite -oddD lattice_count oddM.
Qed.

End ReciprocityLaw.

Section Legendre.

Import GRing.Theory.

Variable p : nat.
Hypothesis p_prime : prime p.
Hypothesis p_odd : odd p.

Let h := p./2.
Let p_gt1 : 1 < p := prime_gt1 p_prime.

Lemma half_gt0 : 0 < h.
Proof.
have := odd_half p_odd; rewrite -/h; case: h => // Hp.
by move: p_gt1; rewrite Hp.
Qed.

Lemma half_double : h + h = p.-1.
Proof. by rewrite [in RHS](odd_half p_odd) addn1. Qed.

Local Open Scope ring_scope.

Lemma Fp_nat_eq (x y : nat) : (x%:R == y%:R :> 'F_p) = (x == y %[mod p])%N.
Proof. by rewrite -val_eqE /= !val_Fp_nat. Qed.

Lemma Fp_nat_eq0 (x : nat) : (x%:R == 0 :> 'F_p) = (p %| x)%N.
Proof. by rewrite -[0]/(0%:R) Fp_nat_eq mod0n. Qed.

Lemma Fp_coprime_neq0 (a : nat) : coprime p a -> a%:R != 0 :> 'F_p.
Proof.
move=> Ha; rewrite Fp_nat_eq0; apply/negP=> Hd.
by move: Ha; rewrite /coprime (gcdn_idPl Hd) => /eqP Hp; move: p_gt1; rewrite Hp.
Qed.

(** Fermat's little theorem in the field. *)
Lemma Fp_fermat (x : 'F_p) : x != 0 -> x ^+ (h + h) = 1.
Proof.
move=> Hx; apply: (mulfI Hx); rewrite mulr1 -exprS half_double prednK ?prime_gt0 //.
by rewrite -[in X in _ ^+ X](card_Fp p_prime) expf_card.
Qed.

Lemma prod_sign (r : seq nat) (F : nat -> bool) :
  \prod_(k <- r) (-1) ^+ F k = (-1) ^+ (\big[addb/false]_(k <- r) F k) :> 'F_p.
Proof.
elim: r => [|k r IH]; first by rewrite !big_nil expr0.
by rewrite !big_cons IH signr_addb.
Qed.

(** Gauss's lemma. *)
Lemma gauss_lemma (a : nat) :
  coprime p a -> a%:R ^+ h = (-1) ^+ gsign p a :> 'F_p.
Proof.
move=> Ha.
set P : 'F_p := \prod_(k <- iota 1 h) k%:R.
have HP : P != 0.
  rewrite prodf_seq_neq0; apply/allP=> k; rewrite mem_iota add1n ltnS => Hk.
  by rewrite /= Fp_nat_eq0 half_ndvd.
have H1 : \prod_(k <- iota 1 h) ((a * k)%:R : 'F_p) = a%:R ^+ h * P.
  rewrite (eq_bigr (fun k => a%:R * k%:R)); first by move=> k _; rewrite natrM.
  by rewrite big_split /= big_const_seq count_predT size_iota iter_mulr_1.
have H2 : \prod_(k <- iota 1 h) ((a * k)%:R : 'F_p) = (-1) ^+ gsign p a * P.
  rewrite (eq_bigr (fun k => (-1) ^+ hi p (a * k) * (absr p (a * k))%:R)).
    by move=> k _; apply: absr_sign => //; apply: pchar_Fp_0.
  rewrite big_split /= prod_sign; congr (_ * _).
  rewrite -(big_map (fun k => absr p (a * k)) predT (fun j => j%:R)).
  by rewrite (perm_big _ (absr_perm p_odd p_gt1 Ha)).
by apply: (mulIf HP); rewrite -H1 H2.
Qed.

(** Euler's criterion. *)
Lemma euler_criterion (a : nat) :
  coprime p a ->
  reflect (exists x : nat, x * x = a %[mod p])%N (a%:R ^+ h == 1 :> 'F_p).
Proof.
move=> Ha; have Ha0 := Fp_coprime_neq0 Ha.
apply: (iffP idP) => [Hah|[x Hx]]; last first.
  have Eax : a%:R = x%:R ^+ 2 :> 'F_p.
    by apply/eqP; rewrite expr2 -natrM eq_sym Fp_nat_eq; apply/eqP.
  have Hx0 : x%:R != 0 :> 'F_p.
    by apply: contraNneq Ha0 => Hx0; rewrite Eax Hx0 expr0n.
  by rewrite Eax -exprM mul2n -addnn Fp_fermat.
pose rs : seq 'F_p := [seq k%:R ^+ 2 | k <- iota 1 h].
pose q : {poly 'F_p} := 'X^h - 1%:P.
have Hsz : size q = h.+1 by rewrite size_XnsubC // half_gt0.
have Hq0 : q != 0 by rewrite -size_poly_eq0 Hsz.
have Hin (k : nat) : (k \in iota 1 h) = (0 < k <= h)%N by rewrite mem_iota add1n ltnS.
have Hk0 (k : nat) : (0 < k <= h)%N -> k%:R != 0 :> 'F_p.
  by move=> Hk; rewrite Fp_nat_eq0 half_ndvd.
have Hroots : all (root q) rs.
  apply/allP=> y /mapP [k]; rewrite Hin => Hk ->.
  rewrite rootE !hornerE -exprM mul2n -addnn.
  by rewrite Fp_fermat ?subrr // Hk0.
have Huniq : uniq rs.
  rewrite map_inj_in_uniq ?iota_uniq // => k l; rewrite !Hin => Hk Hl /eqP.
  rewrite eqf_sqr => /orP [|]; rewrite ?Fp_nat_eq.
    case/andP: Hk => _ Hk; case/andP: Hl => _ Hl.
    by rewrite !modn_small ?(half_lt p_odd) // => /eqP.
  rewrite -addr_eq0 -natrD Fp_nat_eq0 gtnNdvd //.
    by case/andP: Hk => Hk _; rewrite addn_gt0 Hk.
  case/andP: Hk => _ Hk; case/andP: Hl => _ Hl.
  by rewrite (odd_half p_odd) -/h; nat_lia.
case Hmem: (a%:R \in rs).
  case/mapP: Hmem => k _ /eqP; rewrite expr2 -natrM Fp_nat_eq => /eqP Hk.
  by exists k.
have := @max_poly_roots _ q (a%:R :: rs) Hq0.
rewrite /= Hmem Huniq Hroots rootE !hornerE (eqP Hah) subrr eqxx /=.
by move/(_ isT isT); rewrite size_map size_iota Hsz ltnn.
Qed.

(** The sign of Gauss's lemma modulo a prime is the Legendre symbol. *)
Lemma gsign_residue (a : nat) :
  coprime p a ->
  reflect (exists x : nat, x * x = a %[mod p])%N (~~ gsign p a).
Proof.
move=> Ha; have He := euler_criterion Ha.
move: He; rewrite (gauss_lemma Ha); case: (gsign p a) => //=.
rewrite expr1 eq_sym -addr_eq0 -[1 + 1]/(2%:R) Fp_nat_eq0.
by rewrite gtnNdvd // ltnNge leq_eqVlt ltnNge p_gt1 orbF; apply: contraL p_odd => /eqP ->.
Qed.

End Legendre.

(** ** From the integers of the code to natural numbers *)

Section ZNat.

Lemma modnE (m d : nat) : m %% d = Nat.modulo m d.
Proof.
case: d => [|d]; first by rewrite modn0.
apply: (Nat.mod_unique _ _ (m %/ d.+1)); first by apply/ltP; rewrite ltn_pmod.
by rewrite [LHS](divn_eq m d.+1) mulnC.
Qed.

Lemma expnE (m e : nat) : m ^ e = Nat.pow m e.
Proof. by elim: e => [|e IH] //; rewrite expnS IH. Qed.

Lemma to_nat_mod (x y : Z) :
  (0 <= x)%Z -> (0 <= y)%Z -> Z.to_nat (x mod y) = Z.to_nat x %% Z.to_nat y.
Proof. by move=> Hx Hy; rewrite Z2Nat.inj_mod // modnE. Qed.

Lemma to_nat_mul (x y : Z) :
  (0 <= x)%Z -> (0 <= y)%Z -> Z.to_nat (x * y) = Z.to_nat x * Z.to_nat y.
Proof. by move=> Hx Hy; rewrite Z2Nat.inj_mul. Qed.

Lemma to_nat_pow (x e : Z) :
  (0 <= x)%Z -> (0 <= e)%Z -> Z.to_nat (x ^ e) = Z.to_nat x ^ Z.to_nat e.
Proof. by move=> Hx He; rewrite Z2Nat.inj_pow // expnE. Qed.

Lemma of_nat_mod (m d : nat) : Z.of_nat (m %% d) = (Z.of_nat m mod Z.of_nat d)%Z.
Proof. by rewrite modnE Nat2Z.inj_mod. Qed.

Lemma dvdn_Zdivide (d m : nat) : d %| m -> (Z.of_nat d | Z.of_nat m)%Z.
Proof.
by case/dvdnP=> k ->; exists (Z.of_nat k); rewrite -multE Nat2Z.inj_mul.
Qed.

Lemma Zdivide_dvdn (d m : Z) :
  (0 <= d)%Z -> (0 <= m)%Z -> (d | m)%Z -> Z.to_nat d %| Z.to_nat m.
Proof.
move=> Hd Hm; case: (Z.eq_dec d 0) => [->|Hd0] Hdiv.
  by case: Hdiv => k ->; rewrite Z.mul_0_r.
apply/eqP; rewrite -to_nat_mod //.
by move/Z.mod_divide: Hdiv => ->.
Qed.

Lemma Zgcd_coprime (a b : Z) :
  (0 <= a)%Z -> (0 <= b)%Z -> Z.gcd a b = 1%Z ->
  coprime (Z.to_nat a) (Z.to_nat b).
Proof.
move=> Ha Hb Hg; rewrite /coprime.
have H1 := dvdn_Zdivide (dvdn_gcdl (Z.to_nat a) (Z.to_nat b)).
have H2 := dvdn_Zdivide (dvdn_gcdr (Z.to_nat a) (Z.to_nat b)).
move: H1 H2; rewrite !Z2Nat.id // => H1 H2.
have := Z.gcd_greatest _ _ _ H1 H2; rewrite Hg => /Z.divide_1_r_nonneg H.
by apply/eqP/Nat2Z.inj; apply: H; apply: Nat2Z.is_nonneg.
Qed.

Lemma coprime_Zgcd (a b : Z) :
  (0 <= a)%Z -> (0 <= b)%Z -> coprime (Z.to_nat a) (Z.to_nat b) ->
  Z.gcd a b = 1%Z.
Proof.
move=> Ha Hb Hc.
have Hg := Z.gcd_nonneg a b.
have H1 := Zdivide_dvdn Hg Ha (Z.gcd_divide_l a b).
have H2 := Zdivide_dvdn Hg Hb (Z.gcd_divide_r a b).
have : Z.to_nat (Z.gcd a b) %| gcdn (Z.to_nat a) (Z.to_nat b) by rewrite dvdn_gcd H1.
by rewrite (eqP Hc) dvdn1 => /eqP H; apply: Z2Nat.inj => //.
Qed.

Lemma Zprime_prime (p : Z) : Znumtheory.prime p -> prime (Z.to_nat p).
Proof.
move=> Hp; have Hp1 : (1 < p)%Z by case: Hp.
apply/primeP; split; first by apply/ltP; lia.
move=> d Hd; have := dvdn_Zdivide Hd; rewrite Z2Nat.id; first by lia.
move/(prime_divisors _ Hp) => H.
have Hd0 := Nat2Z.is_nonneg d.
have [H1|H1] : Z.of_nat d = 1%Z \/ Z.of_nat d = p by lia.
  by apply/orP; left; apply/eqP/Nat2Z.inj.
by apply/orP; right; rewrite -H1 Nat2Z.id.
Qed.

Lemma Zodd_odd (n : Z) : (0 <= n)%Z -> (n mod 2 = 1)%Z -> odd (Z.to_nat n).
Proof.
move=> Hn Hodd; rewrite odd_mod2 -[2]/(Z.to_nat 2) -to_nat_mod // Hodd.
by [].
Qed.

End ZNat.

(** ** [jacobi] computes the sign of Gauss's lemma *)

Definition sign_of (b : bool) : Z := if b then (-1)%Z else 1%Z.

(** The symbol of [a] over an odd [n >= 3] coprime to [a], by Gauss's
    lemma: 1 or -1 with the parity of the number of [k] up to [(n - 1) / 2]
    whose multiple [a * k] has its residue modulo [n] above [n / 2]. *)
Definition gauss_symbol (a n : Z) : Z :=
  sign_of (gsign (Z.to_nat n) (Z.to_nat (a mod n))).

Section JacobiGauss.

Lemma sign_of_addb (b c : bool) : sign_of (b (+) c) = (sign_of b * sign_of c)%Z.
Proof. by case: b; case: c. Qed.

Lemma gsign_pow2 (N E : nat) :
  odd N -> 1 < N -> gsign N (2 ^ E) = odd E && gsign N 2.
Proof.
move=> HN HN1; elim: E => [|E IH]; first by rewrite expn0 gsign1.
have H2 : coprime N 2 by rewrite coprimen2.
rewrite expnS (gsignM HN HN1 H2 (coprimeXr E H2)) IH /=.
by case: (odd E); case: (gsign N 2).
Qed.

Lemma odd_half_mod4 (x : nat) : odd x -> odd x./2 = (x %% 4 == 3).
Proof.
move=> Hx; have := half_split x; rewrite Hx /= => Hc.
have Hu := half_split x./2.
have E : x = x./2./2 * 4 + (2 * odd x./2 + 1) by nat_lia.
by rewrite [in RHS]E modnMDl; case: (odd x./2).
Qed.

Local Open Scope Z_scope.

(** The factor the code takes for the power of 2. *)
Lemma two_sign (e n : Z) :
  0 <= e -> 0 <= n -> n mod 2 = 1 ->
  (if (e mod 2 =? 0) || (n mod 8 =? 1) || (n mod 8 =? 7) then 1 else -1) =
  sign_of (odd (Z.to_nat e) &&
           ((Z.to_nat n %% 8 == 3)%N || (Z.to_nat n %% 8 == 5)%N)).
Proof.
move=> He Hn Hodd.
rewrite odd_mod2 -[2%N]/(Z.to_nat 2) -[8%N]/(Z.to_nat 8) -!to_nat_mod //.
have He2 := Z.mod_pos_bound e 2.
have Hn8 := Z.mod_pos_bound n 8.
have := Z.div_mod n 8; have := Z.div_mod n 2; rewrite Hodd.
move: (n / 8) (n / 2) (n mod 8) Hn8 => q8 q2 r8 Hn8 H2 H8.
have : e mod 2 = 0 \/ e mod 2 = 1 by lia.
have : r8 = 1 \/ r8 = 3 \/ r8 = 5 \/ r8 = 7 by lia.
by move=> [->|[->|[->|->]]] [->|->].
Qed.

(** The factor the code takes for the reciprocity law. *)
Lemma reciprocity_sign (n a1 : Z) :
  0 <= n -> 0 <= a1 -> n mod 2 = 1 -> a1 mod 2 = 1 ->
  ((n mod 4 =? 3) && (a1 mod 4 =? 3)) =
  odd (Z.to_nat a1)./2 && odd (Z.to_nat n)./2.
Proof.
move=> Hn Ha Hno Hao.
rewrite !odd_half_mod4 ?Zodd_odd // -[4%N]/(Z.to_nat 4) -!to_nat_mod //.
have Hn4 := Z.mod_pos_bound n 4.
have Ha4 := Z.mod_pos_bound a1 4.
move: (n mod 4) (a1 mod 4) Hn4 Ha4 => r s Hr Hs.
have : r = 0 \/ r = 1 \/ r = 2 \/ r = 3 by lia.
have : s = 0 \/ s = 1 \/ s = 2 \/ s = 3 by lia.
by move=> [->|[->|[->|->]]] [->|[->|[->|->]]].
Qed.

(** One activation of [jacobi] on coprime arguments: an answer is the
    symbol, and the factor taken out before the recursive call is the one of
    the second supplementary law and of the reciprocity law. *)
Lemma jacobi_body_gsign (a n : Z) :
  3 <= n -> n mod 2 = 1 -> Z.gcd a n = 1 ->
  match jacobi_body a n with
  | Some (Ok (Return r)) => r = gauss_symbol a n
  | Some (Ok (Recurse s a' n')) =>
    [/\ 3 <= n', n' mod 2 = 1, Z.gcd a' n' = 1 &
        gauss_symbol a n = s * gauss_symbol a' n']
  | _ => True
  end.
Proof.
move=> Hn Hodd Hg; rewrite /jacobi_body /gauss_symbol.
have -> : (n >=? 3) = true by apply/Z.geb_le.
have -> /= : (n mod 2 =? 1) = true by apply/Z.eqb_eq.
have HN : odd (Z.to_nat n) by apply: Zodd_odd => //; lia.
have HN1 : (1 < Z.to_nat n)%N by apply/ltP; lia.
move: Hg; rewrite -(Z.gcd_mod_l a n).
have : 0 < n by lia.
move/(Z.mod_pos_bound a n); move: (a mod n) => b Hb Hg.
case: (Z.eqb_spec b 0) => [Hb0|Hb0].
  by move: Hg; rewrite Hb0 Z.gcd_0_l; lia.
case: (Z.eqb_spec b 1) => [->|Hb1]; first by rewrite gsign1.
have [|a1 [e [-> Hbe He Ha1odd Ha1]]] := @strip_twos_spec b; first by lia.
have HB : Z.to_nat b = (Z.to_nat a1 * 2 ^ Z.to_nat e)%N.
  by rewrite Hbe to_nat_mul ?to_nat_pow //; [lia | apply: Z.pow_nonneg].
have Hco : coprime (Z.to_nat n) (Z.to_nat b).
  by apply: Zgcd_coprime; rewrite 1?Z.gcd_comm //; lia.
move: (Hco); rewrite HB coprimeMr => /andP [Hco1 Hco2].
have Hsym : gsign (Z.to_nat n) (Z.to_nat a1 * 2 ^ Z.to_nat e) =
            gsign (Z.to_nat n) (Z.to_nat a1) (+)
            (odd (Z.to_nat e) &&
             ((Z.to_nat n %% 8 == 3)%N || (Z.to_nat n %% 8 == 5)%N)).
  by rewrite (gsignM HN HN1 Hco1 Hco2) gsign_pow2 // gsign2.
have Hn0 : 0 <= n by lia.
have -> := @two_sign e n He Hn0 Hodd.
set t := odd _ && _ in Hsym *.
case: (Z.eqb_spec a1 1) => Ha11.
  by rewrite Hsym Ha11 gsign1.
have Ha13 : 3 <= a1.
  have : a1 <> 2 by move=> H2; rewrite H2 in Ha1odd.
  by lia.
have HA : odd (Z.to_nat a1) by apply: Zodd_odd => //; lia.
have HA1 : (1 < Z.to_nat a1)%N by apply/ltP; lia.
have Hco1' : coprime (Z.to_nat a1) (Z.to_nat n) by rewrite coprime_sym.
split=> //.
  by rewrite Z.gcd_mod_l; apply: coprime_Zgcd => //; lia.
have -> : Z.to_nat ((n mod a1) mod a1) = (Z.to_nat n %% Z.to_nat a1)%N.
  by rewrite Zmod_mod to_nat_mod //; lia.
rewrite gsign_mod Hsym.
have Hrec := gsign_reciprocity HA HN HA1 HN1 Hco1'.
have Ha0 : 0 <= a1 by lia.
have -> := @reciprocity_sign n a1 Hn0 Ha0 Hodd Ha1odd.
rewrite -Hrec.
by case: (gsign (Z.to_nat n) _); case: (gsign (Z.to_nat a1) _); case: (t).
Qed.

End JacobiGauss.

(** Over an odd [n >= 3] coprime to [a], what [jacobi(a, n)] returns is the
    symbol of Gauss's lemma. *)
Lemma jacobi_gauss_symbol (fuel : nat) (a n r : Z) :
  (3 <= n)%Z -> (n mod 2 = 1)%Z -> Z.gcd a n = 1%Z ->
  jacobi fuel a n = Some (Ok r) -> r = gauss_symbol a n.
Proof.
elim: fuel a n r => [|fuel IH] a n r //= Hn Hodd Hg.
have := jacobi_body_gsign Hn Hodd Hg.
case: (jacobi_body a n) => [[[r0|s a' n']|e]|] //; first by move=> -> [<-].
case=> Hn' Hodd' Hg' ->; case E: (jacobi fuel a' n') => [[j|]|] // [<-].
by rewrite (IH _ _ _ Hn' Hodd' Hg' E).
Qed.

(** ** The laws of the symbol [jacobi] computes *)

Section JacobiLaws.

Local Open Scope Z_scope.

Lemma Zgcd_mul_1 (a b n : Z) :
  Z.gcd (a * b) n = 1 <-> Z.gcd a n = 1 /\ Z.gcd b n = 1.
Proof.
split=> [/Zgcd_1_rel_prime H|[/Zgcd_1_rel_prime Ha /Zgcd_1_rel_prime Hb]].
  split; apply/Zgcd_1_rel_prime; apply: rel_prime_div H _.
    exact: Z.divide_factor_l.
  exact: Z.divide_factor_r.
by apply/Zgcd_1_rel_prime/rel_prime_sym/rel_prime_mult; apply: rel_prime_sym.
Qed.

Lemma gauss_symbol_mul (a b n : Z) :
  3 <= n -> n mod 2 = 1 -> Z.gcd a n = 1 -> Z.gcd b n = 1 ->
  gauss_symbol (a * b) n = gauss_symbol a n * gauss_symbol b n.
Proof.
move=> Hn Hodd Ha Hb; rewrite /gauss_symbol -sign_of_addb.
have Hn0 : 0 < n by lia.
have Hma := Z.mod_pos_bound a n Hn0.
have Hmb := Z.mod_pos_bound b n Hn0.
have HN : odd (Z.to_nat n) by apply: Zodd_odd => //; lia.
have HN1 : (1 < Z.to_nat n)%N by apply/ltP; lia.
have Hca : coprime (Z.to_nat n) (Z.to_nat (a mod n)).
  by apply: Zgcd_coprime; rewrite 1?Z.gcd_comm ?Z.gcd_mod_l //; lia.
have Hcb : coprime (Z.to_nat n) (Z.to_nat (b mod n)).
  by apply: Zgcd_coprime; rewrite 1?Z.gcd_comm ?Z.gcd_mod_l //; lia.
have -> : Z.to_nat ((a * b) mod n) =
          ((Z.to_nat (a mod n) * Z.to_nat (b mod n)) %% Z.to_nat n)%N.
  have -> : (a * b) mod n = (a mod n * (b mod n)) mod n by apply: Z.mul_mod; lia.
  by rewrite to_nat_mod ?to_nat_mul //; try lia; nia.
by rewrite gsign_mod (gsignM HN HN1 Hca Hcb).
Qed.

Lemma gauss_symbol_pm1 (a n : Z) : gauss_symbol a n = 1 \/ gauss_symbol a n = -1.
Proof. by rewrite /gauss_symbol; case: (gsign _ _); [right | left]. Qed.

Lemma residue_nat_Z (a p : Z) :
  0 < p ->
  (exists x : nat, (x * x = Z.to_nat (a mod p) %[mod Z.to_nat p])%N) <->
  (exists x : Z, (x * x) mod p = a mod p).
Proof.
move=> Hp; have Ha := Z.mod_pos_bound a p Hp.
split=> [[x Hx]|[x Hx]].
  exists (Z.of_nat x).
  have := congr1 Z.of_nat Hx; rewrite !of_nat_mod -multE Nat2Z.inj_mul.
  rewrite !Z2Nat.id; try lia.
  by rewrite Zmod_mod.
have Hx0 := Z.mod_pos_bound x p Hp.
exists (Z.to_nat (x mod p)).
rewrite -to_nat_mul; try lia.
rewrite -!to_nat_mod; try nia.
by rewrite -Z.mul_mod ?Zmod_mod ?Hx //; lia.
Qed.

Lemma prime_odd (p : Z) : Znumtheory.prime p -> 3 <= p -> p mod 2 = 1.
Proof.
move=> Hp H3.
have := Z.mod_pos_bound p 2; have := Z.div_mod p 2.
case E: (p mod 2) => [|[||]|] //; try lia.
move=> H _; have Hd : (2 | p) by exists (p / 2); lia.
by case: (prime_divisors _ Hp _ Hd); lia.
Qed.

Lemma prime_gcd (a p : Z) :
  Znumtheory.prime p -> Z.gcd a p = 1 <-> a mod p <> 0.
Proof.
move=> Hp; have Hp1 : 1 < p by case: Hp.
split=> [Hg H0|H0].
  have Hd : (p | a) by apply/Z.mod_divide => //; lia.
  have : (p | Z.gcd a p) by apply: Z.gcd_greatest => //; apply: Z.divide_refl.
  by rewrite Hg => /Z.divide_1_r_nonneg; lia.
apply/Zgcd_1_rel_prime/rel_prime_sym/prime_rel_prime => // Hd.
by apply: H0; apply/Z.mod_divide => //; lia.
Qed.

End JacobiLaws.

(** What [jacobi] returns on an odd prime, against the squares modulo it. *)
Lemma jacobi_residue (fuel : nat) (a p r : Z) :
  Znumtheory.prime p -> (3 <= p)%Z -> jacobi fuel a p = Some (Ok r) ->
  [/\ r = 0%Z <-> (a mod p = 0)%Z,
      r = 1%Z <->
        (a mod p <> 0)%Z /\ (exists x : Z, ((x * x) mod p = a mod p)%Z) &
      r = (-1)%Z <-> ~ (exists x : Z, ((x * x) mod p = a mod p)%Z)].
Proof.
move=> Hp H3 Hj.
have Hodd := prime_odd Hp H3.
have Hp0 : (0 < p)%Z by lia.
have Hz := jacobi_zero_gcd Hj.
have Hgp := prime_gcd a Hp.
case: (Z.eq_dec (a mod p) 0) => Ha0.
  have Hr : r = 0%Z by apply/Hz => /Hgp.
  rewrite Hr; split; split=> //; first by case.
  by case; exists 0%Z; rewrite Ha0.
have Hg : Z.gcd a p = 1%Z by apply/Hgp.
have Hr := jacobi_gauss_symbol H3 Hodd Hg Hj.
have HP := Zprime_prime Hp.
have HPodd : odd (Z.to_nat p) by apply: Zodd_odd => //; lia.
have Hco : coprime (Z.to_nat p) (Z.to_nat (a mod p)).
  have Hm := Z.mod_pos_bound a p Hp0.
  by apply: Zgcd_coprime; rewrite 1?Z.gcd_comm ?Z.gcd_mod_l //; lia.
have Hres := gsign_residue HP HPodd Hco.
have HZ := residue_nat_Z a Hp0.
move: Hr Hres; rewrite /gauss_symbol; case: (gsign _ _) => /= -> Hres.
  have Hno : ~ (exists x : Z, ((x * x) mod p = a mod p)%Z).
    by move/HZ => H; move/Hres: H.
  by split; split=> //; case.
have Hyes : exists x : Z, ((x * x) mod p = a mod p)%Z by apply/HZ/Hres.
by split; split=> //; case.
Qed.

(** For an odd prime [p], [jacobi(a, p)] is the Legendre symbol: what it
    returns is 0 when [p] divides [a], 1 when [a] is a square modulo [p]
    that [p] does not divide, and -1 when [a] is not a square modulo [p]. *)
Theorem jacobi_legendre (fuel : nat) (a p r : Z) :
  Znumtheory.prime p -> (3 <= p)%Z -> jacobi fuel a p = Some (Ok r) ->
  [/\ r = 0%Z <-> (a mod p = 0)%Z,
      r = 1%Z <->
        (a mod p <> 0)%Z /\ (exists x : Z, ((x * x) mod p = a mod p)%Z) &
      r = (-1)%Z <-> ~ (exists x : Z, ((x * x) mod p = a mod p)%Z)].
Proof. exact: jacobi_residue. Qed.

Lemma jacobi_legendre_witness :
  ~ (exists x : Z, ((x * x) mod 7 = 3 mod 7)%Z).
Proof.
have H : jacobi 7 3 7 = Some (Ok (-1)%Z) by vm_compute.
have [_ _ [H1 _]] := @jacobi_legendre 7 3 7 (-1) prime_7 (@Zle_true 3 7 (erefl true)) H.
exact: H1.
Defined.

(** [jacobi] is multiplicative in its first argument: over an odd
    [n >= 3], what [jacobi(a * b, n)] returns is the product of what
    [jacobi(a, n)] and [jacobi(b, n)] return. *)
Theorem jacobi_multiplicative (fa fb fab : nat) (a b n ra rb rab : Z) :
  (3 <= n)%Z -> (n mod 2 = 1)%Z ->
  jacobi fa a n = Some (Ok ra) -> jacobi fb b n = Some (Ok rb) ->
  jacobi fab (a * b) n = Some (Ok rab) ->
  rab = (ra * rb)%Z.
Proof.
move=> Hn Hodd Ha Hb Hab.
have Hza := jacobi_zero_gcd Ha.
have Hzb := jacobi_zero_gcd Hb.
have Hzab := jacobi_zero_gcd Hab.
have Hmul := Zgcd_mul_1 a b n.
case: (Z.eq_dec (Z.gcd a n) 1) => Hga; last first.
  have -> : ra = 0%Z by apply/Hza.
  by rewrite Z.mul_0_l; apply/Hzab => /Hmul [].
case: (Z.eq_dec (Z.gcd b n) 1) => Hgb; last first.
  have -> : rb = 0%Z by apply/Hzb.
  by rewrite Z.mul_0_r; apply/Hzab => /Hmul [].
have Hgab : Z.gcd (a * b) n = 1%Z by apply/Hmul.
rewrite (jacobi_gauss_symbol Hn Hodd Hga Ha) (jacobi_gauss_symbol Hn Hodd Hgb Hb).
by rewrite (jacobi_gauss_symbol Hn Hodd Hgab Hab) gauss_symbol_mul.
Qed.

Lemma jacobi_multiplicative_witness : (-1 = 1 * -1)%Z.
Proof.
exact: (@jacobi_multiplicative 15 15 15 2 7 15 1 (-1) (-1)
          (@Zle_true 3 15 (erefl true)) (erefl _) (erefl _) (erefl _) (erefl _)).
Defined.

(** The law of quadratic reciprocity and its second supplement, for what
    [jacobi] returns: over coprime odd [m, n >= 3], [jacobi(m, n)] and
    [jacobi(n, m)] differ exactly when both [m] and [n] are 3 modulo 4; and
    [jacobi(2, n)] is 1 when [n] is 1 or 7 modulo 8 and -1 otherwise. *)
Theorem jacobi_reciprocity (fm fn f2 : nat) (m n rm rn r2 : Z) :
  (3 <= m)%Z -> (3 <= n)%Z -> (m mod 2 = 1)%Z -> (n mod 2 = 1)%Z ->
  Z.gcd m n = 1%Z ->
  jacobi fm m n = Some (Ok rm) -> jacobi fn n m = Some (Ok rn) ->
  jacobi f2 2 n = Some (Ok r2) ->
  (rm * rn = if (m mod 4 =? 3) && (n mod 4 =? 3) then -1 else 1)%Z /\
  (r2 = if (n mod 8 =? 1) || (n mod 8 =? 7) then 1 else -1)%Z.
Proof.
move=> Hm Hn Hmo Hno Hg Hjm Hjn Hj2.
have Hg' : Z.gcd n m = 1%Z by rewrite Z.gcd_comm.
have HM : odd (Z.to_nat m) by apply: Zodd_odd => //; lia.
have HN : odd (Z.to_nat n) by apply: Zodd_odd => //; lia.
have HM1 : (1 < Z.to_nat m)%N by apply/ltP; lia.
have HN1 : (1 < Z.to_nat n)%N by apply/ltP; lia.
have Hco : coprime (Z.to_nat m) (Z.to_nat n) by apply: Zgcd_coprime => //; lia.
split.
  rewrite (jacobi_gauss_symbol Hn Hno Hg Hjm) (jacobi_gauss_symbol Hm Hmo Hg' Hjn).
  rewrite /gauss_symbol !to_nat_mod; try lia.
  rewrite !gsign_mod -sign_of_addb (gsign_reciprocity HM HN HM1 HN1 Hco).
  have Hm0 : (0 <= m)%Z by lia.
  have Hn0 : (0 <= n)%Z by lia.
  rewrite -(reciprocity_sign Hn0 Hm0 Hno Hmo) andbC.
  by case: (_ && _).
have Hg2 : Z.gcd 2 n = 1%Z.
  by apply/Zgcd_1_rel_prime; have := @odd_rel_prime_pow2 1 n; apply.
rewrite (jacobi_gauss_symbol Hn Hno Hg2 Hj2) /gauss_symbol.
have -> : (2 mod n = 2)%Z by rewrite Z.mod_small; lia.
have He : (0 <= 1)%Z by [].
have Hn0 : (0 <= n)%Z by lia.
have := @two_sign 1 n He Hn0 Hno.
by rewrite (gsign2 HN) /= => <-.
Qed.

Lemma jacobi_reciprocity_witness :
  (-1 * 1 = -1)%Z /\ (1 = 1)%Z.
Proof.
exact: (@jacobi_reciprocity 15 15 15 3 7 (-1) 1 1
          (@Zle_true 3 3 (erefl true)) (@Zle_true 3 7 (erefl true))
          (erefl _) (erefl _) (erefl _) (erefl _) (erefl _) (erefl _)).
Defined.

(** * The square root modulo a prime *)

(** ** From the integers of the code to the field of [p] elements *)

Section FpOfZ.

Import GRing.Theory.

Variable p : Z.
Hypothesis p_prime : Znumtheory.prime p.

Let P := Z.to_nat p.
Let P_prime : prime P := Zprime_prime p_prime.
Let p_gt1 : (1 < p)%Z.
Proof. by case: p_prime. Qed.
Let PE : Z.of_nat P = p.
Proof. by rewrite /P Z2Nat.id; lia. Qed.

(** The class of the integer [z] modulo [p]. *)
Definition Fp_of_Z (z : Z) : 'F_P := ((Z.to_nat (z mod p))%:R)%R.

Local Open Scope ring_scope.

Lemma Fp_of_Z_natE (n : nat) (z : Z) :
  (Z.of_nat n mod p = z mod p)%Z -> n%:R = Fp_of_Z z.
Proof.
move=> H; apply/eqP; rewrite /Fp_of_Z Fp_nat_eq //; apply/eqP.
apply: Nat2Z.inj; rewrite !of_nat_mod PE -H Z2Nat.id ?Zmod_mod //.
by have := Z.mod_pos_bound (Z.of_nat n) p; lia.
Qed.

Lemma Fp_of_Z_nat (n : nat) : Fp_of_Z (Z.of_nat n) = n%:R.
Proof. by rewrite -(@Fp_of_Z_natE n). Qed.

Lemma Fp_of_Z_eq (x y : Z) : (Fp_of_Z x == Fp_of_Z y) = (x mod p == y mod p)%Z.
Proof.
have Hx := Z.mod_pos_bound x p; have Hy := Z.mod_pos_bound y p.
rewrite /Fp_of_Z Fp_nat_eq // !modn_small; try by apply/ltP; rewrite /P; lia.
by apply/eqP/eqP => [H|-> //]; apply: Z2Nat.inj => //; lia.
Qed.

Lemma Fp_of_Z_mod (x : Z) : Fp_of_Z (x mod p) = Fp_of_Z x.
Proof. by apply/eqP; rewrite Fp_of_Z_eq Zmod_mod. Qed.

Lemma Fp_of_Z0 : Fp_of_Z 0 = 0.
Proof. by rewrite -[0%Z]/(Z.of_nat 0) Fp_of_Z_nat. Qed.

Lemma Fp_of_Z1 : Fp_of_Z 1 = 1.
Proof. by rewrite -[1%Z]/(Z.of_nat 1) Fp_of_Z_nat. Qed.

Lemma Fp_of_ZD (x y : Z) : Fp_of_Z (x + y) = Fp_of_Z x + Fp_of_Z y.
Proof.
rewrite {2 3}/Fp_of_Z -natrD; symmetry; apply: Fp_of_Z_natE.
have Hx := Z.mod_pos_bound x p; have Hy := Z.mod_pos_bound y p.
by rewrite Nat2Z.inj_add !Z2Nat.id; try lia; rewrite -Zplus_mod.
Qed.

Lemma Fp_of_ZM (x y : Z) : Fp_of_Z (x * y) = Fp_of_Z x * Fp_of_Z y.
Proof.
rewrite {2 3}/Fp_of_Z -natrM; symmetry; apply: Fp_of_Z_natE.
have Hx := Z.mod_pos_bound x p; have Hy := Z.mod_pos_bound y p.
by rewrite Nat2Z.inj_mul !Z2Nat.id; try lia; rewrite -Zmult_mod.
Qed.

Lemma Fp_of_ZN (x : Z) : Fp_of_Z (- x) = - Fp_of_Z x.
Proof.
apply/eqP; rewrite -addr_eq0 -Fp_of_ZD.
by have -> : (- x + x = 0)%Z by lia; rewrite Fp_of_Z0.
Qed.

Lemma Fp_of_ZB (x y : Z) : Fp_of_Z (x - y) = Fp_of_Z x - Fp_of_Z y.
Proof. by rewrite -Fp_of_ZN -Fp_of_ZD. Qed.

Lemma Fp_of_ZX (x e : Z) : (0 <= e)%Z -> Fp_of_Z (x ^ e) = Fp_of_Z x ^+ Z.to_nat e.
Proof.
move=> He; rewrite -{1}(Z2Nat.id e He); elim: (Z.to_nat e) => [|k IH].
  by rewrite Z.pow_0_r expr0 Fp_of_Z1.
by rewrite Nat2Z.inj_succ Z.pow_succ_r ?Fp_of_ZM ?IH ?exprS //; lia.
Qed.

Lemma Fp_of_Z_pow_mod (x e : Z) :
  (0 <= e)%Z -> Fp_of_Z (pow_mod x e p) = Fp_of_Z x ^+ Z.to_nat e.
Proof. by move=> He; rewrite /pow_mod Fp_of_Z_mod Fp_of_ZX. Qed.

Lemma Fp_of_Z_eq0 (x : Z) : (Fp_of_Z x == 0) = (x mod p == 0)%Z.
Proof. by rewrite -Fp_of_Z0 Fp_of_Z_eq Zmod_0_l. Qed.

(** Every element of the field is the class of one integer of [[0, p)]. *)
Lemma Fp_of_Z_val (x : 'F_P) :
  Fp_of_Z (Z.of_nat x) = x /\ (0 <= Z.of_nat x < p)%Z.
Proof.
split; first by rewrite Fp_of_Z_nat natr_Zp.
have E : (x : nat) = (x %% P)%N by rewrite -val_Fp_nat // natr_Zp.
have Hlt : (x < P)%N by rewrite E ltn_pmod // prime_gt0.
by move: Hlt => /ltP; lia.
Qed.

End FpOfZ.
(** ** Square roots in the field of [p] elements *)

Section SqrtField.

Import GRing.Theory.

Variable p : nat.
Hypothesis p_prime : prime p.
Hypothesis p_odd : odd p.

Let h := p./2.

Local Open Scope ring_scope.

Lemma Fp_two_neq0 : 2%:R != 0 :> 'F_p.
Proof.
rewrite Fp_nat_eq0 //; apply/negP => Hd.
have := dvdn_leq (isT : (0 < 2)%N) Hd.
rewrite leq_eqVlt ltnNge prime_gt1 // orbF => /eqP Hp.
by move: p_odd; rewrite Hp.
Qed.

Lemma Fp_m1_neq1 : -1 != 1 :> 'F_p.
Proof.
by rewrite eq_sym -subr_eq0 opprK -[1 + 1]/(2%:R) Fp_two_neq0.
Qed.

Lemma Fp_sqr_half (x : 'F_p) : x != 0 -> (x ^+ 2) ^+ h = 1.
Proof. by move=> Hx; rewrite -exprM mul2n -addnn; apply: Fp_fermat. Qed.

Lemma Fp_expp (x : 'F_p) : x ^+ p = x.
Proof. by rewrite -[in X in _ ^+ X](card_Fp p_prime) expf_card. Qed.

(** The shortcut for [p = 3 (mod 4)]. *)
Lemma sqrt_3mod4 (a : 'F_p) (e : nat) :
  (e + e = h + 1)%N -> a ^+ h = 1 -> (a ^+ e) ^+ 2 = a.
Proof. by move=> He Ha; rewrite -exprM muln2 -addnn He exprD Ha mul1r expr1. Qed.

(** The shortcut for [p = 5 (mod 8)]. *)
Lemma sqrt_5mod8_d (a : 'F_p) (e : nat) :
  (e + e = h)%N -> a ^+ h = 1 -> (a ^+ e == 1) || (a ^+ e == -1).
Proof. by move=> He Ha; rewrite -sqrf_eq1 -exprM muln2 -addnn He Ha. Qed.

Lemma sqrt_5mod8_1 (a : 'F_p) (e e' : nat) :
  (e' + e' = e + 1)%N -> a ^+ e = 1 -> (a ^+ e') ^+ 2 = a.
Proof. by move=> He Ha; rewrite -exprM muln2 -addnn He exprD Ha mul1r expr1. Qed.

Lemma sqrt_5mod8_m1 (a : 'F_p) (e k : nat) :
  (e = k + k + 1)%N -> (h = e + e)%N -> a ^+ e = -1 -> 2%:R ^+ h = -1 :> 'F_p ->
  (2%:R * a * (4%:R * a) ^+ k) ^+ 2 = a.
Proof.
move=> He Hh Ha H2.
have -> : (2%:R * a * (4%:R * a) ^+ k) ^+ 2 = a * (4%:R * a) ^+ e.
  by rewrite He !exprD expr1; move: (_ ^+ k) => y; ring.
have -> : 4%:R = 2%:R ^+ 2 :> 'F_p by rewrite expr2 -natrM.
by rewrite exprMn Ha -exprM mul2n -addnn -Hh H2 mulrNN mulr1 mulr1.
Qed.

(** *** The square root in [GF(p)[x] / (x^2 - b x + a)] *)

Section Cipolla.

Variables a b : 'F_p.

Let D : 'F_p := b ^+ 2 - 4%:R * a.
Let f : {poly 'F_p} := 'X^2 - b *: 'X + a%:P.

Hypothesis a_res : a ^+ h = 1.
Hypothesis D_nonres : D ^+ h = -1.

Let p_char : p \in [pchar {poly 'F_p}].
Proof. by rewrite pchar_poly pchar_Fp. Qed.

Let g : {poly 'F_p} := 2%:R *: 'X - b%:P.

Lemma cipolla_sqr : g ^+ 2 - D%:P = 4%:R *: f.
Proof.
rewrite /g /f /D -!mul_polyC !rmorphB !rmorphM /= ?polyC_exp !polyC_natr.
by ring.
Qed.

Lemma cipolla_gp : g ^+ p = 2%:R *: 'X^p - b%:P.
Proof.
rewrite -(pFrobenius_autE p_char) /g pFrobenius_autB_comm; first exact: mulrC.
by rewrite !pFrobenius_autE exprZn -polyC_exp !Fp_expp.
Qed.

(** [x^p = b - x] modulo [f]. *)
Lemma cipolla_frobenius : f %| 'X^p + 'X - b%:P.
Proof.
have H1 : f %| g ^+ (h + h) + 1.
  have -> : g ^+ (h + h) + 1 = (g ^+ 2) ^+ h - (D%:P) ^+ h.
    by rewrite -exprM mul2n -addnn -polyC_exp D_nonres polyCN opprK.
  by rewrite subrXX cipolla_sqr -mul_polyC -mulrA dvdp_mull // dvdp_mulr.
have H2 : f %| g ^+ p + g.
  have -> : g ^+ p + g = (g ^+ (h + h) + 1) * g.
    by rewrite mulrDl mul1r -exprSr (half_double p_odd) prednK // prime_gt0.
  exact: dvdp_mulr.
have E : g ^+ p + g = 2%:R *: ('X^p + 'X - b%:P).
  rewrite cipolla_gp /g -!mul_polyC !polyC_natr; ring.
by move: H2; rewrite E dvdpZr // Fp_two_neq0.
Qed.

(** [x^(p + 1) = a] modulo [f]. *)
Lemma cipolla_norm : f %| 'X^(p.+1) - a%:P.
Proof.
have -> : 'X^(p.+1) - a%:P = 'X * ('X^p + 'X - b%:P) - f :> {poly 'F_p}.
  by rewrite /f exprS -!mul_polyC; ring.
by rewrite dvdp_sub ?dvdpp // dvdp_mull // cipolla_frobenius.
Qed.

Lemma size_cipolla_f : size f = 3.
Proof.
rewrite /f -addrA size_polyDl ?size_polyXn //.
apply: leq_ltn_trans (size_polyD _ _) _.
by rewrite gtn_max size_polyC -scaleNr !ltnS (leq_trans (size_scale_leq _ _)) ?size_polyX //; case: eqP.
Qed.

(** The remainder [c0 + c1 x] of [x^((p + 1) / 2)] is a constant whose
    square is [a]. *)
Lemma cipolla_root (c0 c1 : 'F_p) :
  f %| 'X^(h.+1) - (c0%:P + c1 *: 'X) -> c1 = 0 /\ c0 ^+ 2 = a.
Proof.
move=> Hu; set u : {poly 'F_p} := c0%:P + c1 *: 'X in Hu.
have Hp1 : (h.+1 + h.+1 = p.+1)%N.
  by rewrite addSn addnS (half_double p_odd) prednK // prime_gt0.
have H1 : f %| u ^+ 2 - a%:P.
  have -> : u ^+ 2 - a%:P =
            ('X^(p.+1) - a%:P) - ('X^(h.+1) - u) * ('X^(h.+1) + u).
    by rewrite -Hp1 exprD; ring.
  by rewrite dvdp_sub ?cipolla_norm // dvdp_mulr.
pose e0 : 'F_p := c0 ^+ 2 - a * c1 ^+ 2 - a.
pose e1 : 'F_p := 2%:R * c0 * c1 + b * c1 ^+ 2.
have H2 : f %| e0%:P + e1 *: 'X.
  have -> : e0%:P + e1 *: 'X = (u ^+ 2 - a%:P) - (c1 ^+ 2)%:P * f.
    rewrite /u /f /e0 /e1 -!mul_polyC ?rmorphD ?rmorphB ?rmorphM /= ?rmorphD ?rmorphB ?rmorphM /= ?polyC_exp ?polyC_natr.
    by ring.
  by rewrite dvdp_sub // dvdp_mull // dvdpp.
have H3 : e0%:P + e1 *: 'X = 0 :> {poly 'F_p}.
  apply/eqP; apply: contraLR H2 => H0; apply/negP => /(dvdp_leq H0).
  rewrite size_cipolla_f leqNgt => /negP; apply.
  apply: leq_ltn_trans (size_polyD _ _) _.
  by rewrite gtn_max size_polyC !ltnS (leq_trans (size_scale_leq _ _)) ?size_polyX //; case: eqP.
have He0 : e0 = 0.
  by have := congr1 (fun q : {poly 'F_p} => q`_0) H3; rewrite coefD coefC coefZ coefX /= mulr0 addr0 coef0.
have He1 : e1 = 0.
  by have := congr1 (fun q : {poly 'F_p} => q`_1) H3; rewrite coefD coefC coefZ coefX /= mulr1 add0r coef0.
have Ha0 : a != 0.
  apply/eqP => Ha; move: a_res; rewrite Ha expr0n.
  have -> /= : (h == 0)%N = false by apply/negbTE; rewrite -lt0n; exact: half_gt0.
  by move/eqP; rewrite eq_sym oner_eq0.
case: (eqVneq c1 0) => [Hc1|Hc1].
  split=> //; move: He0; rewrite /e0 Hc1 expr0n /= mulr0 subr0 => /eqP.
  by rewrite subr_eq0 => /eqP.
have Hc0 : 2%:R * c0 + b * c1 = 0.
  apply: (mulIf Hc1); rewrite mul0r -[RHS]He1 /e1; ring.
have HD : c1 ^+ 2 * D = 4%:R * a.
  have E : (2%:R * c0) ^+ 2 = (b * c1) ^+ 2.
    have -> : 2%:R * c0 = - (b * c1) by apply/eqP; rewrite -addr_eq0 Hc0.
    by rewrite sqrrN.
  have : 4%:R * e0 = 0 by rewrite He0 mulr0.
  rewrite /e0 /D => H; apply/eqP; rewrite -subr_eq0; apply/eqP; rewrite -[RHS]H.
  have -> : 4%:R * (c0 ^+ 2 - a * c1 ^+ 2 - a) = (2%:R * c0) ^+ 2 - 4%:R * a * c1 ^+ 2 - 4%:R * a.
    by ring.
  by rewrite E; ring.
have := congr1 (fun x => x ^+ h) HD.
have -> : 4%:R = 2%:R ^+ 2 :> 'F_p by rewrite expr2 -natrM.
rewrite /= !exprMn D_nonres a_res.
rewrite -!exprD (Fp_fermat p_prime p_odd Hc1) (Fp_fermat p_prime p_odd Fp_two_neq0).
rewrite mul1r mulr1 => /eqP.
by rewrite (negbTE Fp_m1_neq1).
Qed.

End Cipolla.

(** Some [b] has a discriminant [b^2 - 4 a] that is not a square. *)
Lemma nonresidue_discriminant (a : 'F_p) :
  a != 0 -> exists b : 'F_p, forall c : 'F_p, c ^+ 2 != b ^+ 2 - 4%:R * a.
Proof.
move=> Ha.
pose psi (u : 'F_p) : 'F_p := (u + 4%:R * a / u) / 2%:R.
pose U : {set 'F_p} := [set u | u != 0].
have HU : (#|psi @: U| < #|'F_p|)%N.
  apply: leq_ltn_trans (leq_imset_card _ _) _.
  have -> : U = [set~ 0] by apply/setP => u; rewrite !inE.
  by rewrite cardsC1 card_Fp // prednK // prime_gt0.
have [b Hb] : exists b, b \notin psi @: U.
  apply/existsP; rewrite -negb_forall; apply: contraL HU => /forallP Hall.
  rewrite -leqNgt; apply: subset_leq_card; apply/subsetP => x _.
  exact: Hall.
exists b => c; apply: contra Hb => /eqP Hc.
have Huv : (b - c) * (b + c) = 4%:R * a by rewrite -subr_sqr Hc; ring.
have H4a : 4%:R * a != 0.
  have -> : 4%:R = 2%:R * 2%:R :> 'F_p by rewrite -natrM.
  by rewrite !mulf_neq0 // Fp_two_neq0.
have Hu : b - c != 0 by apply: contraNneq H4a => H0; rewrite -Huv H0 mul0r.
apply/imsetP; exists (b - c); first by rewrite inE.
rewrite /psi -Huv [_ * _ / _]mulrAC divff // mul1r.
have -> : b - c + (b + c) = 2%:R * b by ring.
by rewrite mulrAC divff ?mul1r // Fp_two_neq0.
Qed.

(** An element that is not a square has the symbol -1. *)
Lemma Fp_nonsquare (x : 'F_p) : (forall c : 'F_p, c ^+ 2 != x) -> x ^+ h = -1.
Proof.
move=> Hx.
have Hx0 : x != 0 by have := Hx 0; rewrite expr0n /= eq_sym.
have Hco : coprime p x.
  by rewrite prime_coprime //; move: Hx0; rewrite -{1}[x]natr_Zp Fp_nat_eq0.
have H1 : x ^+ h != 1.
  apply/negP => /eqP H1; move: (euler_criterion p_prime p_odd Hco).
  rewrite natr_Zp H1 eqxx => /(elimT) /(_ isT) [y /eqP Hy].
  have := Hx y%:R; rewrite expr2 -natrM -{1}[x]natr_Zp.
  by rewrite Fp_nat_eq // Hy.
have : (x ^+ h) ^+ 2 == 1 by rewrite -exprM muln2 -addnn (Fp_fermat p_prime p_odd Hx0).
by rewrite sqrf_eq1 (negbTE H1) /= => /eqP.
Qed.

(** When -1 and [a] are squares, such a [b] is found from 2 on. *)
Lemma nonresidue_discriminant_ge2 (a : 'F_p) :
  ~~ odd h -> a ^+ h = 1 ->
  exists b : 'F_p, [/\ b != 0, b != 1 & (b ^+ 2 - 4%:R * a) ^+ h = -1].
Proof.
move=> Hh Ha.
have Ha0 : a != 0.
  apply/eqP => Ha0; move: Ha; rewrite Ha0 expr0n.
  have -> /= : (h == 0)%N = false by apply/negbTE; rewrite -lt0n; exact: half_gt0.
  by move/eqP; rewrite eq_sym oner_eq0.
have [b Hb] := nonresidue_discriminant Ha0.
have HD : (b ^+ 2 - 4%:R * a) ^+ h = -1.
  by apply: Fp_nonsquare => c; exact: Hb.
have Hb0 : b != 0.
  apply/eqP => Hb0; move/eqP: HD; rewrite Hb0 expr0n /= sub0r exprNn exprMn Ha.
  have -> : 4%:R = 2%:R ^+ 2 :> 'F_p by rewrite expr2 -natrM.
  rewrite (Fp_sqr_half Fp_two_neq0) !mulr1 -signr_odd (negbTE Hh) expr0 eq_sym.
  by rewrite (negbTE Fp_m1_neq1).
case: (eqVneq b 1) => [Hb1|Hb1]; last by exists b.
exists (-1); split.
- by rewrite oppr_eq0 oner_eq0.
- exact: Fp_m1_neq1.
by move: HD; rewrite Hb1 sqrrN.
Qed.

End SqrtField.
(** ** The polynomials of the code *)

Section PolyCode.

Import GRing.Theory.

Variable p : Z.
Hypothesis p_prime : Znumtheory.prime p.

Let P := Z.to_nat p.
Let p_gt1 : (1 < p)%Z.
Proof. by case: p_prime. Qed.

Local Notation phi := (Fp_of_Z p).

Lemma py_mod_Ok (x : Z) : py_mod x p = Ok (x mod p)%Z.
Proof. by rewrite /py_mod; have /Z.eqb_neq -> : p <> 0%Z by lia. Qed.

(** The polynomial a list [[:: c0; c1]] of the code denotes. *)
Definition poly2 (c0 c1 : Z) : {poly 'F_P} := ((phi c0)%:P + phi c1 *: 'X)%R.

Variables f0 f1 : Z.

(** The modulus [[:: f0; f1; 1]]. *)
Let f : {poly 'F_P} := ('X^2 + phi f1 *: 'X + (phi f0)%:P)%R.

(** The product of two polynomials of degree 1 modulo [x^2 + f1 x + f0]. *)
Lemma polynomial_multiply_mod_22 (g0 g1 s0 s1 : Z) :
  exists r0 r1 : Z,
    [/\ polynomial_multiply_mod [:: g0; g1] [:: s0; s1] [:: f0; f1; 1%Z] p =
          Ok [:: r0; r1],
        (0 <= r0 < p)%Z, (0 <= r1 < p)%Z &
        (f %| poly2 g0 g1 * poly2 s0 s1 - poly2 r0 r1)%R].
Proof.
have Hb x := Z.mod_pos_bound x p (Z.lt_trans _ _ _ Z.lt_0_1 p_gt1).
rewrite /polynomial_multiply_mod [foldl _ _ _]/=.
do 4![rewrite py_mod_Ok !bind_Ok /=].
set c0 := ((g0 * s0) mod p)%Z; set c1 := (((g0 * s1) mod p + g1 * s0) mod p)%Z.
set c2 := ((g1 * s1) mod p)%Z.
have Hc0 : phi c0 = (phi g0 * phi s0)%R by rewrite /c0 Fp_of_Z_mod // Fp_of_ZM.
have Hc1 : phi c1 = (phi g0 * phi s1 + phi g1 * phi s0)%R.
  by rewrite /c1 Fp_of_Z_mod // Fp_of_ZD // Fp_of_Z_mod // !Fp_of_ZM.
have Hc2 : phi c2 = (phi g1 * phi s1)%R by rewrite /c2 Fp_of_Z_mod // Fp_of_ZM.
have Hprod : (poly2 g0 g1 * poly2 s0 s1 =
              (phi c2)%:P * f + poly2 (c0 - c2 * f0) (c1 - c2 * f1))%R.
  rewrite /poly2 /f !Fp_of_ZB // !Fp_of_ZM // Hc0 Hc1 Hc2.
  rewrite -!mul_polyC ?rmorphD ?rmorphB ?rmorphM /= ?rmorphD ?rmorphB ?rmorphM /=.
  by ring.
rewrite /polynomial_reduce_mod /=; case: eqP => [H0|H0]; rewrite /= ?bind_Ok /=.
  exists c0, c1; split=> //; [exact: Hb | exact: Hb |].
  rewrite Hprod /poly2 !Fp_of_ZB // !Fp_of_ZM // -/c2 H0 Fp_of_Z0 //.
  by rewrite polyC0 !mul0r !subr0 add0r subrr dvdp0.
rewrite /reduce_inner /=; do 2![rewrite py_mod_Ok !bind_Ok /=].
exists ((c0 - c2 * f0) mod p)%Z, ((c1 - c2 * f1) mod p)%Z.
split=> //; try exact: Hb.
rewrite Hprod /poly2 !Fp_of_Z_mod // addrK.
by rewrite dvdp_mull // dvdpp.
Qed.

Local Open Scope ring_scope.

Lemma eqf_mul (u u' v v' : {poly 'F_P}) :
  f %| u - u' -> f %| v - v' -> f %| u * v - u' * v'.
Proof.
move=> Hu Hv; have -> : u * v - u' * v' = (u - u') * v + u' * (v - v') by ring.
by apply: dvdp_add; [apply: dvdp_mulr | apply: dvdp_mull].
Qed.

Lemma eqf_exp (u u' : {poly 'F_P}) (n : nat) : f %| u - u' -> f %| u ^+ n - u' ^+ n.
Proof. by move=> Hu; rewrite subrXX dvdp_mulr. Qed.

Lemma eqf_trans (v u w : {poly 'F_P}) : f %| u - v -> f %| v - w -> f %| u - w.
Proof.
move=> Hu Hv; have -> : u - w = (u - v) + (v - w) by ring.
exact: dvdp_add.
Qed.

Lemma pos_odd (k : positive) : (Z.pos k mod 2 =? 1)%Z = odd (Pos.to_nat k).
Proof.
case: k => [k|k|] //.
  have -> : (Z.pos k~1 mod 2 = 1)%Z.
    by rewrite Pos2Z.inj_xI Z.add_comm Z.mul_comm Z.mod_add.
  by rewrite Pos2Nat.inj_xI multE mul2n /= odd_double.
have -> : (Z.pos k~0 mod 2 = 0)%Z by rewrite Pos2Z.inj_xO Z.mul_comm Z.mod_mul.
by rewrite Pos2Nat.inj_xO multE mul2n odd_double.
Qed.

(** The loop of [polynomial_exp_mod]: it multiplies [s] by the power of [G]
    whose exponent is the even part of [k]. *)
Lemma exp_loop_spec (k : positive) (g0 g1 s0 s1 : Z) :
  (0 <= s0 < p)%Z -> (0 <= s1 < p)%Z ->
  exists r0 r1 : Z,
    [/\ exp_loop k [:: g0; g1] [:: s0; s1] [:: f0; f1; 1%Z] p = Ok [:: r0; r1],
        (0 <= r0 < p)%Z, (0 <= r1 < p)%Z &
        f %| poly2 s0 s1 * poly2 g0 g1 ^+ (Pos.to_nat k)./2.*2 - poly2 r0 r1].
Proof.
have Hstep (k' : positive) (n : nat) (g0' g1' s0' s1' : Z) :
    (forall g0 g1 s0 s1 : Z, (0 <= s0 < p)%Z -> (0 <= s1 < p)%Z ->
       exists r0 r1 : Z,
         [/\ exp_loop k' [:: g0; g1] [:: s0; s1] [:: f0; f1; 1%Z] p = Ok [:: r0; r1],
             (0 <= r0 < p)%Z, (0 <= r1 < p)%Z &
             f %| poly2 s0 s1 * poly2 g0 g1 ^+ (Pos.to_nat k')./2.*2 - poly2 r0 r1]) ->
    n./2 = Pos.to_nat k' ->
    (0 <= s0' < p)%Z -> (0 <= s1' < p)%Z ->
    exists r0 r1 : Z,
      [/\ (G <- polynomial_multiply_mod [:: g0'; g1'] [:: g0'; g1'] [:: f0; f1; 1%Z] p ;;
           s <- (if (Z.pos k' mod 2 =? 1)%Z
                 then polynomial_multiply_mod G [:: s0'; s1'] [:: f0; f1; 1%Z] p
                 else Ok [:: s0'; s1']) ;;
           exp_loop k' G s [:: f0; f1; 1%Z] p) = Ok [:: r0; r1],
          (0 <= r0 < p)%Z, (0 <= r1 < p)%Z &
          f %| poly2 s0' s1' * poly2 g0' g1' ^+ n./2.*2 - poly2 r0 r1].
  move=> IH Hn Hs0 Hs1.
  have [G0 [G1 [-> _ _ HG]]] := polynomial_multiply_mod_22 g0' g1' g0' g1'.
  rewrite bind_Ok pos_odd Hn.
  set m := (Pos.to_nat k')./2.*2.
  have Hm : (Pos.to_nat k').*2 = ((odd (Pos.to_nat k')).*2 + m.*2)%N.
    by rewrite -doubleD odd_double_half.
  have HGm : f %| (poly2 g0' g1' ^+ 2) ^+ m - poly2 G0 G1 ^+ m.
    by apply: eqf_exp; rewrite expr2.
  case Hodd: (odd (Pos.to_nat k')).
    have [t0 [t1 [-> Ht0 Ht1 Ht]]] := polynomial_multiply_mod_22 G0 G1 s0' s1'.
    rewrite bind_Ok; have [r0 [r1 [-> Hr0 Hr1 Hr]]] := IH G0 G1 t0 t1 Ht0 Ht1.
    exists r0, r1; split=> //.
    apply: eqf_trans Hr; rewrite -/m Hm Hodd.
    have -> : poly2 g0' g1' ^+ (true.*2 + m.*2) =
              poly2 g0' g1' ^+ 2 * (poly2 g0' g1' ^+ 2) ^+ m.
      by rewrite exprD -[m.*2]mul2n exprM.
    rewrite mulrA; apply: eqf_mul => //.
    apply: eqf_trans Ht; rewrite mulrC; apply: eqf_mul; first by rewrite expr2.
    by rewrite subrr dvdp0.
  rewrite bind_Ok; have [r0 [r1 [-> Hr0 Hr1 Hr]]] := IH G0 G1 s0' s1' Hs0 Hs1.
  exists r0, r1; split=> //.
  apply: eqf_trans Hr; rewrite -/m Hm Hodd add0n -[m.*2]mul2n exprM.
  by apply: eqf_mul => //; rewrite subrr dvdp0.
elim: k g0 g1 s0 s1 => [k IH|k IH|] g0 g1 s0 s1 Hs0 Hs1.
- apply: Hstep => //.
  by rewrite Pos2Nat.inj_xI multE mul2n -[_.+1]/(true + _)%N half_bit_double.
- apply: Hstep => //.
  by rewrite Pos2Nat.inj_xO multE mul2n doubleK.
exists s0, s1; split=> //.
by rewrite expr0 mulr1 subrr dvdp0.
Qed.

End PolyCode.
(** ** [square_root_mod_prime] on an odd prime *)

Section SqrtCode.

Import GRing.Theory.

Variable p : Z.
Hypothesis p_prime : Znumtheory.prime p.
Hypothesis p_ge3 : (3 <= p)%Z.

Let P := Z.to_nat p.
Let h := P./2.
Let P_prime : prime P := Zprime_prime p_prime.
Let p_odd : (p mod 2 = 1)%Z := prime_odd p_prime p_ge3.
Let P_odd : odd P.
Proof. by apply: Zodd_odd => //; lia. Qed.

Local Notation phi := (Fp_of_Z p).

Local Open Scope ring_scope.

Lemma half_Z : Z.of_nat h = ((p - 1) / 2)%Z.
Proof.
have := congr1 Z.of_nat (odd_half P_odd); rewrite -/h -!plusE !Nat2Z.inj_add /P.
rewrite Z2Nat.id; first by lia.
by move=> H; Z.div_mod_to_equations; lia.
Qed.

Lemma phi_m1 : phi (-1) = -1.
Proof. by have := Fp_of_ZN p_prime 1; rewrite Fp_of_Z1. Qed.

Lemma phi_sign (j : Z) : j \in [:: (-1)%Z; 0%Z; 1%Z] -> phi j = -1 -> j = (-1)%Z.
Proof.
rewrite !inE => /or3P [/eqP -> //|/eqP ->|/eqP ->].
  by rewrite Fp_of_Z0 // => /eqP; rewrite eq_sym oppr_eq0 oner_eq0.
by rewrite Fp_of_Z1 // => /eqP; rewrite eq_sym (negbTE (Fp_m1_neq1 P_prime P_odd)).
Qed.

(** Euler's criterion for what [jacobi] returns. *)
Lemma jacobi_euler (fuel : nat) (x j : Z) :
  jacobi fuel x p = Some (Ok j) -> phi x ^+ h = phi j.
Proof.
move=> Hj; have Hz := jacobi_zero_gcd Hj; have Hg := prime_gcd x p_prime.
case: (Z.eq_dec (x mod p) 0) => Hx0.
  have -> : j = 0%Z by apply/Hz => /Hg.
  have -> : phi x = 0 by apply/eqP; rewrite Fp_of_Z_eq0 // Hx0.
  have Hh0 : (h == 0)%N = false by apply/negbTE; rewrite -lt0n; exact: half_gt0.
  by rewrite Fp_of_Z0 // expr0n Hh0.
have Hgx : Z.gcd x p = 1%Z by apply/Hg.
rewrite (jacobi_gauss_symbol p_ge3 p_odd Hgx Hj) /gauss_symbol /Fp_of_Z -/P.
have Hco : coprime P (Z.to_nat (x mod p)).
  have Hm := Z.mod_pos_bound x p.
  by apply: Zgcd_coprime; rewrite 1?Z.gcd_comm ?Z.gcd_mod_l //; lia.
rewrite (gauss_lemma P_prime P_odd Hco) -/(Fp_of_Z p _).
by case: (gsign _ _); rewrite ?expr1 ?expr0 ?phi_m1 ?Fp_of_Z1.
Qed.

Lemma jacobi_m1 (fuel : nat) (x : Z) :
  (Z.to_nat p <= fuel)%coq_nat ->
  jacobi fuel x p = Some (Ok (-1)%Z) <-> phi x ^+ h = -1.
Proof.
move=> Hf; split=> [/jacobi_euler ->|Hx]; first exact: phi_m1.
have [j Hj Hin] := jacobi_returns x p_ge3 p_odd Hf.
by rewrite Hj (phi_sign Hin) // -(jacobi_euler Hj).
Qed.

(** A number of [[0, p)] whose class squares to the class of [a]. *)
Lemma phi_sqr_root (a r : Z) :
  (0 <= a < p)%Z -> phi r ^+ 2 = phi a -> ((r * r) mod p)%Z = a.
Proof.
move=> Ha /eqP; rewrite expr2 -Fp_of_ZM // Fp_of_Z_eq // => /eqP ->.
by rewrite Z.mod_small.
Qed.

Lemma pow_mod_range (x e : Z) : (0 <= pow_mod x e p < p)%Z.
Proof. by rewrite /pow_mod; apply: Z.mod_pos_bound; lia. Qed.

Lemma phi_nat (n : nat) : phi (Z.of_nat n) = n%:R.
Proof. exact: Fp_of_Z_nat. Qed.

Lemma half_even : (p mod 4 = 1)%Z -> ~~ odd h.
Proof.
move=> H4.
rewrite (odd_half_mod4 P_odd) -[4%N]/(Z.to_nat 4) /P -to_nat_mod; try lia.
by rewrite H4.
Qed.

Section Shortcuts.

Variable a : Z.
Hypothesis a_range : (0 <= a < p)%Z.
Hypothesis a_res : phi a ^+ h = 1.

Lemma sqrt_code_3mod4 :
  (p mod 4 = 3)%Z ->
  let r := pow_mod a ((p + 1) / 4) p in
  (0 <= r < p)%Z /\ ((r * r) mod p)%Z = a.
Proof.
move=> H4 r; split; first exact: pow_mod_range.
have He : (0 <= (p + 1) / 4)%Z by Z.div_mod_to_equations; lia.
apply: phi_sqr_root => //; rewrite /r (Fp_of_Z_pow_mod p_prime _ He).
apply: (sqrt_3mod4 (p := P)) => //; rewrite -/h.
by have := half_Z; rewrite -!plusE; Z.div_mod_to_equations; lia.
Qed.

Lemma sqrt_code_5mod8 :
  (p mod 8 = 5)%Z ->
  let d := pow_mod a ((p - 1) / 4) p in
  let r := if d == 1%Z then pow_mod a ((p + 3) / 8) p
           else ((2 * a * pow_mod (4 * a) ((p - 5) / 8) p) mod p)%Z in
  [/\ d = 1%Z \/ d = (p - 1)%Z, (0 <= r < p)%Z & ((r * r) mod p)%Z = a].
Proof.
move=> H8 d r.
have Hd := pow_mod_range a ((p - 1) / 4).
have He : (0 <= (p - 1) / 4)%Z by Z.div_mod_to_equations; lia.
have Hphid : phi d = phi a ^+ Z.to_nat ((p - 1) / 4).
  by rewrite /d (Fp_of_Z_pow_mod p_prime _ He).
have Hee : (Z.to_nat ((p - 1) / 4) + Z.to_nat ((p - 1) / 4) = h)%N.
  by have := half_Z; rewrite -!plusE; Z.div_mod_to_equations; lia.
have Hd1 : (phi d == 1) = (d == 1%Z).
  by rewrite -(Fp_of_Z1 p_prime) Fp_of_Z_eq // !Z.mod_small //; lia.
have Hdm1 : (phi d == -1) = (d == (p - 1)%Z).
  rewrite -phi_m1 Fp_of_Z_eq // (Z.mod_small d) //.
  have -> // : ((-1) mod p = p - 1)%Z.
  by symmetry; apply: (Z.mod_unique _ _ (-1)); lia.
have := sqrt_5mod8_d (p := P) Hee a_res; rewrite -Hphid Hd1 Hdm1 /r.
set r1 := pow_mod a ((p + 3) / 8) p; set r2 := (_ mod p)%Z.
case: (d =P 1%Z) => [Hd1'|Hdn1] /=; rewrite ?/r1 ?/r2.
  move=> _; split; [by left | exact: pow_mod_range |].
  have He' : (0 <= (p + 3) / 8)%Z by Z.div_mod_to_equations; lia.
  apply: phi_sqr_root => //; rewrite (Fp_of_Z_pow_mod p_prime _ He').
  apply: (sqrt_5mod8_1 (p := P) (e := Z.to_nat ((p - 1) / 4))).
    by rewrite -!plusE; Z.div_mod_to_equations; lia.
  by rewrite -Hphid Hd1' Fp_of_Z1.
move=> /eqP Hdp; split; [by right | by apply: Z.mod_pos_bound; lia |].
apply: phi_sqr_root => //.
have He' : (0 <= (p - 5) / 8)%Z by Z.div_mod_to_equations; lia.
rewrite Fp_of_Z_mod // !Fp_of_ZM // (Fp_of_Z_pow_mod p_prime _ He').
rewrite Fp_of_ZM // -[2%Z]/(Z.of_nat 2) -[4%Z]/(Z.of_nat 4) !phi_nat.
apply: (sqrt_5mod8_m1 (p := P) (e := Z.to_nat ((p - 1) / 4))) => //.
- by rewrite -!plusE; Z.div_mod_to_equations; lia.
- by rewrite -Hphid; apply/eqP; rewrite Hdm1 Hdp.
have Hco : coprime P 2 by rewrite coprime_sym prime_coprime // dvdn2 P_odd.
rewrite (gauss_lemma P_prime P_odd Hco) (gsign2 P_odd).
have -> : (P %% 8 == 5)%N.
  by rewrite -[8%N]/(Z.to_nat 8) /P -to_nat_mod ?H8 //; lia.
by rewrite orbT expr1.
Qed.

(** The remaining case: [x^((p + 1) / 2)] modulo [x^2 - b x + a] is a
    constant, a square root of [a]. *)
Lemma cipolla_code (b : Z) :
  (p mod 4 = 1)%Z -> phi (b * b - 4 * a) ^+ h = -1 ->
  exists r : Z,
    [/\ polynomial_exp_mod [:: 0%Z; 1%Z] ((p + 1) / 2) [:: a; (- b)%Z; 1%Z] p =
          Ok [:: r; 0%Z],
        (0 <= r < p)%Z & ((r * r) mod p)%Z = a].
Proof.
move=> H4 HD; rewrite /polynomial_exp_mod.
have -> : ((p + 1) / 2 <? p)%Z = true by apply/Z.ltb_lt; Z.div_mod_to_equations; lia.
rewrite bind_Ok.
have -> : ((p + 1) / 2 =? 0)%Z = false by apply/Z.eqb_neq; Z.div_mod_to_equations; lia.
have -> : (((p + 1) / 2) mod 2 =? 1)%Z = true.
  by apply/Z.eqb_eq; Z.div_mod_to_equations; lia.
have Hk : (0 < (p + 1) / 2)%Z by Z.div_mod_to_equations; lia.
have Hn : Z.to_nat ((p + 1) / 2) = h.+1.
  by have := half_Z; rewrite -addn1 -plusE; Z.div_mod_to_equations; lia.
case Ek: ((p + 1) / 2)%Z Hk Hn => [|k|k] // _; rewrite Z2Nat.inj_pos => Hn.
have H01 : (0 <= 0 < p)%Z /\ (0 <= 1 < p)%Z by lia.
have [r0 [r1 [-> Hr0 Hr1]]] :=
  exp_loop_spec p_prime a (- b) k 0 1 (proj1 H01) (proj2 H01).
have -> : poly2 p 0 1 = 'X.
  by rewrite /poly2 Fp_of_Z0 // Fp_of_Z1 // polyC0 add0r scale1r.
rewrite -exprS.
have -> : ((Pos.to_nat k)./2.*2.+1 = h.+1)%N.
  have Hodd : odd (Pos.to_nat k) by rewrite Hn /= half_even.
  by rewrite -Hn -[in RHS](odd_double_half (Pos.to_nat k)) Hodd.
rewrite Fp_of_ZN // scaleNr /poly2 => Hdiv.
have HD' : (phi b ^+ 2 - 4%:R * phi a) ^+ h = -1.
  by rewrite expr2 -(phi_nat 4) -!Fp_of_ZM // -Fp_of_ZB.
have [Hc1 Hc0] := cipolla_root P_prime P_odd a_res HD' Hdiv.
have Hr10 : r1 = 0%Z.
  by move/eqP: Hc1; rewrite Fp_of_Z_eq0 // Z.mod_small // => /eqP.
exists r0; split=> //; first by rewrite Hr10.
exact: phi_sqr_root.
Qed.

End Shortcuts.

(** The search for [b] gets to the first one whose discriminant has the
    symbol -1. *)
Lemma sqrt_search_found (fuel : nat) (bs : seq Z) (a b0 : Z) :
  (Z.to_nat p <= fuel)%coq_nat ->
  b0 \in bs -> jacobi fuel (b0 * b0 - 4 * a) p = Some (Ok (-1)%Z) ->
  exists b : Z,
    [/\ b \in bs, jacobi fuel (b * b - 4 * a) p = Some (Ok (-1)%Z) &
        sqrt_search fuel bs a p =
        Some (ff <- polynomial_exp_mod [:: 0%Z; 1%Z] ((p + 1) / 2)
                      [:: a; (- b)%Z; 1%Z] p ;;
              ff1 <- py_index ff 1 ;;
              if ff1 != 0%Z then Raise (SquareRootError NotPrime)
              else py_index ff 0)].
Proof.
move=> Hf; elim: bs => [|b bs IH] //.
rewrite inE => Hin Hb0.
have [j Hj _] := jacobi_returns (b * b - 4 * a) p_ge3 p_odd Hf.
rewrite [sqrt_search _ _ _ _]/= Hj.
case: (j =P (-1)%Z) => [Hj1|Hj1].
  by exists b; rewrite mem_head -Hj1.
have Hin' : b0 \in bs.
  case/orP: Hin => // /eqP Hbb; case: Hj1.
  by move: Hb0; rewrite Hbb Hj => - [].
have [b' [H1 H2 H3]] := IH Hin' Hb0.
by exists b'; rewrite inE H1 orbT.
Qed.

(** Some [b] of [range(2, p)] has a discriminant with the symbol -1. *)
Lemma sqrt_search_exists (fuel : nat) (a : Z) :
  (Z.to_nat p <= fuel)%coq_nat -> (p mod 4 = 1)%Z -> phi a ^+ h = 1 ->
  exists2 b : Z, b \in py_range 2 p &
    jacobi fuel (b * b - 4 * a) p = Some (Ok (-1)%Z).
Proof.
move=> Hf H4 Ha.
have Hh := half_even H4.
have [bF [Hb0 Hb1 HD]] := nonresidue_discriminant_ge2 P_prime P_odd Hh Ha.
have [Hphi Hb] := Fp_of_Z_val p_prime bF.
exists (Z.of_nat bF).
  rewrite mem_py_range; apply/andP; split; last by apply/Z.ltb_lt; case: Hb.
  apply/Z.leb_le.
  have H0 : Z.of_nat bF <> 0%Z.
    by move=> H0; move: Hb0; rewrite -Hphi H0 Fp_of_Z0 // eqxx.
  have H1 : Z.of_nat bF <> 1%Z.
    by move=> H1; move: Hb1; rewrite -Hphi H1 Fp_of_Z1 // eqxx.
  by move: Hb H0 H1; move: (Z.of_nat bF) => x; lia.
apply/jacobi_m1 => //.
by rewrite Fp_of_ZB // !Fp_of_ZM // Hphi -expr2 -[4%Z]/(Z.of_nat 4) phi_nat.
Qed.

End SqrtCode.
(** How [square_root_mod_prime] gets to the root [r] it returns: the
    arguments 0 and the modulus 2 apart, by the closed form for
    [p = 3 (mod 4)], by the one for [p = 5 (mod 8)], or as the constant
    [x^((p + 1) / 2)] reduces to modulo [x^2 - b x + a], for a [b] of
    [range(2, p)] whose discriminant has the symbol -1. *)
Definition sqrt_method (fuel : nat) (a p r : Z) : Prop :=
  if (a == 0%Z) || (p == 2%Z) then r = a
  else if (p mod 4)%Z == 3%Z then r = pow_mod a ((p + 1) / 4) p
  else if (p mod 8)%Z == 5%Z then
    r = if pow_mod a ((p - 1) / 4) p == 1%Z then pow_mod a ((p + 3) / 8) p
        else ((2 * a * pow_mod (4 * a) ((p - 5) / 8) p) mod p)%Z
  else
    exists b : Z,
      [/\ (2 <= b < p)%Z, jacobi fuel (b * b - 4 * a) p = Some (Ok (-1)%Z) &
          polynomial_exp_mod [:: 0%Z; 1%Z] ((p + 1) / 2) [:: a; (- b)%Z; 1%Z] p =
            Ok [:: r; 0%Z]].

(** On an odd prime and a square that [p] does not divide. *)
Lemma square_root_mod_prime_residue (fuel : nat) (a p : Z) :
  Znumtheory.prime p -> (3 <= p)%Z -> (0 < a < p)%Z ->
  (Z.to_nat p <= fuel)%coq_nat -> jacobi fuel a p = Some (Ok 1%Z) ->
  exists r : Z,
    [/\ square_root_mod_prime fuel a p = Some (Ok r), (0 <= r < p)%Z,
        ((r * r) mod p)%Z = a & sqrt_method fuel a p r].
Proof.
move=> Hp H3 Ha Hf Hj.
have Ha' : (0 <= a < p)%Z by lia.
have Hres : (Fp_of_Z p a ^+ (Z.to_nat p)./2 = 1)%R.
  by rewrite (jacobi_euler Hp H3 Hj) Fp_of_Z1.
rewrite /square_root_mod_prime /sqrt_method Hj.
have -> : ((0 <=? a) && (a <? p))%Z = true.
  by apply/andP; split; [apply/Z.leb_le | apply/Z.ltb_lt]; lia.
have -> : (1 <? p)%Z = true by apply/Z.ltb_lt; lia.
have -> : (a == 0%Z) = false by apply/eqP; lia.
have -> : (p == 2%Z) = false by apply/eqP; lia.
rewrite [negb _]/= [(1%Z == (-1)%Z)]/= [_ || _]/=.
case: (_ =P 3%Z) => [H4|H4].
  have [Hr Hrr] := sqrt_code_3mod4 Hp H3 Ha' Hres H4.
  by eexists; split.
case: (_ =P 5%Z) => [H8|H8].
  have [Hd Hr Hrr] := sqrt_code_5mod8 Hp H3 Ha' Hres H8.
  move: Hd Hr Hrr; case: (_ =P 1%Z) => [Hd1|Hd1] Hd Hr Hrr; first by eexists; split.
  case: Hd => // Hd; have -> /= : (pow_mod a ((p - 1) / 4) p != (p - 1)%Z) = false.
    by rewrite Hd eqxx.
  by eexists; split.
have H41 : (p mod 4 = 1)%Z.
  by have := prime_odd Hp H3; move: H4; Z.div_mod_to_equations; lia.
have [b0 Hin Hb0] := sqrt_search_exists Hp H3 Hf H41 Hres.
have [b [Hb Hjb ->]] := sqrt_search_found Hp H3 Hf Hin Hb0.
have HD : (Fp_of_Z p (b * b - 4 * a) ^+ (Z.to_nat p)./2 = -1)%R.
  by rewrite (jacobi_euler Hp H3 Hjb); exact: phi_m1.
have [r [E Hr Hrr]] := cipolla_code Hp H3 Ha' Hres H41 HD.
exists r; rewrite E; split=> //.
exists b; split=> //.
by move: Hb; rewrite mem_py_range => /andP [/Z.leb_le H1 /Z.ltb_lt H2].
Qed.

(** C7.  For a prime [p] and [0 <= a < p], [square_root_mod_prime(a, p)]
    returns or raises: it raises the no-square-root error exactly when
    [jacobi(a, p)] returns -1, which is exactly when [a] is not a square
    modulo [p]; otherwise it returns a root [r] of [[0, p)],
    [r * r = a (mod p)], found by the closed form for [p = 3 (mod 4)], by the
    one for [p = 5 (mod 8)], or by the exponentiation in
    [GF(p)[x] / (x^2 - b x + a)].  A recursion of depth [p] is enough for
    [jacobi]. *)
Theorem square_root_mod_prime_correct (fuel : nat) (a p : Z) :
  Znumtheory.prime p -> (0 <= a < p)%Z -> (Z.to_nat p <= fuel)%coq_nat ->
  exists res : result Z,
    [/\ square_root_mod_prime fuel a p = Some res,
        res = Raise (SquareRootError NoSquareRoot) <->
          jacobi fuel a p = Some (Ok (-1)%Z),
        res = Raise (SquareRootError NoSquareRoot) <->
          ~ (exists x : Z, ((x * x) mod p)%Z = a) &
        res <> Raise (SquareRootError NoSquareRoot) ->
        exists r : Z,
          [/\ res = Ok r, (0 <= r < p)%Z, ((r * r) mod p)%Z = a &
              sqrt_method fuel a p r]].
Proof.
move=> Hp Ha Hf; have Hp1 : (1 < p)%Z by case: Hp.
have Hle : ((0 <=? a) && (a <? p))%Z = true.
  by apply/andP; split; [apply/Z.leb_le | apply/Z.ltb_lt]; lia.
have Hlt : (1 <? p)%Z = true by apply/Z.ltb_lt.
case: (Z.eq_dec a 0) => Ha0.
  exists (Ok 0%Z); rewrite /square_root_mod_prime /sqrt_method Hle Hlt Ha0 eqxx.
  split=> //.
  - split=> // Hj; have [_ H] := jacobi_zero_gcd Hj.
    by have : (-1)%Z = 0%Z by apply: H; rewrite Z.gcd_0_l; lia.
  - by split=> // H; case: H; exists 0%Z; rewrite Zmod_0_l.
  by move=> _; exists 0%Z; split=> //; lia.
have Ha0' : (a == 0%Z) = false by apply/eqP.
case: (Z.eq_dec p 2) => Hp2.
  have Ha1 : a = 1%Z by lia.
  exists (Ok a); rewrite /square_root_mod_prime /sqrt_method Hle Hlt Ha0' Hp2 eqxx orbT.
  split=> //.
  - by split=> //; rewrite Ha1; case: (fuel) Hf => [|f] //; rewrite Hp2; lia.
  - by split=> // H; case: H; exists 1%Z; rewrite Ha1.
  by move=> _; exists a; split=> //; rewrite Ha1.
have H3 : (3 <= p)%Z by lia.
have Hodd := prime_odd Hp H3.
have [j Hj Hin] := jacobi_returns a H3 Hodd Hf.
have [Hj0 Hj1 Hjm] := jacobi_residue Hp H3 Hj.
have Hmod : (a mod p = a)%Z by rewrite Z.mod_small.
rewrite Hmod in Hj0 Hj1 Hjm.
move: Hin; rewrite !inE => /or3P [/eqP Hjv|/eqP Hjv|/eqP Hjv].
- exists (Raise (SquareRootError NoSquareRoot)).
  have Hp2' : (p == 2%Z) = false by apply/eqP.
  rewrite /square_root_mod_prime Hle Hlt Ha0' Hp2' Hj Hjv eqxx; split=> //.
  by split=> // _; apply/Hjm.
- by case: Ha0; apply/Hj0.
have Hj' : jacobi fuel a p = Some (Ok 1%Z) by rewrite Hj Hjv.
have Ha' : (0 < a < p)%Z by lia.
have [r [Hr Hr1 Hr2 Hr3]] := square_root_mod_prime_residue Hp H3 Ha' Hf Hj'.
have [_ Hx] := proj1 Hj1 Hjv.
exists (Ok r); rewrite Hj'; split.
- exact: Hr.
- by split.
- by split=> // H; case: (H Hx).
by move=> _; exists r.
Qed.

Lemma prime_17 : Znumtheory.prime 17.
Proof. by apply/trial_divisionP; vm_compute. Qed.

Lemma square_root_mod_prime_correct_witness :
  square_root_mod_prime 17 2 17 = Some (Ok 6%Z) /\
  square_root_mod_prime 17 3 17 = Some (Raise (SquareRootError NoSquareRoot)).
Proof.
have Hf : (Z.to_nat 17 <= 17)%coq_nat by apply/leP.
have H2 : (0 <= 2 < 17)%Z by [].
have H3 : (0 <= 3 < 17)%Z by [].
have [res [E _ _ H]] := @square_root_mod_prime_correct 17 2 17 prime_17 H2 Hf.
have [res' [E' H' _ _]] := @square_root_mod_prime_correct 17 3 17 prime_17 H3 Hf.
split.
  have Hres : res <> Raise (SquareRootError NoSquareRoot).
    by move=> Hres; move: E; rewrite Hres; vm_compute.
  have [r [Hr _ _ _]] := H Hres.
  have E6 : Some (Ok 6%Z) = Some res by rewrite -E; vm_compute.
  by rewrite E -E6.
have Hj : jacobi 17 3 17 = Some (Ok (-1)%Z) by vm_compute.
by rewrite E' (proj2 H' Hj).
Defined.

(** ** [polynomial_exp_mod] modulo a monic polynomial of degree 2 *)

Section PolyExp.

Import GRing.Theory.

Variable p : Z.
Hypothesis p_prime : Znumtheory.prime p.

Let P := Z.to_nat p.
Let p_gt1 : (1 < p)%Z.
Proof. by case: p_prime. Qed.

Local Notation phi := (Fp_of_Z p).

Variables f0 f1 : Z.

Let f : {poly 'F_P} := ('X^2 + phi f1 *: 'X + (phi f0)%:P)%R.

(** The product of a polynomial of degree 1 and a constant: nothing is
    reduced. *)
Lemma polynomial_multiply_mod_21 (g0 g1 s0 : Z) :
  exists r0 r1 : Z,
    [/\ polynomial_multiply_mod [:: g0; g1] [:: s0] [:: f0; f1; 1%Z] p =
          Ok [:: r0; r1],
        (0 <= r0 < p)%Z, (0 <= r1 < p)%Z &
        (poly2 p g0 g1 * (phi s0)%:P = poly2 p r0 r1)%R].
Proof.
have Hb x := Z.mod_pos_bound x p (Z.lt_trans _ _ _ Z.lt_0_1 p_gt1).
rewrite /polynomial_multiply_mod [foldl _ _ _]/=.
do 2![rewrite py_mod_Ok // !bind_Ok /=].
rewrite /polynomial_reduce_mod /=.
exists ((g0 * s0) mod p)%Z, ((g1 * s0) mod p)%Z; split=> //.
rewrite /poly2 !Fp_of_Z_mod // !Fp_of_ZM //.
by rewrite -!mul_polyC !rmorphM /=; ring.
Qed.

Local Open Scope ring_scope.

(** The loop from a constant [s]: past the first round [s] has degree 1. *)
Lemma exp_loop_const (k : positive) (g0 g1 s0 : Z) :
  k <> xH ->
  exists r0 r1 : Z,
    [/\ exp_loop k [:: g0; g1] [:: s0] [:: f0; f1; 1%Z] p = Ok [:: r0; r1],
        (0 <= r0 < p)%Z, (0 <= r1 < p)%Z &
        f %| (phi s0)%:P * poly2 p g0 g1 ^+ (Pos.to_nat k)./2.*2 - poly2 p r0 r1].
Proof.
have Hstep (k' : positive) (n : nat) (g0' g1' : Z) :
    (forall g0 g1 : Z, k' <> xH ->
       exists r0 r1 : Z,
         [/\ exp_loop k' [:: g0; g1] [:: s0] [:: f0; f1; 1%Z] p = Ok [:: r0; r1],
             (0 <= r0 < p)%Z, (0 <= r1 < p)%Z &
             f %| (phi s0)%:P * poly2 p g0 g1 ^+ (Pos.to_nat k')./2.*2 -
                  poly2 p r0 r1]) ->
    n./2 = Pos.to_nat k' ->
    exists r0 r1 : Z,
      [/\ (G <- polynomial_multiply_mod [:: g0'; g1'] [:: g0'; g1'] [:: f0; f1; 1%Z] p ;;
           s <- (if (Z.pos k' mod 2 =? 1)%Z
                 then polynomial_multiply_mod G [:: s0] [:: f0; f1; 1%Z] p
                 else Ok [:: s0]) ;;
           exp_loop k' G s [:: f0; f1; 1%Z] p) = Ok [:: r0; r1],
          (0 <= r0 < p)%Z, (0 <= r1 < p)%Z &
          f %| (phi s0)%:P * poly2 p g0' g1' ^+ n./2.*2 - poly2 p r0 r1].
  move=> IH Hn.
  have [G0 [G1 [-> _ _ HG]]] := polynomial_multiply_mod_22 p_prime f0 f1 g0' g1' g0' g1'.
  rewrite bind_Ok pos_odd Hn.
  set m := (Pos.to_nat k')./2.*2.
  have Hm : (Pos.to_nat k').*2 = ((odd (Pos.to_nat k')).*2 + m.*2)%N.
    by rewrite -doubleD odd_double_half.
  have HGm : f %| (poly2 p g0' g1' ^+ 2) ^+ m - poly2 p G0 G1 ^+ m.
    by apply: eqf_exp; rewrite expr2.
  case Hodd: (odd (Pos.to_nat k')).
    have [t0 [t1 [-> Ht0 Ht1 Ht]]] := polynomial_multiply_mod_21 G0 G1 s0.
    rewrite bind_Ok.
    have [r0 [r1 [-> Hr0 Hr1 Hr]]] := exp_loop_spec p_prime f0 f1 k' G0 G1 Ht0 Ht1.
    exists r0, r1; split=> //.
    apply: eqf_trans Hr; rewrite -/m Hm Hodd -Ht.
    have -> : poly2 p g0' g1' ^+ (true.*2 + m.*2) =
              poly2 p g0' g1' ^+ 2 * (poly2 p g0' g1' ^+ 2) ^+ m.
      by rewrite exprD -[m.*2]mul2n exprM.
    rewrite mulrA; apply: eqf_mul => //.
    rewrite mulrC; apply: eqf_mul; first by rewrite expr2.
    by rewrite subrr dvdp0.
  have Hk' : k' <> xH by move=> Hk'; move: Hodd; rewrite Hk'.
  rewrite bind_Ok; have [r0 [r1 [-> Hr0 Hr1 Hr]]] := IH G0 G1 Hk'.
  exists r0, r1; split=> //.
  apply: eqf_trans Hr; rewrite -/m Hm Hodd add0n -[m.*2]mul2n exprM.
  by apply: eqf_mul => //; rewrite subrr dvdp0.
elim: k g0 g1 => [k IH|k IH|] g0 g1 // _.
- apply: Hstep => //.
  by rewrite Pos2Nat.inj_xI multE mul2n -[_.+1]/(true + _)%N half_bit_double.
apply: Hstep => //.
by rewrite Pos2Nat.inj_xO multE mul2n doubleK.
Qed.

End PolyExp.

(** [polynomial_exp_mod] raises its base to the power [exponent] in
    [GF(p)[x] / (x^2 + f1 x + f0)]: for a prime [p], a base [g0 + g1 x] with
    coefficients of [[0, p)] and [0 <= exponent < p], it returns [[:: 1]]
    for the exponent 0 and otherwise a list [[:: r0; r1]] of numbers of
    [[0, p)], with [r0 + r1 x] congruent to the power of the base modulo
    [x^2 + f1 x + f0] over the field of [p] elements. *)
Theorem polynomial_exp_mod_power (p f0 f1 g0 g1 e : Z) :
  Znumtheory.prime p -> (0 <= e < p)%Z -> (0 <= g0 < p)%Z -> (0 <= g1 < p)%Z ->
  if e == 0%Z
  then polynomial_exp_mod [:: g0; g1] e [:: f0; f1; 1%Z] p = Ok [:: 1%Z]
  else exists r0 r1 : Z,
    [/\ polynomial_exp_mod [:: g0; g1] e [:: f0; f1; 1%Z] p = Ok [:: r0; r1],
        (0 <= r0 < p)%Z, (0 <= r1 < p)%Z &
        ('X^2 + Fp_of_Z p f1 *: 'X + (Fp_of_Z p f0)%:P
           %| poly2 p g0 g1 ^+ Z.to_nat e - poly2 p r0 r1)%R].
Proof.
move=> Hp He Hg0 Hg1; rewrite /polynomial_exp_mod.
have -> : (e <? p)%Z = true by apply/Z.ltb_lt; lia.
rewrite bind_Ok; case: (e =P 0%Z) => [->|He0] //.
have -> : (e =? 0)%Z = false by apply/Z.eqb_neq.
case Ee: e He He0 => [|k|k] // He _; last by lia.
rewrite pos_odd.
have Hn := odd_double_half (Pos.to_nat k).
case Hodd: (odd (Pos.to_nat k)) Hn => Hn.
  have [r0 [r1 [-> Hr0 Hr1 Hr]]] := exp_loop_spec Hp f0 f1 k g0 g1 Hg0 Hg1.
  exists r0, r1; split=> //.
  have -> : Z.to_nat (Z.pos k) = ((Pos.to_nat k)./2.*2).+1.
    by rewrite Z2Nat.inj_pos -[LHS]Hn.
  by move: Hr; rewrite -GRing.exprS.
have Hk : k <> xH by move=> Hk; move: Hodd; rewrite Hk.
have [r0 [r1 [-> Hr0 Hr1 Hr]]] := exp_loop_const Hp f0 f1 g0 g1 1 Hk.
exists r0, r1; split=> //.
have -> : Z.to_nat (Z.pos k) = (Pos.to_nat k)./2.*2.
  by rewrite Z2Nat.inj_pos -[LHS]Hn.
by move: Hr; rewrite Fp_of_Z1 // GRing.mul1r.
Qed.

Lemma polynomial_exp_mod_power_witness :
  exists r0 r1 : Z,
    polynomial_exp_mod [:: 0%Z; 1%Z] 9 [:: 2%Z; (-3)%Z; 1%Z] 17 = Ok [:: r0; r1].
Proof.
have He : (0 <= 9 < 17)%Z by [].
have H0 : (0 <= 0 < 17)%Z by [].
have H1 : (0 <= 1 < 17)%Z by [].
have [r0 [r1 [E _ _ _]]] :=
  @polynomial_exp_mod_power 17 2 (-3) 0 1 9 prime_17 He H0 H1.
by exists r0, r1.
Defined.

(** Euler's criterion for [jacobi]: on an odd prime [p], what
    [jacobi(a, p)] returns is congruent to [pow(a, (p - 1) // 2, p)]. *)
Theorem jacobi_euler_criterion (fuel : nat) (a p j : Z) :
  Znumtheory.prime p -> (3 <= p)%Z -> jacobi fuel a p = Some (Ok j) ->
  pow_mod a ((p - 1) / 2) p = (j mod p)%Z.
Proof.
move=> Hp H3 Hj.
have He : (0 <= (p - 1) / 2)%Z by Z.div_mod_to_equations; lia.
have := jacobi_euler Hp H3 Hj.
have -> : (Z.to_nat p)./2 = Z.to_nat ((p - 1) / 2) by rewrite -(half_Z Hp H3) Nat2Z.id.
rewrite -(Fp_of_Z_pow_mod Hp _ He) => /eqP; rewrite Fp_of_Z_eq // => /eqP <-.
by rewrite Z.mod_small //; apply: pow_mod_range; lia.
Qed.

Lemma jacobi_euler_criterion_witness : pow_mod 3 ((7 - 1) / 2) 7 = ((-1) mod 7)%Z.
Proof.
have H : jacobi 7 3 7 = Some (Ok (-1)%Z) by vm_compute.
exact: (@jacobi_euler_criterion 7 3 7 (-1) prime_7 (@Zle_true 3 7 (erefl true)) H).
Defined.
